(** * An append-only, log-structured key-value store

    Shallow embedding of the two programs of the repository:

    - [Version 0 - Single Log Append File/main.cpp]: one log file, one
      in-memory index ([Module Single]);
    - [Version 0 - With limited size multiple log append life/main.cpp]:
      a [StorageEngine] owning a list of [Store]s, with size-based log
      rotation ([Module Multi]).

    The C++ standard library objects the programs use are modelled first:
    [std::string] as a list of bytes, [std::to_string] and [std::stoi],
    the file system as a finite map from paths to contents, [std::ifstream]
    with its get position and state bits, [std::ofstream] with its pending
    buffer.  Unsigned 64-bit arithmetic ([uint64_t], [size_t]) is on [Z]
    with the wrap-around written out.

    What the model takes from the platform:

    - files are sequences of bytes and streams do not translate line ends
      (the programs open the log for reading once in binary and once in text
      mode, which is the same on a POSIX system);
    - an input stream can be opened exactly when the file exists; whether
      the log can be opened for appending and whether a write reaches the
      file is decided by the operating system, and is an input of the
      operations ([io]);
    - [int] keys are integers: the programs do no arithmetic on them, and
      [std::stoi] only returns values of the range of [int];
    - the console output ([log], [std::cout]) is left out. *)

From Stdlib Require Import ZArith Ascii String DecimalString DecimalZ.
From stdpp Require Import gmap strings list fin_maps.

Local Open Scope Z_scope.

(** ** Bytes, [std::string] *)

Abbreviation bytes := (list ascii).

(** A string literal as a [std::string]. *)
Definition str (s : string) : bytes := list_ascii_of_string s.

(** [const char DELIMITER = '\0';] *)
Definition DELIMITER : ascii := "000"%char.

(** [const uint64_t MAX_FILE_BYTE_SIZE = 20;] *)
Definition MAX_FILE_BYTE_SIZE : Z := 20.

(** Conversion to [uint64_t] / [size_t]: reduction modulo 2^64. *)
Definition u64 (z : Z) : Z := z mod 2 ^ 64.

(** [data.size()] as a [size_t]. *)
Definition size (s : bytes) : Z := Z.of_nat (length s).

(** [std::to_string(int)]: the decimal digits, with a leading minus sign
    for a negative number. *)
Definition to_string (z : Z) : bytes :=
  list_ascii_of_string (NilZero.string_of_int (Z.to_int z)).

(** [data.find(',')]: the index of the first comma, [None] for [npos]. *)
Fixpoint find_comma (s : bytes) : option nat :=
  match s with
  | [] => None
  | c :: s' => if decide (c = ","%char) then Some O else S <$> find_comma s'
  end.

(** *** [std::stoi]

    [std::stoi(s)] calls [strtol(s, &end, 10)]: white space is skipped, an
    optional sign is read, then the longest run of decimal digits.  It throws
    [std::invalid_argument] when there is no digit and [std::out_of_range]
    when the number does not fit an [int]; characters after the digits are
    ignored.  Both exceptions are caught by the caller's [catch (...)], so
    the model returns [None] for either. *)

Fixpoint skip_spaces (s : bytes) : bytes :=
  match s with
  | c :: s' => if Ascii.is_space c then skip_spaces s' else s
  | [] => []
  end.

(** The digits at the head of [s], most significant first. *)
Fixpoint leading_digits (s : bytes) : list nat :=
  match s with
  | c :: s' =>
      match Ascii.is_nat c with
      | Some d => d :: leading_digits s'
      | None => []
      end
  | [] => []
  end.

Definition digits_value (ds : list nat) : Z :=
  fold_left (fun acc d => 10 * acc + Z.of_nat d) ds 0.

Definition INT_MIN : Z := - 2 ^ 31.
Definition INT_MAX : Z := 2 ^ 31 - 1.

Definition stoi (s : bytes) : option Z :=
  let s1 := skip_spaces s in
  let '(neg, s2) :=
    match s1 with
    | c :: s' =>
        if decide (c = "-"%char) then (true, s')
        else if decide (c = "+"%char) then (false, s')
        else (false, s1)
    | [] => (false, s1)
    end in
  match leading_digits s2 with
  | [] => None
  | ds =>
      let v := if neg then - digits_value ds else digits_value ds in
      if decide (INT_MIN <= v <= INT_MAX) then Some v else None
  end.

(** ** The in-memory index: [struct MetaData], [class HashMap] *)

Record MetaData := mkMetaData {
  byteOffset : Z;  (* uint64_t *)
  byteSize : Z     (* uint64_t *)
}.

Global Instance MetaData_eq_dec : EqDecision MetaData.
Proof. solve_decision. Defined.

(** [class HashMap : public std::map<int, MetaData>] with its private
    [currByteOffset]. *)
Record HashMap := mkHashMap {
  entries : gmap Z MetaData;
  currByteOffset : Z  (* uint64_t *)
}.

Definition HashMap_new : HashMap := mkHashMap ∅ 0.

Definition currentOffset (h : HashMap) : Z := currByteOffset h.

(** [this->operator[](key) = { currByteOffset, recordSize };
    currByteOffset += recordSize;] *)
Definition HashMap_add (key : Z) (recordSize : Z) (h : HashMap) : HashMap :=
  mkHashMap (<[key := mkMetaData (currByteOffset h) recordSize]> (entries h))
            (u64 (currByteOffset h + recordSize)).

(** [find(key)]; [{0, 0}] when the key is absent. *)
Definition HashMap_get (key : Z) (h : HashMap) : MetaData :=
  match entries h !! key with
  | None => mkMetaData 0 0
  | Some m => m
  end.

Definition HashMap_reset (h : HashMap) : HashMap := mkHashMap ∅ 0.

(** ** The file system

    A finite map from paths to file contents.  A file that is absent from
    the map does not exist. *)

Abbreviation filesystem := (gmap (list ascii) (list ascii)).

(** The content of a file, empty when the file does not exist. *)
Definition file_content (fs : filesystem) (path : bytes) : bytes :=
  default [] (fs !! path).

(** ** [std::ifstream]

    The stream keeps the content of the file it was opened on, its get
    position and the two state bits the programs can observe ([eofbit],
    [failbit]).  Opening succeeds exactly when the file exists. *)

Record ifstream := mkIfstream {
  ibuf : bytes;
  gpos : nat;
  eofbit : bool;
  failbit : bool
}.

Definition ifstream_open (fs : filesystem) (path : bytes) : option ifstream :=
  (fun c => mkIfstream c 0 false false) <$> fs !! path.

Definition good (s : ifstream) : bool := negb (eofbit s) && negb (failbit s).

Definition setfail (s : ifstream) : ifstream :=
  mkIfstream (ibuf s) (gpos s) (eofbit s) true.

(** [in.tellg()]: the sentry of an input function sets [failbit] on a stream
    that is not [good()]; the result is then [pos_type(-1)]. *)
Definition tellg (s : ifstream) : Z * ifstream :=
  if good s then (Z.of_nat (gpos s), s) else (-1, setfail s).

(** A [uint64_t] read as the signed [std::streamoff] it converts to. *)
Definition to_streamoff (z : Z) : Z := if decide (z < 2 ^ 63) then z else z - 2 ^ 64.

(** [in.seekg(off, std::ios::beg)]: clears [eofbit]; unless the stream has
    failed, moves the get position; a negative offset makes the seek fail.
    Seeking beyond the end of the file succeeds.  (A file system refuses
    offsets beyond the largest it supports, which is at least [2^31 - 1];
    the model has no such limit, so a statement about a seek beyond the end
    of a file bounds the offset.) *)
Definition seekg (off : Z) (s : ifstream) : ifstream :=
  if failbit s then mkIfstream (ibuf s) (gpos s) false true
  else if decide (0 <= to_streamoff off)
       then mkIfstream (ibuf s) (Z.to_nat (to_streamoff off)) false false
       else mkIfstream (ibuf s) (gpos s) false true.

(** The characters before the first [DELIMITER], and what follows it
    ([None] when the end of the input comes first). *)
Fixpoint read_until_delim (s : bytes) : bytes * option bytes :=
  match s with
  | [] => ([], None)
  | c :: s' =>
      if decide (c = DELIMITER) then ([], Some s')
      else let '(d, r) := read_until_delim s' in (c :: d, r)
  end.

(** [std::getline(in, str, DELIMITER)].  On a stream that is not [good()]
    the sentry fails and [str] is left as it was.  Otherwise [str] is erased
    and characters are extracted up to and including the delimiter, which is
    not stored; reaching the end of the file sets [eofbit], and [failbit] as
    well when no character was extracted. *)
Definition getline (s : ifstream) (str0 : bytes) : ifstream * bytes :=
  if good s then
    match read_until_delim (drop (gpos s) (ibuf s)) with
    | (line, Some _) =>
        (mkIfstream (ibuf s) (gpos s + length line + 1) false false, line)
    | (line, None) =>
        (mkIfstream (ibuf s) (gpos s + length line) true (bool_decide (line = [])),
         line)
    end
  else (setfail s, str0).

(** ** [std::ofstream]

    Opened in append mode.  [pending] is what [operator<<] has put in the
    stream buffer and [flush] has not yet written to the file; [obad] is set
    once an operation failed (the programs never clear it).  Whether the
    operating system lets an open or a write succeed is not decided by the
    program: it is an input ([ok]) of the operation. *)

Record ofstream := mkOfstream {
  is_open : bool;
  obad : bool;
  pending : bytes
}.

Definition ofstream_closed : ofstream := mkOfstream false false [].

(** [store.open(path, std::ios::app)]: creates the file when it does not
    exist, keeps its content when it does. *)
Definition ofstream_open (ok : bool) (path : bytes) (o : ofstream)
    (fs : filesystem) : ofstream * filesystem :=
  if is_open o then (mkOfstream true true (pending o), fs)
  else if ok then
    (mkOfstream true false [],
     match fs !! path with Some _ => fs | None => <[path := []]> fs end)
  else (mkOfstream false true [], fs).

(** [store << data] *)
Definition ofstream_put (data : bytes) (o : ofstream) : ofstream :=
  if is_open o && negb (obad o)
  then mkOfstream true false (pending o ++ data)
  else mkOfstream (is_open o) true (pending o).

(** [store.flush()]: the pending bytes are appended to the file. *)
Definition ofstream_flush (ok : bool) (path : bytes) (o : ofstream)
    (fs : filesystem) : ofstream * filesystem :=
  if is_open o && negb (obad o) then
    if ok then (mkOfstream true false [],
                <[path := file_content fs path ++ pending o]> fs)
    else (mkOfstream true true (pending o), fs)
  else (o, fs).

(** [store.close()]: flushes what is pending. *)
Definition ofstream_close (ok : bool) (path : bytes) (o : ofstream)
    (fs : filesystem) : ofstream * filesystem :=
  let '(o1, fs1) := ofstream_flush ok path o fs in
  (mkOfstream false (obad o1) [], fs1).

(** ** Replay of a log file: the body of [Store::init]

    The loop of [Store::init] is the same in both programs.  Its state is the
    input stream, the index and the local [currentOffset]. *)

Record replay := mkReplay {
  inp : ifstream;  (* std::ifstream in *)
  idx : HashMap;   (* the member cache *)
  curOff : Z       (* uint64_t currentOffset *)
}.

Inductive control := Continue | Break.

(** One iteration of [while (in) { ... }]. *)
Definition init_body (st : replay) : control * replay :=
  (* uint64_t startPos = in.tellg(); *)
  let '(p0, in1) := tellg (inp st) in
  let startPos := u64 p0 in
  (* std::string data; std::getline(in, data, DELIMITER); *)
  let '(in2, data) := getline in1 [] in
  (* if (data.empty() && in.eof()) break; *)
  if bool_decide (data = []) && eofbit in2 then
    (Break, mkReplay in2 (idx st) (curOff st))
  (* if (data.empty()) continue; *)
  else if bool_decide (data = []) then
    (Continue, mkReplay in2 (idx st) (curOff st))
  else
    match find_comma data with
    | None =>
        (* Skip corrupted record: currentOffset = in.tellg(); continue; *)
        let '(p, in3) := tellg in2 in
        (Continue, mkReplay in3 (idx st) (u64 p))
    | Some commaPos =>
        let keyStr := take commaPos data in
        match stoi keyStr with
        | None =>
            (* Skip bad key: currentOffset = in.tellg(); continue; *)
            let '(p, in3) := tellg in2 in
            (Continue, mkReplay in3 (idx st) (u64 p))
        | Some key =>
            (* uint64_t recordSize = in.tellg(); recordSize -= startPos; *)
            let '(p, in3) := tellg in2 in
            let recordSize := u64 (u64 p - startPos) in
            (* cache->add(key, recordSize); currentOffset += recordSize; *)
            (Continue,
             mkReplay in3 (HashMap_add key recordSize (idx st))
                      (u64 (curOff st + recordSize)))
        end
    end.

(** [while (in) body]: [in] converts to [!in.fail()].  [None] when the fuel
    runs out before the loop ends. *)
Fixpoint init_loop (fuel : nat) (st : replay) : option replay :=
  match fuel with
  | O => None
  | S n =>
      if failbit (inp st) then Some st
      else match init_body st with
           | (Break, st') => Some st'
           | (Continue, st') => init_loop n st'
           end
  end.

(** The whole loop on the content of a file.  Every iteration that
    continues has consumed a byte or set [failbit], so [length content + 2]
    iterations are enough ([replay_file_terminates] below). *)
Definition replay_file (content : bytes) (cache : HashMap) : option replay :=
  init_loop (length content + 2) (mkReplay (mkIfstream content 0 false false) cache 0).

(** What the operating system answers during one call: whether opening the
    log for appending succeeds, and whether writing to it succeeds. *)
Record io := mkIO {
  open_ok : bool;
  write_ok : bool
}.

Definition io_good : io := mkIO true true.

(** The C string a [const char*] into [s] denotes: the bytes before the
    first NUL. *)
Definition c_str (s : bytes) : bytes := (read_until_delim s).1.

(** ** Version 0, log rotation: [class Store], [class StorageEngine] *)

Module Multi.

Record Store := mkStore {
  store : ofstream;
  currDir : bytes;
  cache : HashMap;   (* std::unique_ptr<HashMap>, owned by this Store *)
  totalBytes : Z     (* size_t *)
}.

(** [void open() { store.open(currDir, std::ios::app); }] *)
Definition Store_open (e : io) (s : Store) (fs : filesystem) : Store * filesystem :=
  let '(o, fs') := ofstream_open (open_ok e) (currDir s) (store s) fs in
  (mkStore o (currDir s) (cache s) (totalBytes s), fs').

(** [void init()] *)
Definition Store_init (e : io) (s : Store) (fs : filesystem) : Store * filesystem :=
  (* if (store.is_open()) store.close(); *)
  let '(o1, fs1) :=
    if is_open (store s)
    then ofstream_close (write_ok e) (currDir s) (store s) fs
    else (store s, fs) in
  let s1 := mkStore o1 (currDir s) (cache s) (totalBytes s) in
  (* std::ifstream in(currDir, std::ios::binary); *)
  match ifstream_open fs1 (currDir s) with
  | None =>
      (* the file does not exist yet: open(); return; *)
      Store_open e s1 fs1
  | Some in0 =>
      match init_loop (length (ibuf in0) + 2) (mkReplay in0 (cache s) 0) with
      | Some r =>
          (* totalBytes = currentOffset; in.close(); open(); *)
          Store_open e (mkStore o1 (currDir s) (idx r) (curOff r)) fs1
      | None => (s1, fs1)  (* the fuel is enough: not reached *)
      end
  end.

(** [Store(const std::string& dir)] *)
Definition Store_new (e : io) (dir : bytes) (fs : filesystem) : Store * filesystem :=
  Store_init e (mkStore ofstream_closed dir HashMap_new 0) fs.

(** [bool set(int key, const std::string& data, size_t bytes)] *)
Definition Store_set (e : io) (key : Z) (data : bytes) (nbytes : Z)
    (s : Store) (fs : filesystem) : bool * Store * filesystem :=
  if negb (is_open (store s)) then (false, s, fs)
  else
    (* store << data; *)
    let o1 := ofstream_put data (store s) in
    (* totalBytes += bytes; *)
    let tb := u64 (totalBytes s + nbytes) in
    (* store.flush(); *)
    let '(o2, fs2) := ofstream_flush (write_ok e) (currDir s) o1 fs in
    (* cache->add(key, bytes); *)
    (true, mkStore o2 (currDir s) (HashMap_add key nbytes (cache s)) tb, fs2).

(** The states [Store::set] goes through on an open stream, one after each
    statement: after [store << data], after [totalBytes += bytes], after
    [store.flush()], after [cache->add(key, bytes)]. *)
Definition Store_set_steps (e : io) (key : Z) (data : bytes) (nbytes : Z)
    (s : Store) (fs : filesystem) : list (Store * filesystem) :=
  let s1 := mkStore (ofstream_put data (store s)) (currDir s) (cache s) (totalBytes s) in
  let s2 := mkStore (store s1) (currDir s) (cache s) (u64 (totalBytes s + nbytes)) in
  let '(o3, fs3) := ofstream_flush (write_ok e) (currDir s) (store s2) fs in
  let s3 := mkStore o3 (currDir s) (cache s) (totalBytes s2) in
  let s4 := mkStore o3 (currDir s) (HashMap_add key nbytes (cache s)) (totalBytes s2) in
  [(s1, fs); (s2, fs); (s3, fs3); (s4, fs3)].

(** [bool get(int key, std::string& out) const]: the result and the new
    content of [out]. *)
Definition Store_get (key : Z) (out : bytes) (s : Store) (fs : filesystem)
    : bool * bytes :=
  let metaData := HashMap_get key (cache s) in
  (* if (metaData.byteSize <= 0) return false; *)
  if decide (byteSize metaData <= 0) then (false, out)
  else
    match ifstream_open fs (currDir s) with
    | None => (false, out)
    | Some in0 =>
        (* in.seekg(metaData.byteOffset, std::ios::beg); std::getline(in, out, DELIMITER); *)
        let in1 := seekg (byteOffset metaData) in0 in
        (true, (getline in1 out).2)
    end.

Definition getTotalBytes (s : Store) : Z := totalBytes s.

Record StorageEngine := mkStorageEngine {
  activeStores : list Store;    (* std::list<std::unique_ptr<Store>>, current store first *)
  archivedStores : list Store;  (* std::vector<std::unique_ptr<Store>> *)
  prefixFileName : bytes;
  readBuffer : bytes;
  totalFiles : Z;               (* size_t *)
  totalMerged : Z               (* size_t *)
}.

(** The name of the log file with sequence number [n]. *)
Definition store_path (prefix : bytes) (n : Z) : bytes :=
  prefix ++ str "_" ++ to_string n ++ str ".txt".

(** [void createStore()] *)
Definition createStore (e : io) (g : StorageEngine) (fs : filesystem)
    : StorageEngine * filesystem :=
  (* totalFiles += 1; *)
  let n := u64 (totalFiles g + 1) in
  let dir := store_path (prefixFileName g) n in
  let '(s, fs') := Store_new e dir fs in
  (* activeStores.push_front(std::move(store)); *)
  (mkStorageEngine (s :: activeStores g) (archivedStores g) (prefixFileName g)
                   (readBuffer g) n (totalMerged g),
   fs').

Definition onCapacityExceeded := createStore.

(** [void init()] *)
Definition StorageEngine_init (e : io) (g : StorageEngine) (fs : filesystem)
    : StorageEngine * filesystem :=
  createStore e
    (mkStorageEngine [] [] (prefixFileName g) (readBuffer g) (totalFiles g)
                     (totalMerged g))
    fs.

(** [StorageEngine(const std::string& prefixFileName)] *)
Definition StorageEngine_new (e : io) (prefix : bytes) (fs : filesystem)
    : StorageEngine * filesystem :=
  StorageEngine_init e (mkStorageEngine [] [] prefix [] 0 0) fs.

Definition with_activeStores (l : list Store) (g : StorageEngine) : StorageEngine :=
  mkStorageEngine l (archivedStores g) (prefixFileName g) (readBuffer g)
                  (totalFiles g) (totalMerged g).

(** [bool set(int key, const std::string& value)].

    [currStore] is a reference to the [Store] object at the front of the list
    when the reference is bound.  [createStore] pushes the new store in front
    of it and leaves the object where it is, so after a rotation the
    reference denotes the second element of the list. *)
Definition StorageEngine_set (e : io) (key : Z) (value : bytes)
    (g : StorageEngine) (fs : filesystem) : bool * StorageEngine * filesystem :=
  (* std::string data = std::to_string(key) + "," + value + DELIMITER; *)
  let data := to_string key ++ str "," ++ value ++ [DELIMITER] in
  let nbytes := size data in
  (* Store& currStore = *activeStores.front(); *)
  match activeStores g with
  | [] => (false, g, fs)  (* front() of an empty list: the constructor rules it out *)
  | currStore :: _ =>
      (* if (currStore.getTotalBytes() + bytes > MAX_FILE_BYTE_SIZE) onCapacityExceeded(); *)
      let rotate := bool_decide (u64 (getTotalBytes currStore + nbytes) > MAX_FILE_BYTE_SIZE) in
      let '(g1, fs1) := if rotate then onCapacityExceeded e g fs else (g, fs) in
      (* return currStore.set(key, data, bytes); *)
      let '(r, s', fs2) := Store_set e key data nbytes currStore fs1 in
      let i := if rotate then 1%nat else 0%nat in
      (r, with_activeStores (<[i := s']> (activeStores g1)) g1, fs2)
  end.

(** The loop of [StorageEngine::get] over the stores, newest first: the
    result ([None] for [nullptr]) and the final [readBuffer]. *)
Fixpoint get_loop (key : Z) (stores : list Store) (buf : bytes) (fs : filesystem)
    : option bytes * bytes :=
  match stores with
  | [] => (None, buf)
  | s :: rest =>
      let '(found, buf') := Store_get key buf s fs in
      if found then (Some (c_str buf'), buf')
      else get_loop key rest buf' fs
  end.

(** [const char* get(int key)] *)
Definition StorageEngine_get (key : Z) (g : StorageEngine) (fs : filesystem)
    : option bytes * StorageEngine :=
  (* readBuffer.clear(); *)
  let '(r, buf) := get_loop key (activeStores g) [] fs in
  (r, mkStorageEngine (activeStores g) (archivedStores g) (prefixFileName g) buf
                      (totalFiles g) (totalMerged g)).

End Multi.

(** ** Version 0, single log file: [class Store] *)

Module Single.

(** [cache] is a reference to the process-wide [HashMap::getInstance()].
    The program constructs one [Store], so the index is kept with it.  The
    member [files] is never initialised nor used and is left out. *)
Record Store := mkStore {
  store : ofstream;
  currDir : bytes;
  cache : HashMap
}.

(** [void open() { store.open(currDir, std::ios::app); }] *)
Definition Store_open (e : io) (s : Store) (fs : filesystem) : Store * filesystem :=
  let '(o, fs') := ofstream_open (open_ok e) (currDir s) (store s) fs in
  (mkStore o (currDir s) (cache s), fs').

(** [void init()] *)
Definition Store_init (e : io) (s : Store) (fs : filesystem) : Store * filesystem :=
  (* if (store.is_open()) store.close(); *)
  let '(o1, fs1) :=
    if is_open (store s)
    then ofstream_close (write_ok e) (currDir s) (store s) fs
    else (store s, fs) in
  let s1 := mkStore o1 (currDir s) (cache s) in
  (* std::ifstream in(currDir, std::ios::binary); *)
  match ifstream_open fs1 (currDir s) with
  | None =>
      (* the file does not exist yet: open(); return; *)
      Store_open e s1 fs1
  | Some in0 =>
      match init_loop (length (ibuf in0) + 2) (mkReplay in0 (cache s) 0) with
      | Some r =>
          (* in.close(); open(); *)
          Store_open e (mkStore o1 (currDir s) (idx r)) fs1
      | None => (s1, fs1)  (* the fuel is enough: not reached *)
      end
  end.

(** [Store(const std::string& dir)], on the index [h] that
    [HashMap::getInstance()] returns. *)
Definition Store_new (e : io) (dir : bytes) (h : HashMap) (fs : filesystem)
    : Store * filesystem :=
  Store_init e (mkStore ofstream_closed dir h) fs.

(** [bool set(int key, const std::string& value)] *)
Definition Store_set (e : io) (key : Z) (value : bytes)
    (s : Store) (fs : filesystem) : bool * Store * filesystem :=
  if negb (is_open (store s)) then (false, s, fs)
  else
    (* std::string data = std::to_string(key) + "," + value + DELIMITER; *)
    let data := to_string key ++ str "," ++ value ++ [DELIMITER] in
    (* store << data; store.flush(); *)
    let o1 := ofstream_put data (store s) in
    let '(o2, fs2) := ofstream_flush (write_ok e) (currDir s) o1 fs in
    (* cache.add(key, data.size()); *)
    (true, mkStore o2 (currDir s) (HashMap_add key (size data) (cache s)), fs2).

(** The states [Store::set] goes through on an open stream: after
    [store << data], after [store.flush()], after [cache.add]. *)
Definition Store_set_steps (e : io) (key : Z) (value : bytes)
    (s : Store) (fs : filesystem) : list (Store * filesystem) :=
  let data := to_string key ++ str "," ++ value ++ [DELIMITER] in
  let s1 := mkStore (ofstream_put data (store s)) (currDir s) (cache s) in
  let '(o2, fs2) := ofstream_flush (write_ok e) (currDir s) (store s1) fs in
  let s2 := mkStore o2 (currDir s) (cache s) in
  let s3 := mkStore o2 (currDir s) (HashMap_add key (size data) (cache s)) in
  [(s1, fs); (s2, fs2); (s3, fs2)].

(** [bool get(int key, std::string& out) const] *)
Definition Store_get (key : Z) (out : bytes) (s : Store) (fs : filesystem)
    : bool * bytes :=
  let metaData := HashMap_get key (cache s) in
  (* if (metaData.byteSize <= 0) return false; *)
  if decide (byteSize metaData <= 0) then (false, out)
  else
    match ifstream_open fs (currDir s) with
    | None => (false, out)
    | Some in0 =>
        (* in.seekg(metaData.byteOffset, std::ios::beg); std::getline(in, out, DELIMITER); *)
        let in1 := seekg (byteOffset metaData) in0 in
        (true, (getline in1 out).2)
    end.

End Single.

(** * Vocabulary of the properties *)

(** ** Records and frames *)

(** What [Store::init] accepts as a record: a comma, and a key before it
    that [std::stoi] parses. *)
Definition decode_key (data : bytes) : option Z :=
  match find_comma data with
  | None => None
  | Some commaPos => stoi (take commaPos data)
  end.

(** The frame that [StorageEngine::set] and the [Store::set] of the first
    program build, without its delimiter. *)
Definition frame (key : Z) (value : bytes) : bytes :=
  to_string key ++ str "," ++ value.

(** The content of a file in which each of [recs] is followed by the
    delimiter. *)
Definition frames (recs : list bytes) : bytes :=
  concat ((fun r => r ++ [DELIMITER]) <$> recs).

(** The pieces of a file between delimiters, the piece after the last
    delimiter included.  [cur] is the piece being read. *)
Fixpoint split_records (cur : bytes) (s : bytes) : list bytes :=
  match s with
  | [] => [cur]
  | c :: s' =>
      if decide (c = DELIMITER) then cur :: split_records [] s'
      else split_records (cur ++ [c]) s'
  end.

Definition records (s : bytes) : list bytes := split_records [] s.

(** No record of the file has the key [k]. *)
Definition no_record_of (k : Z) (content : bytes) : Prop :=
  Forall (fun d => decode_key d ≠ Some k) (records content).

Global Instance no_record_of_dec (k : Z) (content : bytes) :
  Decision (no_record_of k content).
Proof. unfold no_record_of. apply _. Defined.

(** The bytes the index counts for a sequence of records: those of the
    records that [Store::init] accepts. *)
Definition indexed_bytes (recs : list bytes) : Z :=
  foldr (fun r acc =>
           match decode_key r with Some _ => size r + 1 | None => 0 end + acc)
        0 recs.

(** ** The replay loop *)

(** [n] iterations of the loop of [Store::init], none of which ends it. *)
Fixpoint init_steps (n : nat) (st : replay) : option replay :=
  match n with
  | O => Some st
  | S n' =>
      if failbit (inp st) then None
      else match init_body st with
           | (Continue, st') => init_steps n' st'
           | (Break, _) => None
           end
  end.

(** The number of iterations the loop can still run: none once [failbit] is
    set, otherwise at most one per unread byte, and one more. *)
Definition replay_measure (st : replay) : nat :=
  if failbit (inp st) then O
  else S (length (ibuf (inp st)) - gpos (inp st)).

(** ** Indexes and files *)

(** Every entry of the index designates a byte range that is in the file. *)
Definition flushed (h : HashMap) (file : bytes) : Prop :=
  ∀ k m, entries h !! k = Some m → byteOffset m + byteSize m <= size file.

(** The index has published only bytes that are in the file: every entry
    designates such bytes, and the cursor, where the next entry will start,
    is not beyond the end of the file. *)
Definition published (h : HashMap) (file : bytes) : Prop :=
  flushed h file ∧ 0 <= currByteOffset h <= size file.

(** Every entry of the index has a positive size. *)
Definition positive (h : HashMap) : Prop :=
  ∀ k m, entries h !! k = Some m → 0 < byteSize m.

(** The stream can take an append and the index cursor is the length of the
    file: the next entry will designate the bytes that are written. *)
Definition appendable (o : ofstream) (h : HashMap) (dir : bytes)
    (fs : filesystem) : Prop :=
  is_open o = true ∧ obad o = false ∧ pending o = [] ∧
  currByteOffset h = size (file_content fs dir).

(** The entry of [key] in the index designates a place of the file where the
    frame [fr] stands, followed by the delimiter. *)
Definition holds (h : HashMap) (dir : bytes) (fs : filesystem) (key : Z)
    (fr : bytes) : Prop :=
  ∃ m pre post,
    entries h !! key = Some m ∧ 0 < byteSize m ∧
    byteOffset m = size pre ∧ size pre < 2 ^ 63 ∧
    fs !! dir = Some (pre ++ fr ++ DELIMITER :: post).

(** Files are only created and appended to. *)
Definition fs_grows (fs fs' : filesystem) : Prop :=
  ∀ path c, fs !! path = Some c → ∃ more, fs' !! path = Some (c ++ more).

(** ** The engine *)

(** Every store of the engine has the name of a sequence number that has
    been given out. *)
Definition named (g : Multi.StorageEngine) : Prop :=
  ∀ s, s ∈ Multi.activeStores g →
    ∃ j, j <= Multi.totalFiles g ∧
         Multi.currDir s = Multi.store_path (Multi.prefixFileName g) j.

(** The files of the sequence numbers that have not been given out yet, when
    they exist, have a content that satisfies [Q]. *)
Definition future (Q : bytes → Prop) (g : Multi.StorageEngine) (fs : filesystem)
    : Prop :=
  ∀ j c, Multi.totalFiles g < j →
    fs !! Multi.store_path (Multi.prefixFileName g) j = Some c → Q c.

(** No index of the stores has the key [k]. *)
Definition nokey (k : Z) (l : list Multi.Store) : Prop :=
  Forall (fun s => entries (Multi.cache s) !! k = None) l.

(** ** Sequences of calls *)

(** A sequence of calls of [StorageEngine::set], each with the answers of
    the operating system during the call; the results are dropped. *)
Definition run_sets (ops : list (io * Z * bytes))
    (st : Multi.StorageEngine * filesystem) : Multi.StorageEngine * filesystem :=
  fold_left
    (fun st op =>
       let '(_, g', fs') := Multi.StorageEngine_set op.1.1 op.1.2 op.2 st.1 st.2 in
       (g', fs'))
    ops st.

(** A sequence of calls of [Store::set] of the first program. *)
Definition run_single_sets (ops : list (io * Z * bytes))
    (st : Single.Store * filesystem) : Single.Store * filesystem :=
  fold_left
    (fun st op =>
       let '(_, s', fs') := Single.Store_set op.1.1 op.1.2 op.2 st.1 st.2 in
       (s', fs'))
    ops st.

(** A call that the operating system lets succeed. *)
Definition put (key : Z) (value : string) : io * Z * bytes :=
  (io_good, key, str value).

(** The store of the first program seen as a store of the second one, and
    back: the second has the member [totalBytes] in addition. *)
Definition lift (s : Single.Store) : Multi.Store :=
  Multi.mkStore (Single.store s) (Single.currDir s) (Single.cache s) 0.

Definition lower (s : Multi.Store) : Single.Store :=
  Single.mkStore (Multi.store s) (Multi.currDir s) (Multi.cache s).

(** ** Concrete runs *)

(** The device refuses the write. *)
Definition io_write_fails : io := mkIO true false.

(** The operating system refuses to open the log. *)
Definition io_open_fails : io := mkIO false true.

(** A store whose log could not be opened. *)
Definition closed_log : Multi.Store * filesystem :=
  Multi.Store_new io_open_fails (str "log") ∅.

(** A store of the second program, opened in an empty directory. *)
Definition fresh_log : Multi.Store * filesystem :=
  Multi.Store_new io_good (str "log") ∅.

(** The store of the first program, opened in an empty directory. *)
Definition fresh_single_log : Single.Store * filesystem :=
  Single.Store_new io_good (str "store.txt") HashMap_new ∅.

(** The calls of [main] of the first program:
    [set(11, "11"); set(12, "12-1"); set(12, "12-2")]. *)
Definition single_main : Single.Store * filesystem :=
  run_single_sets [put 11 "11"; put 12 "12-1"; put 12 "12-2"] fresh_single_log.

(** A new engine in an empty directory. *)
Definition new_engine : Multi.StorageEngine * filesystem :=
  Multi.StorageEngine_new io_good (str "store") ∅.

(** A first run of the engine: [set(11, "11"); set(12, "12-1")] ... *)
Definition two_puts : Multi.StorageEngine * filesystem :=
  run_sets [put 11 "11"; put 12 "12-1"] new_engine.

(** ... followed by [set(12, "12-2")], which exceeds the 20 bytes. *)
Definition three_puts : Multi.StorageEngine * filesystem :=
  run_sets [put 12 "12-2"] two_puts.

(** A second run of the engine, on the files the first one left. *)
Definition second_run : Multi.StorageEngine * filesystem :=
  Multi.StorageEngine_new io_good (str "store") three_puts.2.

(** A log whose first record has no comma. *)
Definition log_with_bad_record : bytes :=
  str "bad" ++ [DELIMITER] ++ str "12,1" ++ [DELIMITER].

(** A directory in which such a log was left. *)
Definition disk_with_log : filesystem :=
  {[ str "store_1.txt" := log_with_bad_record ]}.

(** A value that contains the delimiter. *)
Definition value_with_delimiter : bytes :=
  str "x" ++ [DELIMITER] ++ str "9,y".

(** A decidable fact about a concrete input is settled by evaluation. *)
Ltac by_compute := apply (bool_decide_unpack _); by vm_compute.

(** * Further vocabulary *)

(** The digits of a decimal number, most significant first. *)
Fixpoint uint_digits (d : Decimal.uint) : list nat :=
  match d with
  | Decimal.Nil => []
  | Decimal.D0 d => 0%nat :: uint_digits d
  | Decimal.D1 d => 1%nat :: uint_digits d
  | Decimal.D2 d => 2%nat :: uint_digits d
  | Decimal.D3 d => 3%nat :: uint_digits d
  | Decimal.D4 d => 4%nat :: uint_digits d
  | Decimal.D5 d => 5%nat :: uint_digits d
  | Decimal.D6 d => 6%nat :: uint_digits d
  | Decimal.D7 d => 7%nat :: uint_digits d
  | Decimal.D8 d => 8%nat :: uint_digits d
  | Decimal.D9 d => 9%nat :: uint_digits d
  end.

(** ** What replay does, record by record *)

(** The index after [Store::init] has read the complete record [r]: an
    entry of the length of the record and its delimiter when the record is
    accepted, nothing otherwise. *)
Definition index_record (h : HashMap) (r : bytes) : HashMap :=
  match decode_key r with
  | Some key => HashMap_add key (size r + 1) h
  | None => h
  end.

Definition index_records (recs : list bytes) (h : HashMap) : HashMap :=
  fold_left index_record recs h.

(** The position in the file and the local [currentOffset] after the
    complete record [r]: an empty record leaves [currentOffset] as it is, a
    record that is skipped sets it to the position, an accepted record adds
    its size. *)
Definition offset_record (po : Z * Z) (r : bytes) : Z * Z :=
  let p' := po.1 + (size r + 1) in
  (p',
   if bool_decide (r = []) then po.2
   else match decode_key r with
        | Some _ => u64 (po.2 + (size r + 1))
        | None => u64 p'
        end).

Definition offsets_after (recs : list bytes) (p off : Z) : Z * Z :=
  fold_left offset_record recs (p, off).

(** The index and [currentOffset] after the last piece of the file, which
    no delimiter ends and which starts at position [p]: nothing changes for
    an empty piece; a piece that is not accepted sets [currentOffset] to
    [uint64_t(-1)]; a piece that is accepted is indexed with the size
    [uint64_t(-1) - p]. *)
Definition index_tail (tail : bytes) (p : Z) (h : HashMap) : HashMap :=
  if bool_decide (tail = []) then h
  else match decode_key tail with
       | Some key => HashMap_add key (u64 (u64 (-1) - u64 p)) h
       | None => h
       end.

Definition offset_tail (tail : bytes) (p off : Z) : Z :=
  if bool_decide (tail = []) then off
  else match decode_key tail with
       | Some _ => u64 (off + u64 (u64 (-1) - u64 p))
       | None => u64 (-1)
       end.

(** The complete records of a file and its last piece, after the last
    delimiter. *)
Definition complete_records (content : bytes) : list bytes :=
  removelast (records content).

Definition last_piece (content : bytes) : bytes :=
  List.last (records content) [].

(** ** Sequences of [HashMap::add] *)

Definition HashMap_adds (l : list (Z * Z)) (h : HashMap) : HashMap :=
  fold_left (fun h kn => HashMap_add kn.1 kn.2 h) l h.

Definition sum_sizes (l : list (Z * Z)) : Z := foldr (fun kn acc => kn.2 + acc) 0 l.

(** ** The engine during a run *)

(** The sequence numbers [n], ..., [1]. *)
Fixpoint seq_down (n : nat) : list Z :=
  match n with
  | O => []
  | S m => Z.of_nat (S m) :: seq_down m
  end.

(** The engine has given out the sequence numbers [1] to [n]: its stores are
    those of these numbers, the newest first; nothing has been archived nor
    merged. *)
Definition engine_shape (prefix : bytes) (n : nat) (g : Multi.StorageEngine) : Prop :=
  Multi.totalFiles g = Z.of_nat n ∧
  Multi.currDir <$> Multi.activeStores g = Multi.store_path prefix <$> seq_down n ∧
  Multi.archivedStores g = [] ∧
  Multi.totalMerged g = 0 ∧
  Multi.prefixFileName g = prefix.

(** Every stream of the stores is closed. *)
Definition all_closed (l : list Multi.Store) : Prop :=
  Forall (fun s => is_open (Multi.store s) = false) l.

(** ** Sequences of calls of the first program *)

(** The frames that a sequence of calls of [set] writes. *)
Definition frames_of (ops : list (io * Z * bytes)) : list bytes :=
  (fun op => frame op.1.2 op.2) <$> ops.

(** A call with a key of the range of [int] and a value without delimiter
    byte, whose write the device lets through. *)
Definition plain_put (op : io * Z * bytes) : Prop :=
  write_ok op.1.1 = true ∧ INT_MIN <= op.1.2 <= INT_MAX ∧ DELIMITER ∉ op.2.

(** ** [main] of the first program

    [env n] is what the operating system answers during the constructor
    ([n = 0]) and the three calls of [set].  The result is the two lines
    written to [std::cout] and the files left.  [output] is one string,
    passed to both calls of [get]. *)
Definition Single_main (env : nat → io) (fs : filesystem) : list bytes * filesystem :=
  (* Store store("store.txt"); *)
  let '(store0, fs0) := Single.Store_new (env 0%nat) (str "store.txt") HashMap_new fs in
  (* store.set(11, "11"); store.set(12, "12-1"); store.set(12, "12-2"); *)
  let '(_, store1, fs1) := Single.Store_set (env 1%nat) 11 (str "11") store0 fs0 in
  let '(_, store2, fs2) := Single.Store_set (env 2%nat) 12 (str "12-1") store1 fs1 in
  let '(_, store3, fs3) := Single.Store_set (env 3%nat) 12 (str "12-2") store2 fs2 in
  (* std::string output; *)
  let output := [] in
  (* if (store.get(11, output)) cout << output; else cout << "not found"; *)
  let '(found1, output1) := Single.Store_get 11 output store3 fs3 in
  let line1 := if found1 then output1 else str "not found" in
  (* if (store.get(12, output)) cout << output; else cout << "not found"; *)
  let '(found2, output2) := Single.Store_get 12 output1 store3 fs3 in
  let line2 := if found2 then output2 else str "not found" in
  ([line1; line2], fs3).

(** The calls of [set] that [main] makes. *)
Definition main_sets (env : nat → io) : list (io * Z * bytes) :=
  [(env 1%nat, 11, str "11"); (env 2%nat, 12, str "12-1"); (env 3%nat, 12, str "12-2")].

(** * Properties *)

(** ** Bytes and framing *)

Lemma read_until_delim_cons (c : ascii) (s : bytes) :
  read_until_delim (c :: s) =
  if decide (c = DELIMITER) then ([], Some s)
  else let '(d, r) := read_until_delim s in (c :: d, r).
Proof. reflexivity. Qed.

Lemma read_until_delim_spec (s d : bytes) (o : option bytes) :
  read_until_delim s = (d, o) →
  (DELIMITER ∉ d) ∧ s = d ++ (match o with Some r => DELIMITER :: r | None => [] end).
Proof.
  revert d o. induction s as [|c s IH]; intros d o.
  - intros [= <- <-]. split; [apply not_elem_of_nil | done].
  - rewrite read_until_delim_cons. case_decide as Hc.
    + subst c. intros [= <- <-]. split; [apply not_elem_of_nil | done].
    + destruct (read_until_delim s) as [d' r'] eqn:E.
      intros [= <- <-]. destruct (IH d' r' eq_refl) as [Hd Hs].
      split; [| by rewrite Hs].
      rewrite not_elem_of_cons. split; [congruence | done].
Qed.

Lemma read_until_delim_frame (d r : bytes) :
  DELIMITER ∉ d → read_until_delim (d ++ DELIMITER :: r) = (d, Some r).
Proof.
  induction d as [|c d IH]; intros Hd.
  - rewrite app_nil_l, read_until_delim_cons. by rewrite decide_True.
  - apply not_elem_of_cons in Hd as [Hc Hd].
    rewrite <- app_comm_cons, read_until_delim_cons.
    rewrite decide_False by congruence. by rewrite IH.
Qed.

Lemma read_until_delim_tail (d : bytes) :
  DELIMITER ∉ d → read_until_delim d = (d, None).
Proof.
  induction d as [|c d IH]; intros Hd; [done|].
  apply not_elem_of_cons in Hd as [Hc Hd].
  rewrite read_until_delim_cons.
  rewrite decide_False by congruence. by rewrite IH.
Qed.

Lemma c_str_id (s : bytes) : DELIMITER ∉ s → c_str s = s.
Proof. intros H. unfold c_str. by rewrite read_until_delim_tail. Qed.

Lemma string_of_uint_digits (d : Decimal.uint) :
  DELIMITER ∉ list_ascii_of_string (NilEmpty.string_of_uint d).
Proof.
  induction d; simpl; rewrite ?not_elem_of_cons;
    first [apply not_elem_of_nil | split; [discriminate | done]].
Qed.

Lemma to_string_no_delim (z : Z) : DELIMITER ∉ to_string z.
Proof.
  unfold to_string.
  assert (Hu : ∀ d, DELIMITER ∉ list_ascii_of_string (NilZero.string_of_uint d)).
  { intros d. pose proof (string_of_uint_digits d) as H.
    destruct d; try exact H. simpl.
    rewrite not_elem_of_cons. split; [discriminate | apply not_elem_of_nil]. }
  destruct (Z.to_int z) as [d|d]; simpl; [apply Hu|].
  rewrite not_elem_of_cons. split; [discriminate | apply Hu].
Qed.

Lemma to_int_not_nil (z : Z) :
  Z.to_int z ≠ Decimal.Pos Decimal.Nil ∧ Z.to_int z ≠ Decimal.Neg Decimal.Nil.
Proof.
  destruct z as [|p|p]; simpl; split; try discriminate;
    intros [= H]; by apply DecimalPos.Unsigned.to_uint_nonnil in H.
Qed.

Lemma to_string_inj (n m : Z) : to_string n = to_string m → n = m.
Proof.
  unfold to_string. intros H.
  apply (f_equal string_of_list_ascii) in H.
  rewrite !string_of_list_ascii_of_string in H.
  apply (f_equal NilZero.int_of_string) in H.
  destruct (to_int_not_nil n), (to_int_not_nil m).
  rewrite !NilZero.isi in H by done.
  injection H as H. by apply DecimalZ.to_int_inj.
Qed.

Lemma to_string_nonempty (z : Z) : to_string z ≠ [].
Proof.
  unfold to_string. destruct (to_int_not_nil z) as [H1 H2].
  destruct (Z.to_int z) as [d|d]; simpl; [|discriminate].
  destruct d; simpl; try discriminate; done.
Qed.

(** ** The input stream *)

Lemma getline_frame (s : ifstream) (str0 d r : bytes) :
  good s = true →
  drop (gpos s) (ibuf s) = d ++ DELIMITER :: r →
  DELIMITER ∉ d →
  getline s str0 = (mkIfstream (ibuf s) (gpos s + length d + 1) false false, d).
Proof.
  intros Hg Hdrop Hd. unfold getline.
  by rewrite Hg, Hdrop, read_until_delim_frame.
Qed.

Lemma getline_tail (s : ifstream) (str0 d : bytes) :
  good s = true →
  drop (gpos s) (ibuf s) = d →
  DELIMITER ∉ d →
  getline s str0 =
    (mkIfstream (ibuf s) (gpos s + length d) true (bool_decide (d = [])), d).
Proof.
  intros Hg Hdrop Hd. unfold getline.
  by rewrite Hg, Hdrop, read_until_delim_tail.
Qed.

Lemma getline_not_good (s : ifstream) (str0 : bytes) :
  good s = false → getline s str0 = (setfail s, str0).
Proof. intros Hg. unfold getline. by rewrite Hg. Qed.

Lemma tellg_good (s : ifstream) :
  good s = true → tellg s = (Z.of_nat (gpos s), s).
Proof. intros Hg. unfold tellg. by rewrite Hg. Qed.

(** What [getline] does to a stream, whatever the stream: the buffer is
    kept, the position does not go back nor beyond the end of the buffer
    (unless it already was), and the stream is [good()] afterwards only if a
    delimiter was consumed. *)
Lemma getline_progress (s s' : ifstream) (str0 data : bytes) :
  getline s str0 = (s', data) →
  ibuf s' = ibuf s ∧
  (good s' = true →
     good s = true ∧ (gpos s < gpos s')%nat ∧ (gpos s' ≤ length (ibuf s))%nat) ∧
  (good s' = false → data ≠ [] → failbit s' = false →
     good s = true ∧ eofbit s' = true).
Proof.
  unfold getline. destruct (good s) eqn:Hg.
  - destruct (read_until_delim (drop (gpos s) (ibuf s))) as [d [r|]] eqn:E;
      intros [= <- <-]; simpl; (split; [done|]).
    + apply read_until_delim_spec in E as [_ E].
      apply (f_equal length) in E. rewrite length_drop, length_app in E.
      simpl in E. split; [intros _; split; [done | lia] | done].
    + split; [done | by intros _ _ _].
  - intros [= <- <-]. simpl. split; [done|]. unfold good. simpl.
    rewrite andb_false_r. split; [done|]. by intros _ _ [=].
Qed.

(** ** Termination of the replay loop *)

Lemma tellg_spec (s s' : ifstream) (p : Z) :
  tellg s = (p, s') →
  ibuf s' = ibuf s ∧ gpos s' = gpos s ∧ eofbit s' = eofbit s ∧
  (good s = true → s' = s ∧ p = Z.of_nat (gpos s)) ∧
  (good s = false → failbit s' = true ∧ p = -1).
Proof.
  unfold tellg. destruct (good s) eqn:Hg; intros [= <- <-]; simpl;
    repeat split; try done.
Qed.

Lemma init_body_buf (st st' : replay) (c : control) :
  init_body st = (c, st') → ibuf (inp st') = ibuf (inp st).
Proof.
  unfold init_body.
  destruct (tellg (inp st)) as [p0 in1] eqn:T1.
  destruct (getline in1 []) as [in2 data] eqn:G.
  destruct (tellg in2) as [p in3] eqn:T2.
  apply tellg_spec in T1 as (B1 & _). apply tellg_spec in T2 as (B2 & _).
  apply getline_progress in G as (BG & _).
  destruct (bool_decide (data = []) && eofbit in2);
    [| destruct (bool_decide (data = []));
       [| destruct (find_comma data) as [commaPos|];
          [destruct (stoi (take commaPos data)) as [key|] |]]];
    intros [= <- <-]; simpl; congruence.
Qed.

Lemma init_body_decreases (st st' : replay) :
  failbit (inp st) = false →
  init_body st = (Continue, st') →
  (replay_measure st' < replay_measure st)%nat.
Proof.
  intros Hf. unfold init_body, replay_measure. rewrite Hf.
  destruct (tellg (inp st)) as [p0 in1] eqn:T1.
  destruct (getline in1 []) as [in2 data] eqn:G.
  destruct (tellg in2) as [p in3] eqn:T2.
  apply tellg_spec in T1 as (B1 & P1 & E1 & G1 & N1).
  apply tellg_spec in T2 as (B2 & P2 & E2 & G2 & N2).
  apply getline_progress in G as (BG & GG & GE).
  assert (Hstep : data ≠ [] ∨ eofbit in2 = false →
     ((if failbit in3 then 0 else S (length (ibuf in3) - gpos in3))
       < S (length (ibuf (inp st)) - gpos (inp st)))%nat).
  { intros Hd. destruct (good in2) eqn:Hg2.
    - destruct (G2 eq_refl) as [-> _]. destruct (GG eq_refl) as (Hg1 & Hlt & Hle).
      destruct (good (inp st)) eqn:Hg0.
      + destruct (G1 eq_refl) as [-> _].
        destruct (failbit in2); [lia|]. rewrite BG. lia.
      + destruct (N1 eq_refl) as [Hf1 _]. unfold good in Hg1.
        rewrite Hf1, andb_false_r in Hg1. done.
    - destruct (N2 eq_refl) as [-> _]. lia. }
  destruct (bool_decide (data = [])) eqn:Hd; simpl.
  - destruct (eofbit in2) eqn:He; simpl; intros [= <-]; simpl.
    apply bool_decide_eq_true in Hd. subst data.
    destruct (good in2) eqn:Hg2.
    + destruct (GG eq_refl) as (Hg1 & Hlt & Hle).
      destruct (good (inp st)) eqn:Hg0.
      * destruct (G1 eq_refl) as [-> _].
        destruct (failbit in2); [lia|]. rewrite BG. lia.
      * destruct (N1 eq_refl) as [Hf1 _]. unfold good in Hg1.
        rewrite Hf1, andb_false_r in Hg1. done.
    + unfold good in Hg2. rewrite He in Hg2. simpl in Hg2.
      apply negb_false_iff in Hg2. rewrite Hg2. lia.
  - apply bool_decide_eq_false in Hd.
    destruct (find_comma data) as [commaPos|];
      [destruct (stoi (take commaPos data)) as [key|] |];
      intros [= <-]; simpl; apply Hstep; by left.
Qed.

Lemma init_loop_terminates (n : nat) (st : replay) :
  (replay_measure st < n)%nat → is_Some (init_loop n st).
Proof.
  revert st. induction n as [|n IH]; intros st Hm; [lia|].
  simpl. destruct (failbit (inp st)) eqn:Hf; [by eexists|].
  destruct (init_body st) as [[] st'] eqn:Hb; [|by eexists].
  apply IH. pose proof (init_body_decreases st st' Hf Hb). lia.
Qed.

Lemma init_loop_fuel (n m : nat) (st r : replay) :
  init_loop n st = Some r → (n ≤ m)%nat → init_loop m st = Some r.
Proof.
  revert m st. induction n as [|n IH]; intros m st; [done|].
  intros H Hle. destruct m as [|m]; [lia|]. simpl in *.
  destruct (failbit (inp st)); [done|].
  destruct (init_body st) as [[] st']; [|done].
  apply IH; [done | lia].
Qed.

(** The loop of [Store::init] ends on every file. *)
Lemma replay_file_terminates (content : bytes) (cache : HashMap) :
  is_Some (replay_file content cache).
Proof.
  apply init_loop_terminates. unfold replay_measure. simpl. lia.
Qed.

(** A run of the loop with any fuel gives the result of [replay_file]. *)
Lemma replay_file_run (n : nat) (content : bytes) (cache : HashMap) (r : replay) :
  init_loop n (mkReplay (mkIfstream content 0 false false) cache 0) = Some r →
  replay_file content cache = Some r.
Proof.
  intros H. destruct (replay_file_terminates content cache) as [r' Hr'].
  rewrite Hr'. unfold replay_file in Hr'.
  destruct (decide (n ≤ length content + 2)%nat).
  - by rewrite (init_loop_fuel _ _ _ _ H) in Hr'.
  - rewrite (init_loop_fuel _ n _ _ Hr') in H by lia. done.
Qed.

(** ** [Store::set]: result and order of effects *)

Lemma Multi_Store_set_closed (e : io) (key : Z) (data : bytes) (n : Z)
    (s : Multi.Store) (fs : filesystem) :
  is_open (Multi.store s) = false → Multi.Store_set e key data n s fs = (false, s, fs).
Proof. intros H. unfold Multi.Store_set. by rewrite H. Qed.

Lemma Multi_Store_set_open (e : io) (key : Z) (data : bytes) (n : Z)
    (s : Multi.Store) (fs : filesystem) :
  is_open (Multi.store s) = true →
  Multi.Store_set e key data n s fs =
    (true,
     Multi.mkStore
       (ofstream_flush (write_ok e) (Multi.currDir s)
          (ofstream_put data (Multi.store s)) fs).1
       (Multi.currDir s) (HashMap_add key n (Multi.cache s))
       (u64 (Multi.totalBytes s + n)),
     (ofstream_flush (write_ok e) (Multi.currDir s)
        (ofstream_put data (Multi.store s)) fs).2).
Proof.
  intros H. unfold Multi.Store_set. rewrite H. simpl.
  by destruct (ofstream_flush _ _ _ _).
Qed.

Lemma Single_Store_set_closed (e : io) (key : Z) (value : bytes)
    (s : Single.Store) (fs : filesystem) :
  is_open (Single.store s) = false → Single.Store_set e key value s fs = (false, s, fs).
Proof. intros H. unfold Single.Store_set. by rewrite H. Qed.

Lemma Single_Store_set_open (e : io) (key : Z) (value : bytes)
    (s : Single.Store) (fs : filesystem) :
  is_open (Single.store s) = true →
  Single.Store_set e key value s fs =
    (true,
     Single.mkStore
       (ofstream_flush (write_ok e) (Single.currDir s)
          (ofstream_put (frame key value ++ [DELIMITER]) (Single.store s)) fs).1
       (Single.currDir s)
       (HashMap_add key (size (frame key value ++ [DELIMITER])) (Single.cache s)),
     (ofstream_flush (write_ok e) (Single.currDir s)
        (ofstream_put (frame key value ++ [DELIMITER]) (Single.store s)) fs).2).
Proof.
  intros H. unfold Single.Store_set, frame. rewrite H. simpl.
  rewrite <- !app_assoc. by destruct (ofstream_flush _ _ _ _).
Qed.

(** C4, as stated, fails: with the stream open and the write refused by the
    device, [set] still returns [true], the index has the entry and the
    cursor has advanced, while the file has received nothing. *)
Lemma C4_write_failure_reported_as_success :
  let '(r, s', fs') :=
    Multi.Store_set io_write_fails 1 (str "1,a" ++ [DELIMITER]) 4 fresh_log.1 fresh_log.2 in
  write_ok io_write_fails = false ∧
  r = true ∧
  file_content fs' (str "log") = [] ∧
  entries (Multi.cache s') !! 1 = Some (mkMetaData 0 4) ∧
  currByteOffset (Multi.cache s') = 4 ∧
  Multi.totalBytes s' = 4.
Proof. vm_compute. repeat split. Qed.

(** C4 (amended): in both programs [set] returns [true] exactly when the
    output stream is open, whether or not the write and the flush succeed;
    when it returns [false], the store (cursor and index included) and the
    file system are left as they were. *)
Theorem C4_set_result :
  (∀ e key data n s fs,
     (Multi.Store_set e key data n s fs).1.1 = is_open (Multi.store s) ∧
     ((Multi.Store_set e key data n s fs).1.1 = false →
      Multi.Store_set e key data n s fs = (false, s, fs))) ∧
  (∀ e key value s fs,
     (Single.Store_set e key value s fs).1.1 = is_open (Single.store s) ∧
     ((Single.Store_set e key value s fs).1.1 = false →
      Single.Store_set e key value s fs = (false, s, fs))).
Proof.
  split; intros.
  - destruct (is_open (Multi.store s)) eqn:Ho.
    + rewrite Multi_Store_set_open by done. simpl. split; [done | discriminate].
    + rewrite Multi_Store_set_closed by done. done.
  - destruct (is_open (Single.store s)) eqn:Ho.
    + rewrite Single_Store_set_open by done. simpl. split; [done | discriminate].
    + rewrite Single_Store_set_closed by done. done.
Qed.

(** An instance: a store whose log could not be opened; [set] returns
    [false] and changes nothing. *)
Lemma C4_set_result_witness :
  let data := str "1,a" ++ [DELIMITER] in
  (Multi.Store_set io_good 1 data 4 closed_log.1 closed_log.2).1.1 = false ∧
  Multi.Store_set io_good 1 data 4 closed_log.1 closed_log.2
    = (false, closed_log.1, closed_log.2).
Proof.
  intros data.
  assert (H : (Multi.Store_set io_good 1 data 4 closed_log.1 closed_log.2).1.1 = false)
    by reflexivity.
  split; [exact H|].
  exact (proj2 (proj1 C4_set_result io_good 1 data 4 closed_log.1 closed_log.2) H).
Defined.

Lemma file_content_insert (fs : filesystem) (path c : bytes) :
  file_content (<[path := c]> fs) path = c.
Proof. unfold file_content. by rewrite lookup_insert_eq. Qed.

Lemma file_content_insert_ne (fs : filesystem) (path path' c : bytes) :
  path ≠ path' → file_content (<[path := c]> fs) path' = file_content fs path'.
Proof. intros H. unfold file_content. by rewrite lookup_insert_ne. Qed.

Lemma size_app (a b : bytes) : size (a ++ b) = size a + size b.
Proof. unfold size. rewrite length_app. lia. Qed.

Lemma size_nonneg (a : bytes) : 0 <= size a.
Proof. unfold size. lia. Qed.

(** A successful write followed by a successful flush. *)
Lemma put_flush_ok (path data : bytes) (o : ofstream) (fs : filesystem) :
  is_open o = true → obad o = false →
  ofstream_flush true path (ofstream_put data o) fs =
    (mkOfstream true false [],
     <[path := file_content fs path ++ pending o ++ data]> fs).
Proof.
  intros Ho Hb. unfold ofstream_put, ofstream_flush. rewrite Ho, Hb. simpl. done.
Qed.

Lemma flushed_add (h : HashMap) (file more : bytes) (key n : Z) :
  flushed h file →
  currByteOffset h <= size file →
  n <= size more →
  flushed (HashMap_add key n h) (file ++ more).
Proof.
  intros Hfl Hcur Hn k m. unfold HashMap_add. simpl.
  rewrite size_app. destruct (decide (key = k)) as [->|Hne].
  - rewrite lookup_insert_eq. intros [= <-]. simpl. lia.
  - rewrite lookup_insert_ne by done. intros Hk.
    pose proof (Hfl k m Hk). pose proof (size_nonneg more). lia.
Qed.

Lemma flushed_grow (h : HashMap) (file more : bytes) :
  flushed h file → flushed h (file ++ more).
Proof.
  intros Hfl k m Hk. rewrite size_app.
  pose proof (Hfl k m Hk). pose proof (size_nonneg more). lia.
Qed.

Lemma u64_bounds (z : Z) : 0 <= z → 0 <= u64 z <= z.
Proof.
  intros H. unfold u64. split.
  - apply Z.mod_pos_bound. lia.
  - apply Z.mod_le; lia.
Qed.

Lemma published_grow (h : HashMap) (file more : bytes) :
  published h file → published h (file ++ more).
Proof.
  intros [Hfl Hcur]. split; [by apply flushed_grow|].
  rewrite size_app. pose proof (size_nonneg more). lia.
Qed.

Lemma published_add (h : HashMap) (file more : bytes) (key n : Z) :
  published h file → 0 <= n <= size more →
  published (HashMap_add key n h) (file ++ more).
Proof.
  intros [Hfl Hcur] Hn. split.
  - apply flushed_add; [done | lia | lia].
  - unfold HashMap_add. simpl. rewrite size_app.
    pose proof (u64_bounds (currByteOffset h + n)). lia.
Qed.

Lemma published_empty (file : bytes) : published HashMap_new file.
Proof.
  split.
  - intros k m. unfold HashMap_new. simpl. by rewrite lookup_empty.
  - simpl. pose proof (size_nonneg file). lia.
Qed.

(** C8, as stated, fails: an append that returns [true] can leave in the
    index an entry whose bytes are not in the file.

    - The device refuses the write on a new store: [set] returns [true] and
      the index has the entry [{0, 4}], while the file is empty.
    - A store is opened on a log that ends in the middle of a record
      ([11,11] complete, [12,12] cut short), which leaves the cursor at
      [2^64 - 1].  The next append is written and flushed, the file then has
      17 bytes, and the entry it gets is [{2^64 - 1, 6}]. *)
Lemma C8_entry_without_bytes_in_file :
  let refused :=
    Multi.Store_set io_write_fails 1 (str "1,a" ++ [DELIMITER]) 4
      fresh_log.1 fresh_log.2 in
  let cut : filesystem :=
    {[ str "log" := frames [str "11,11"] ++ str "12,12" ]} in
  let opened := Multi.Store_new io_good (str "log") cut in
  let data := str "13,13" ++ [DELIMITER] in
  let after := Multi.Store_set io_good 13 data (size data) opened.1 opened.2 in
  (refused.1.1 = true ∧
   entries (Multi.cache refused.1.2) !! 1 = Some (mkMetaData 0 4) ∧
   file_content refused.2 (str "log") = [] ∧
   ¬ flushed (Multi.cache refused.1.2) (file_content refused.2 (str "log"))) ∧
  (write_ok io_good = true ∧
   after.1.1 = true ∧
   file_content after.2 (str "log") = frames [str "11,11"] ++ str "12,12" ++ data ∧
   size (file_content after.2 (str "log")) = 17 ∧
   entries (Multi.cache after.1.2) !! 13 = Some (mkMetaData (2 ^ 64 - 1) 6) ∧
   ¬ flushed (Multi.cache after.1.2) (file_content after.2 (str "log"))).
Proof.
  intros refused cut opened data after. split.
  - assert (He : entries (Multi.cache refused.1.2) !! 1 = Some (mkMetaData 0 4))
      by (by vm_compute).
    assert (Hf : file_content refused.2 (str "log") = []) by (by vm_compute).
    do 3 (split; [done|]).
    intros H. specialize (H 1 _ He). rewrite Hf in H. simpl in H.
    change (size []) with 0 in H. lia.
  - assert (He : entries (Multi.cache after.1.2) !! 13
                 = Some (mkMetaData (2 ^ 64 - 1) 6)) by (by vm_compute).
    assert (Hf : size (file_content after.2 (str "log")) = 17) by (by vm_compute).
    split; [done|]. split; [by vm_compute|]. split; [by vm_compute|].
    do 2 (split; [done|]).
    intros H. specialize (H 13 _ He). rewrite Hf in H. simpl in H. lia.
Qed.

(** C8 (amended): the store has an open stream that has not failed, and its
    index has published only bytes of the file.  During an append whose write
    and flush succeed, the entry of the record is inserted into the index
    only after the bytes of the record are in the file.  In each of the
    states [Store::set] goes through, the index has published only bytes
    that are in the file; and the index is either
    still the one before the call, or it has the new entry and the frame is
    then already at the end of the file with nothing left pending in the
    stream.  The last of these states is the one [Store::set] returns, so
    the property is kept from one successful append to the next.  This holds
    for both programs. *)
Theorem C8_entry_published_after_flush :
  (∀ e key data s fs,
     write_ok e = true →
     is_open (Multi.store s) = true →
     obad (Multi.store s) = false →
     published (Multi.cache s) (file_content fs (Multi.currDir s)) →
     let steps := Multi.Store_set_steps e key data (size data) s fs in
     let result := Multi.Store_set e key data (size data) s fs in
     result.1.1 = true ∧
     last steps = Some (result.1.2, result.2) ∧
     ∀ s' fs', (s', fs') ∈ steps →
       published (Multi.cache s') (file_content fs' (Multi.currDir s')) ∧
       (Multi.cache s' = Multi.cache s ∨
        Multi.cache s' = HashMap_add key (size data) (Multi.cache s) ∧
        pending (Multi.store s') = [] ∧
        file_content fs' (Multi.currDir s) =
          file_content fs (Multi.currDir s) ++ pending (Multi.store s) ++ data)) ∧
  (∀ e key value s fs,
     write_ok e = true →
     is_open (Single.store s) = true →
     obad (Single.store s) = false →
     published (Single.cache s) (file_content fs (Single.currDir s)) →
     let data := frame key value ++ [DELIMITER] in
     let steps := Single.Store_set_steps e key value s fs in
     let result := Single.Store_set e key value s fs in
     result.1.1 = true ∧
     last steps = Some (result.1.2, result.2) ∧
     ∀ s' fs', (s', fs') ∈ steps →
       published (Single.cache s') (file_content fs' (Single.currDir s')) ∧
       (Single.cache s' = Single.cache s ∨
        Single.cache s' = HashMap_add key (size data) (Single.cache s) ∧
        pending (Single.store s') = [] ∧
        file_content fs' (Single.currDir s) =
          file_content fs (Single.currDir s) ++ pending (Single.store s) ++ data)).
Proof.
  split.
  - intros e key data s fs Hw Ho Hb Hpub steps result.
    subst steps result. rewrite Multi_Store_set_open by done.
    unfold Multi.Store_set_steps. simpl. rewrite Hw, put_flush_ok by done. simpl.
    split; [done|]. split; [done|].
    intros s' fs' Hin.
    rewrite !elem_of_cons, elem_of_nil in Hin.
    destruct Hin as [[= -> ->]|[[= -> ->]|[[= -> ->]|[[= -> ->]|[]]]]]; simpl.
    + split; [done | by left].
    + split; [done | by left].
    + rewrite file_content_insert. split; [by apply published_grow | by left].
    + rewrite file_content_insert. split; [| by right].
      apply published_add; [done|]. rewrite size_app.
      pose proof (size_nonneg (pending (Multi.store s))).
      pose proof (size_nonneg data). lia.
  - intros e key value s fs Hw Ho Hb Hpub data steps result.
    assert (Hd : to_string key ++ str "," ++ value ++ [DELIMITER] = data)
      by (subst data; unfold frame; by rewrite <- !app_assoc).
    subst steps result. rewrite Single_Store_set_open by done.
    unfold Single.Store_set_steps. rewrite Hd, Hw.
    cbn [Single.store]. fold data. rewrite put_flush_ok by done. simpl.
    split; [done|]. split; [done|].
    intros s' fs' Hin.
    rewrite !elem_of_cons, elem_of_nil in Hin.
    destruct Hin as [[= -> ->]|[[= -> ->]|[[= -> ->]|[]]]]; simpl.
    + split; [done | by left].
    + rewrite file_content_insert. split; [by apply published_grow | by left].
    + rewrite file_content_insert. split; [| by right].
      apply published_add; [done|]. rewrite size_app.
      pose proof (size_nonneg (pending (Single.store s))).
      pose proof (size_nonneg data). lia.
Qed.

(** An instance: the first append to a new store,
    in each program. *)
Lemma C8_entry_published_after_flush_witness :
  let data := str "1,a" ++ [DELIMITER] in
  let s := fresh_log.1 in
  let fs := fresh_log.2 in
  let s1 := fresh_single_log.1 in
  let fs1 := fresh_single_log.2 in
  (write_ok io_good = true ∧
   is_open (Multi.store s) = true ∧
   obad (Multi.store s) = false ∧
   published (Multi.cache s) (file_content fs (Multi.currDir s)) ∧
   (Multi.Store_set io_good 1 data (size data) s fs).1.1 = true ∧
   last (Multi.Store_set_steps io_good 1 data (size data) s fs) =
     Some ((Multi.Store_set io_good 1 data (size data) s fs).1.2,
           (Multi.Store_set io_good 1 data (size data) s fs).2) ∧
   ∀ s' fs', (s', fs') ∈ Multi.Store_set_steps io_good 1 data (size data) s fs →
     published (Multi.cache s') (file_content fs' (Multi.currDir s')) ∧
     (Multi.cache s' = Multi.cache s ∨
      Multi.cache s' = HashMap_add 1 (size data) (Multi.cache s) ∧
      pending (Multi.store s') = [] ∧
      file_content fs' (Multi.currDir s) =
        file_content fs (Multi.currDir s) ++ pending (Multi.store s) ++ data)) ∧
  (is_open (Single.store s1) = true ∧
   obad (Single.store s1) = false ∧
   published (Single.cache s1) (file_content fs1 (Single.currDir s1)) ∧
   (Single.Store_set io_good 1 (str "a") s1 fs1).1.1 = true ∧
   last (Single.Store_set_steps io_good 1 (str "a") s1 fs1) =
     Some ((Single.Store_set io_good 1 (str "a") s1 fs1).1.2,
           (Single.Store_set io_good 1 (str "a") s1 fs1).2) ∧
   ∀ s' fs', (s', fs') ∈ Single.Store_set_steps io_good 1 (str "a") s1 fs1 →
     published (Single.cache s') (file_content fs' (Single.currDir s')) ∧
     (Single.cache s' = Single.cache s1 ∨
      Single.cache s' =
        HashMap_add 1 (size (frame 1 (str "a") ++ [DELIMITER])) (Single.cache s1) ∧
      pending (Single.store s') = [] ∧
      file_content fs' (Single.currDir s1) =
        file_content fs1 (Single.currDir s1) ++ pending (Single.store s1)
          ++ frame 1 (str "a") ++ [DELIMITER])).
Proof.
  intros data s fs s1 fs1.
  assert (H1 : write_ok io_good = true) by reflexivity.
  assert (H2 : is_open (Multi.store s) = true) by (vm_compute; reflexivity).
  assert (H3 : obad (Multi.store s) = false) by (vm_compute; reflexivity).
  assert (H4 : published (Multi.cache s) (file_content fs (Multi.currDir s))).
  { change (Multi.cache s) with HashMap_new. apply published_empty. }
  assert (G2 : is_open (Single.store s1) = true) by (vm_compute; reflexivity).
  assert (G3 : obad (Single.store s1) = false) by (vm_compute; reflexivity).
  assert (G4 : published (Single.cache s1) (file_content fs1 (Single.currDir s1))).
  { change (Single.cache s1) with HashMap_new. apply published_empty. }
  split.
  - do 4 (split; [assumption|]).
    exact (proj1 C8_entry_published_after_flush io_good 1 data s fs H1 H2 H3 H4).
  - do 3 (split; [assumption|]).
    exact (proj2 C8_entry_published_after_flush io_good 1 (str "a") s1 fs1 H1 G2 G3 G4).
Defined.


(** ** [StorageEngine]: rotation and file names *)

Lemma Multi_Store_open_currDir (e : io) (s : Multi.Store) (fs : filesystem) :
  Multi.currDir (Multi.Store_open e s fs).1 = Multi.currDir s.
Proof. unfold Multi.Store_open. by destruct (ofstream_open _ _ _ _). Qed.

Lemma Multi_Store_init_currDir (e : io) (s : Multi.Store) (fs : filesystem) :
  Multi.currDir (Multi.Store_init e s fs).1 = Multi.currDir s.
Proof.
  unfold Multi.Store_init.
  destruct (if is_open (Multi.store s) then _ else _) as [o1 fs1].
  destruct (ifstream_open fs1 (Multi.currDir s)) as [in0|];
    [destruct (init_loop _ _) |]; try done;
    by rewrite Multi_Store_open_currDir.
Qed.

Lemma Multi_Store_new_currDir (e : io) (dir : bytes) (fs : filesystem) :
  Multi.currDir (Multi.Store_new e dir fs).1 = dir.
Proof. unfold Multi.Store_new. by rewrite Multi_Store_init_currDir. Qed.

Lemma store_path_inj (prefix : bytes) (n m : Z) :
  Multi.store_path prefix n = Multi.store_path prefix m → n = m.
Proof.
  unfold Multi.store_path. intros H.
  apply app_inv_head, app_inv_head, app_inv_tail in H.
  by apply to_string_inj.
Qed.

Lemma createStore_spec (e : io) (g : Multi.StorageEngine) (fs : filesystem) :
  Multi.createStore e g fs =
    (Multi.mkStorageEngine
       ((Multi.Store_new e (Multi.store_path (Multi.prefixFileName g)
                              (u64 (Multi.totalFiles g + 1))) fs).1
          :: Multi.activeStores g)
       (Multi.archivedStores g) (Multi.prefixFileName g) (Multi.readBuffer g)
       (u64 (Multi.totalFiles g + 1)) (Multi.totalMerged g),
     (Multi.Store_new e (Multi.store_path (Multi.prefixFileName g)
                           (u64 (Multi.totalFiles g + 1))) fs).2).
Proof. unfold Multi.createStore. by destruct (Multi.Store_new _ _ _). Qed.

Lemma u64_small (z : Z) : 0 <= z < 2 ^ 64 → u64 z = z.
Proof. intros H. unfold u64. by apply Z.mod_small. Qed.

(** C1: the code at the failing input.  After [Put(11, "11")] and
    [Put(12, "12-1")] the only store holds 14 bytes.  [Put(12, "12-2")] has a
    frame of 8 bytes: the engine rotates, and then appends the record to the
    store that was active before the rotation.  The new active store
    [store_2.txt] has received nothing; the file and the index of the previous
    store [store_1.txt] have been changed after the rotation. *)
Theorem C1_record_appended_to_previous_store :
  let '(g, fs) := two_puts in
  let '(g', fs') := three_puts in
  (Multi.currDir <$> Multi.activeStores g) = [str "store_1.txt"] ∧
  (Multi.totalBytes <$> Multi.activeStores g) = [14] ∧
  (Multi.currDir <$> Multi.activeStores g') = [str "store_2.txt"; str "store_1.txt"] ∧
  (Multi.totalBytes <$> Multi.activeStores g') = [0; 22] ∧
  ((fun s => entries (Multi.cache s) !! 12) <$> Multi.activeStores g')
    = [None; Some (mkMetaData 14 8)] ∧
  fs' !! str "store_2.txt" = Some [] ∧
  fs !! str "store_1.txt" = Some (frame 11 (str "11") ++ [DELIMITER]
                                   ++ frame 12 (str "12-1") ++ [DELIMITER]) ∧
  fs' !! str "store_1.txt" = Some (frame 11 (str "11") ++ [DELIMITER]
                                    ++ frame 12 (str "12-1") ++ [DELIMITER]
                                    ++ frame 12 (str "12-2") ++ [DELIMITER]).
Proof. vm_compute. repeat split. Qed.

(** When the threshold is exceeded, [StorageEngine::set] creates the new
    store and then calls [set] on the store that was at the front before. *)
Lemma StorageEngine_set_rotate (e : io) (key : Z) (value : bytes)
    (g : Multi.StorageEngine) (fs : filesystem) (s : Multi.Store)
    (rest : list Multi.Store) :
  let data := frame key value ++ [DELIMITER] in
  Multi.activeStores g = s :: rest →
  u64 (Multi.totalBytes s + size data) > MAX_FILE_BYTE_SIZE →
  let created := Multi.createStore e g fs in
  let written := Multi.Store_set e key data (size data) s created.2 in
  Multi.StorageEngine_set e key value g fs =
    (written.1.1,
     Multi.with_activeStores
       ((Multi.Store_new e (Multi.store_path (Multi.prefixFileName g)
                              (u64 (Multi.totalFiles g + 1))) fs).1
          :: written.1.2 :: rest)
       created.1,
     written.2).
Proof.
  intros data Hs Hrot created written. subst created written.
  unfold Multi.StorageEngine_set, Multi.onCapacityExceeded, Multi.getTotalBytes.
  assert (Hd : to_string key ++ str "," ++ value ++ [DELIMITER] = data)
    by (subst data; unfold frame; by rewrite <- !app_assoc).
  rewrite Hd, Hs. rewrite bool_decide_eq_true_2 by done.
  rewrite createStore_spec. cbn [fst snd Multi.activeStores].
  destruct (Multi.Store_set _ _ _ _ _ _) as [[r s'] fs2]. simpl.
  by rewrite Hs.
Qed.

Lemma StorageEngine_set_no_rotate (e : io) (key : Z) (value : bytes)
    (g : Multi.StorageEngine) (fs : filesystem) (s : Multi.Store)
    (rest : list Multi.Store) :
  let data := frame key value ++ [DELIMITER] in
  Multi.activeStores g = s :: rest →
  u64 (Multi.totalBytes s + size data) <= MAX_FILE_BYTE_SIZE →
  let written := Multi.Store_set e key data (size data) s fs in
  Multi.StorageEngine_set e key value g fs =
    (written.1.1, Multi.with_activeStores (written.1.2 :: rest) g, written.2).
Proof.
  intros data Hs Hrot written. subst written.
  unfold Multi.StorageEngine_set, Multi.getTotalBytes.
  assert (Hd : to_string key ++ str "," ++ value ++ [DELIMITER] = data)
    by (subst data; unfold frame; by rewrite <- !app_assoc).
  rewrite Hd, Hs. rewrite bool_decide_eq_false_2 by lia.
  destruct (Multi.Store_set _ _ _ _ _ _) as [[r s'] fs2]. simpl.
  by rewrite Hs.
Qed.

(** C5, as stated, fails: the first run has left [store_1.txt] and
    [store_2.txt] on disk, so the largest sequence number on disk is 2.  The
    second run starts again at 1: its active store is [store_1.txt], which it
    replays and will append to, and its next rotation creates sequence number
    2 and uses [store_2.txt] a second time. *)
Lemma C5_sequence_restarts_at_one :
  let disk := three_puts.2 in
  let '(g, fs) := second_run in
  let '(g', fs') := Multi.createStore io_good g fs in
  is_Some (disk !! str "store_1.txt") ∧
  is_Some (disk !! str "store_2.txt") ∧
  Multi.totalFiles g = 1 ∧
  (Multi.currDir <$> Multi.activeStores g) = [str "store_1.txt"] ∧
  Multi.totalFiles g' = 2 ∧
  (Multi.currDir <$> Multi.activeStores g') = [str "store_2.txt"; str "store_1.txt"].
Proof. vm_compute. repeat split; by eexists. Qed.

(** C5 (amended): at startup the counter is reset, so the first store of
    every run has sequence number 1, whatever files are on disk.  Every store
    created afterwards takes the previous number plus one: within one run the
    sequence numbers are strictly increasing, and the name of the new file
    differs from the names of all the stores created before it in that run. *)
Theorem C5_sequence_numbers_within_a_run :
  (∀ e prefix fs,
     let g := (Multi.StorageEngine_new e prefix fs).1 in
     Multi.totalFiles g = 1 ∧
     (Multi.currDir <$> Multi.activeStores g) = [Multi.store_path prefix 1]) ∧
  (∀ e g fs,
     0 <= Multi.totalFiles g < 2 ^ 64 - 1 →
     let g' := (Multi.createStore e g fs).1 in
     Multi.totalFiles g' = Multi.totalFiles g + 1 ∧
     (Multi.currDir <$> Multi.activeStores g') =
       Multi.store_path (Multi.prefixFileName g) (Multi.totalFiles g')
         :: (Multi.currDir <$> Multi.activeStores g) ∧
     ∀ n, n <= Multi.totalFiles g →
       Multi.store_path (Multi.prefixFileName g) n ≠
       Multi.store_path (Multi.prefixFileName g) (Multi.totalFiles g')).
Proof.
  split.
  - intros e prefix fs g. subst g.
    unfold Multi.StorageEngine_new, Multi.StorageEngine_init.
    rewrite createStore_spec. simpl.
    by rewrite Multi_Store_new_currDir.
  - intros e g fs Hn g'. subst g'. rewrite createStore_spec. simpl.
    rewrite Multi_Store_new_currDir, u64_small by lia.
    repeat split. intros n Hle Heq. apply store_path_inj in Heq. lia.
Qed.

(** An instance: the engine of the second run. *)
Lemma C5_sequence_numbers_within_a_run_witness :
  let g := second_run.1 in
  let g' := (Multi.createStore io_good g second_run.2).1 in
  0 <= Multi.totalFiles g < 2 ^ 64 - 1 ∧
  Multi.totalFiles g' = Multi.totalFiles g + 1 ∧
  (Multi.currDir <$> Multi.activeStores g') =
    Multi.store_path (Multi.prefixFileName g) (Multi.totalFiles g')
      :: (Multi.currDir <$> Multi.activeStores g) ∧
  ∀ n, n <= Multi.totalFiles g →
    Multi.store_path (Multi.prefixFileName g) n ≠
    Multi.store_path (Multi.prefixFileName g) (Multi.totalFiles g').
Proof.
  intros g g'.
  assert (H : 0 <= Multi.totalFiles g < 2 ^ 64 - 1) by (vm_compute; split; congruence).
  split; [exact H|].
  exact (proj2 C5_sequence_numbers_within_a_run io_good g second_run.2 H).
Defined.

(** ** One iteration of the replay loop *)

Section body.
Variables (st : replay) (buf : bytes) (p : nat).
Hypothesis Hin : inp st = mkIfstream buf p false false.

(** The stream stands at the start of a record that ends with a
    delimiter. *)
Lemma init_body_frame (d rest : bytes) :
  drop p buf = d ++ DELIMITER :: rest →
  DELIMITER ∉ d →
  let in2 := mkIfstream buf (p + length d + 1) false false in
  let recordSize := u64 (u64 (Z.of_nat (p + length d + 1)) - u64 (Z.of_nat p)) in
  init_body st =
    if bool_decide (d = []) then (Continue, mkReplay in2 (idx st) (curOff st))
    else match decode_key d with
         | None => (Continue, mkReplay in2 (idx st) (u64 (Z.of_nat (p + length d + 1))))
         | Some key =>
             (Continue,
              mkReplay in2 (HashMap_add key recordSize (idx st))
                       (u64 (curOff st + recordSize)))
         end.
Proof.
  intros Hdrop Hd in2 recordSize. unfold init_body. rewrite Hin.
  rewrite tellg_good by done.
  rewrite (getline_frame _ _ d rest) by done. cbn [gpos ibuf eofbit].
  rewrite andb_false_r. fold in2.
  destruct (bool_decide (d = [])); [done|].
  unfold decode_key. rewrite (tellg_good in2) by done. cbn [gpos in2].
  destruct (find_comma d) as [commaPos|]; [|done].
  by destruct (stoi (take commaPos d)).
Qed.

(** The stream stands at the start of the last piece of the file, which no
    delimiter ends. *)
Lemma init_body_tail (d : bytes) :
  drop p buf = d →
  DELIMITER ∉ d →
  let in2 := mkIfstream buf (p + length d) true (bool_decide (d = [])) in
  let in3 := mkIfstream buf (p + length d) true true in
  let recordSize := u64 (u64 (-1) - u64 (Z.of_nat p)) in
  init_body st =
    if bool_decide (d = []) then (Break, mkReplay in2 (idx st) (curOff st))
    else match decode_key d with
         | None => (Continue, mkReplay in3 (idx st) (u64 (-1)))
         | Some key =>
             (Continue,
              mkReplay in3 (HashMap_add key recordSize (idx st))
                       (u64 (curOff st + recordSize)))
         end.
Proof.
  intros Hdrop Hd in2 in3 recordSize. unfold init_body. rewrite Hin.
  rewrite tellg_good by done.
  rewrite (getline_tail _ _ d) by done. cbn [gpos ibuf eofbit].
  rewrite andb_true_r. fold in2.
  destruct (bool_decide (d = [])) eqn:Hd0; [done|].
  unfold decode_key.
  assert (Ht : tellg in2 = (-1, in3)).
  { unfold tellg, good, in2, in3, setfail. simpl. done. }
  rewrite Ht.
  destruct (find_comma d) as [commaPos|]; [|done].
  by destruct (stoi (take commaPos d)).
Qed.
End body.

(** ** [Store::init] and the file *)

Lemma ofstream_open_keeps_file (ok : bool) (path : bytes) (o : ofstream)
    (fs : filesystem) :
  is_Some (fs !! path) → (ofstream_open ok path o fs).2 = fs.
Proof.
  intros [c Hc]. unfold ofstream_open.
  destruct (is_open o); [done|]. destruct ok; [|done]. simpl. by rewrite Hc.
Qed.

Lemma Multi_Store_new_existing (e : io) (dir content : bytes) (fs : filesystem) :
  fs !! dir = Some content →
  ∃ r, replay_file content HashMap_new = Some r ∧
       Multi.Store_new e dir fs =
         (Multi.mkStore (ofstream_open (open_ok e) dir ofstream_closed fs).1 dir
                        (idx r) (curOff r),
          fs).
Proof.
  intros Hc. destruct (replay_file_terminates content HashMap_new) as [r Hr].
  exists r. split; [done|].
  unfold Multi.Store_new, Multi.Store_init, ifstream_open. simpl.
  rewrite Hc. simpl. unfold replay_file in Hr. rewrite Hr.
  unfold Multi.Store_open. simpl.
  pose proof (ofstream_open_keeps_file (open_ok e) dir ofstream_closed fs) as Hk.
  destruct (ofstream_open _ _ _ _) as [o fs']. simpl in *.
  rewrite Hk by (by eexists). done.
Qed.

Lemma Single_Store_new_existing (e : io) (dir content : bytes) (h : HashMap)
    (fs : filesystem) :
  fs !! dir = Some content →
  ∃ r, replay_file content h = Some r ∧
       Single.Store_new e dir h fs =
         (Single.mkStore (ofstream_open (open_ok e) dir ofstream_closed fs).1 dir
                         (idx r),
          fs).
Proof.
  intros Hc. destruct (replay_file_terminates content h) as [r Hr].
  exists r. split; [done|].
  unfold Single.Store_new, Single.Store_init, ifstream_open. simpl.
  rewrite Hc. simpl. unfold replay_file in Hr. rewrite Hr.
  unfold Single.Store_open. simpl.
  pose proof (ofstream_open_keeps_file (open_ok e) dir ofstream_closed fs) as Hk.
  destruct (ofstream_open _ _ _ _) as [o fs']. simpl in *.
  rewrite Hk by (by eexists). done.
Qed.

(** C3, as stated, fails: the first record of the log has no comma.  Replay
    does not stop there: it goes on and indexes the record after it.  The
    file is not truncated to the last valid boundary (its start): it is left
    as it was. *)
Lemma C3_replay_continues_after_bad_record :
  let fs : filesystem := {[ str "log" := log_with_bad_record ]} in
  let '(s, fs') := Multi.Store_new io_good (str "log") fs in
  decode_key (str "bad") = None ∧
  entries (Multi.cache s) !! 12 = Some (mkMetaData 0 5) ∧
  fs' !! str "log" = Some log_with_bad_record.
Proof. vm_compute. repeat split. Qed.

(** C3 (amended): during replay a record that fails to decode (no comma,
    or a key that is not a number) is skipped.  The iteration that reads it
    does not end the loop: it leaves the stream just after the delimiter of
    the record, sets [currentOffset] to that position and leaves the index
    as it was, so replay goes on with the next record.  The file itself is
    never truncated: in both programs [Store::init] leaves an existing file
    with the content it had. *)
Theorem C3_bad_record_is_skipped :
  (∀ st buf p bad rest,
     inp st = mkIfstream buf p false false →
     drop p buf = bad ++ DELIMITER :: rest →
     DELIMITER ∉ bad →
     bad ≠ [] →
     decode_key bad = None →
     init_body st =
       (Continue,
        mkReplay (mkIfstream buf (p + length bad + 1) false false) (idx st)
                 (u64 (Z.of_nat (p + length bad + 1))))) ∧
  (∀ e dir h fs,
     is_Some (fs !! dir) →
     (Multi.Store_new e dir fs).2 = fs ∧ (Single.Store_new e dir h fs).2 = fs).
Proof.
  split.
  - intros st buf p bad rest Hin Hdrop Hd Hne Hdec.
    rewrite (init_body_frame st buf p Hin bad rest Hdrop Hd).
    rewrite bool_decide_eq_false_2 by done. by rewrite Hdec.
  - intros e dir h fs [c Hc]. split.
    + destruct (Multi_Store_new_existing e dir c fs Hc) as (r & _ & ->). done.
    + destruct (Single_Store_new_existing e dir c h fs Hc) as (r & _ & ->). done.
Qed.

(** An instance: the log whose first record is [bad]. *)
Lemma C3_bad_record_is_skipped_witness :
  let st := mkReplay (mkIfstream log_with_bad_record 0 false false) HashMap_new 0 in
  inp st = mkIfstream log_with_bad_record 0 false false ∧
  drop 0 log_with_bad_record = str "bad" ++ DELIMITER :: (str "12,1" ++ [DELIMITER]) ∧
  (DELIMITER ∉ str "bad") ∧
  str "bad" ≠ [] ∧
  decode_key (str "bad") = None ∧
  init_body st =
    (Continue,
     mkReplay (mkIfstream log_with_bad_record (0 + length (str "bad") + 1) false false)
              (idx st) (u64 (Z.of_nat (0 + length (str "bad") + 1)))) ∧
  is_Some (disk_with_log !! str "store_1.txt") ∧
  (Multi.Store_new io_good (str "store_1.txt") disk_with_log).2 = disk_with_log ∧
  (Single.Store_new io_good (str "store_1.txt") HashMap_new disk_with_log).2
    = disk_with_log.
Proof.
  intros st.
  assert (H1 : inp st = mkIfstream log_with_bad_record 0 false false) by reflexivity.
  assert (H2 : drop 0 log_with_bad_record
               = str "bad" ++ DELIMITER :: (str "12,1" ++ [DELIMITER])) by reflexivity.
  assert (H3 : DELIMITER ∉ str "bad") by by_compute.
  assert (H4 : str "bad" ≠ []) by discriminate.
  assert (H5 : decode_key (str "bad") = None) by reflexivity.
  assert (H6 : is_Some (disk_with_log !! str "store_1.txt")) by (by eexists).
  do 5 (split; [assumption|]).
  split; [exact (proj1 C3_bad_record_is_skipped st _ _ _ _ H1 H2 H3 H4 H5)|].
  split; [assumption|].
  exact (proj2 C3_bad_record_is_skipped io_good (str "store_1.txt") HashMap_new
           disk_with_log H6).
Defined.

(** C9: the framing is not binary-safe.  There is a value that contains the
    delimiter such that, after a successful [Put(5, value)] on a new engine
    in an empty directory, reading the key back gives neither the value nor
    the frame that was written, and replaying the file gives an index that is
    not the one the write built: it has an entry for key 9, which was never
    written, and its entry for key 5 is shorter than the frame. *)
Theorem C9_delimiter_in_value_corrupts_framing :
  ∃ key value,
    DELIMITER ∈ value ∧
    let '(g0, fs0) := Multi.StorageEngine_new io_good (str "store") ∅ in
    let '(r, g, fs) := Multi.StorageEngine_set io_good key value g0 fs0 in
    let written := (Multi.cache <$> Multi.activeStores g) in
    let replayed := idx <$> replay_file (file_content fs (str "store_1.txt")) HashMap_new in
    r = true ∧
    (Multi.StorageEngine_get key g fs).1 = Some (str "5,x") ∧
    (Multi.StorageEngine_get key g fs).1 ≠ Some value ∧
    (Multi.StorageEngine_get key g fs).1 ≠ Some (frame key value) ∧
    ((fun h => entries h !! 5) <$> written) = [Some (mkMetaData 0 8)] ∧
    ((fun h => entries h !! 9) <$> written) = [None] ∧
    ((fun h => entries h !! 5) <$> replayed) = Some (Some (mkMetaData 0 4)) ∧
    ((fun h => entries h !! 9) <$> replayed) = Some (Some (mkMetaData 4 4)).
Proof.
  exists 5, value_with_delimiter. split.
  - by_compute.
  - vm_compute. repeat split; discriminate.
Qed.

(** ** Replay of a sequence of complete records *)

Lemma frames_nil : frames [] = [].
Proof. reflexivity. Qed.

Lemma frames_cons (r : bytes) (recs : list bytes) :
  frames (r :: recs) = r ++ DELIMITER :: frames recs.
Proof. unfold frames. simpl. by rewrite <- app_assoc. Qed.

Lemma frames_app (a b : list bytes) : frames (a ++ b) = frames a ++ frames b.
Proof. unfold frames. by rewrite fmap_app, concat_app. Qed.

Lemma size_cons (c : ascii) (s : bytes) : size (c :: s) = 1 + size s.
Proof. unfold size. simpl length. lia. Qed.

Lemma indexed_bytes_cons (r : bytes) (recs : list bytes) :
  indexed_bytes (r :: recs) =
  match decode_key r with Some _ => size r + 1 | None => 0 end + indexed_bytes recs.
Proof. reflexivity. Qed.

Lemma indexed_bytes_bound (recs : list bytes) :
  0 <= indexed_bytes recs <= size (frames recs).
Proof.
  induction recs as [|r recs IH]; [done|].
  rewrite indexed_bytes_cons, frames_cons, size_app, size_cons.
  pose proof (size_nonneg r). destruct (decode_key r); lia.
Qed.

(** A record that is not accepted is not counted: the index cursor falls
    behind the position in the file. *)
Lemma indexed_bytes_lt (recs : list bytes) (bad : bytes) :
  bad ∈ recs → decode_key bad = None → indexed_bytes recs < size (frames recs).
Proof.
  induction recs as [|r recs IH]; intros Hin Hbad.
  - by apply elem_of_nil in Hin.
  - rewrite indexed_bytes_cons, frames_cons, size_app, size_cons.
    pose proof (size_nonneg r). pose proof (indexed_bytes_bound recs).
    apply elem_of_cons in Hin as [<-|Hin].
    + rewrite Hbad. lia.
    + specialize (IH Hin Hbad). destruct (decode_key r); lia.
Qed.

Lemma init_steps_loop (n m : nat) (st st' : replay) :
  init_steps n st = Some st' → init_loop (n + m) st = init_loop m st'.
Proof.
  revert st. induction n as [|n IH]; intros st; simpl.
  - by intros [= ->].
  - destruct (failbit (inp st)); [done|].
    destruct (init_body st) as [[] st1]; [|done]. apply IH.
Qed.

Lemma init_steps_app (n m : nat) (st st1 st2 : replay) :
  init_steps n st = Some st1 → init_steps m st1 = Some st2 →
  init_steps (n + m) st = Some st2.
Proof.
  revert st. induction n as [|n IH]; intros st; simpl.
  - by intros [= ->].
  - destruct (failbit (inp st)); [done|].
    destruct (init_body st) as [[] st']; [|done]. apply IH.
Qed.

(** The record size the loop computes for a frame that is in the file. *)
Lemma recordSize_frame (p len : nat) :
  Z.of_nat (p + len + 1) < 2 ^ 64 →
  u64 (u64 (Z.of_nat (p + len + 1)) - u64 (Z.of_nat p)) = Z.of_nat len + 1.
Proof.
  intros H.
  rewrite (u64_small (Z.of_nat p)), (u64_small (Z.of_nat (p + len + 1))) by lia.
  rewrite u64_small; lia.
Qed.

(** Entering a sequence of complete records with a good stream, the loop
    runs one iteration per record and leaves the stream just after the last
    one; the index cursor has advanced by the bytes of the accepted records
    only. *)
Lemma init_steps_frames (recs : list bytes) :
  ∀ (st : replay) (buf : bytes) (p : nat) (rest : bytes),
  Forall (fun r => DELIMITER ∉ r) recs →
  inp st = mkIfstream buf p false false →
  drop p buf = frames recs ++ rest →
  size buf < 2 ^ 64 →
  0 <= currByteOffset (idx st) <= Z.of_nat p →
  ∃ st',
    init_steps (length recs) st = Some st' ∧
    inp st' = mkIfstream buf (p + length (frames recs)) false false ∧
    currByteOffset (idx st') = currByteOffset (idx st) + indexed_bytes recs.
Proof.
  induction recs as [|r recs IH]; intros st buf p rest Hnf Hin Hdrop Hsz Hcur.
  - exists st. simpl. rewrite Nat.add_0_r. split; [done|]. split; [done|].
    unfold indexed_bytes. simpl. lia.
  - apply Forall_cons in Hnf as [Hr Hnf].
    rewrite frames_cons, <- app_assoc, <- app_comm_cons in Hdrop.
    pose proof (init_body_frame st buf p Hin r _ Hdrop Hr) as Hbody.
    cbv zeta in Hbody.
    assert (Hlen : Z.of_nat (p + length r + 1) <= size buf).
    { apply (f_equal length) in Hdrop. rewrite length_drop, length_app in Hdrop.
      simpl in Hdrop. unfold size. lia. }
    rewrite recordSize_frame in Hbody by lia.
    assert (Hdrop' : drop (p + length r + 1) buf = frames recs ++ rest).
    { replace (p + length r + 1)%nat with (p + (length r + 1))%nat by lia.
      rewrite <- drop_drop, Hdrop.
      replace (r ++ DELIMITER :: frames recs ++ rest)
        with ((r ++ [DELIMITER]) ++ frames recs ++ rest)
        by (by rewrite <- app_assoc).
      apply drop_app_length'. rewrite length_app. simpl. lia. }
    set (in2 := mkIfstream buf (p + length r + 1) false false) in *.
    assert (Hst1 : ∃ st1,
      init_body st = (Continue, st1) ∧ inp st1 = in2 ∧
      currByteOffset (idx st1) = currByteOffset (idx st)
        + match decode_key r with Some _ => size r + 1 | None => 0 end).
    { rewrite Hbody. destruct (bool_decide (r = [])) eqn:Hr0.
      - apply bool_decide_eq_true in Hr0. subst r.
        eexists. split; [done|]. split; [done|]. simpl.
        change (decode_key []) with (@None Z). lia.
      - destruct (decode_key r) as [key|].
        + eexists. split; [done|]. split; [done|]. simpl.
          unfold size. rewrite u64_small; lia.
        + eexists. split; [done|]. split; [done|]. simpl. lia. }
    destruct Hst1 as (st1 & Hb1 & Hin1 & Hc1).
    destruct (IH st1 buf (p + length r + 1)%nat rest Hnf Hin1 Hdrop' Hsz)
      as (st' & Hsteps & Hin' & Hc').
    { rewrite Hc1. pose proof (size_nonneg r). unfold size in *.
      destruct (decode_key r); lia. }
    exists st'. split; [|split].
    + simpl. rewrite Hin. simpl. by rewrite Hb1.
    + rewrite Hin'. f_equal. rewrite frames_cons, length_app. simpl. lia.
    + rewrite Hc', Hc1, indexed_bytes_cons. lia.
Qed.

(** ** What the replay loop puts in the index *)

Lemma split_records_spec (s : bytes) :
  ∀ cur d o,
  read_until_delim s = (d, o) →
  split_records cur s =
    match o with
    | Some r => (cur ++ d) :: split_records [] r
    | None => [cur ++ d]
    end.
Proof.
  induction s as [|c s IH]; intros cur d o.
  - intros [= <- <-]. simpl. by rewrite app_nil_r.
  - rewrite read_until_delim_cons. simpl. case_decide as Hc.
    + intros [= <- <-]. by rewrite app_nil_r.
    + destruct (read_until_delim s) as [d' o'] eqn:E. intros [= <- <-].
      rewrite (IH (cur ++ [c]) d' o' eq_refl).
      by rewrite <- !app_assoc.
Qed.

Lemma records_step (s d r : bytes) :
  read_until_delim s = (d, Some r) → records s = d :: records r.
Proof. intros H. unfold records. by rewrite (split_records_spec s [] d _ H). Qed.

Lemma records_last (s d : bytes) :
  read_until_delim s = (d, None) → records s = [d].
Proof. intros H. unfold records. by rewrite (split_records_spec s [] d _ H). Qed.

Lemma records_frames (recs : list bytes) (tail : bytes) :
  Forall (fun r => DELIMITER ∉ r) recs → DELIMITER ∉ tail →
  records (frames recs ++ tail) = recs ++ [tail].
Proof.
  intros Hrecs Htail. induction Hrecs as [|r recs Hr Hrecs IH].
  - rewrite frames_nil, app_nil_l. apply records_last.
    by apply read_until_delim_tail.
  - rewrite frames_cons, <- app_assoc, <- app_comm_cons.
    rewrite (records_step _ r (frames recs ++ tail)).
    + by rewrite IH.
    + by apply read_until_delim_frame.
Qed.

(** Every file is a sequence of complete records followed by a last piece
    without delimiter. *)
Lemma records_decompose (s : bytes) :
  ∃ recs tail,
    records s = recs ++ [tail] ∧ s = frames recs ++ tail ∧
    Forall (fun r => DELIMITER ∉ r) recs ∧ DELIMITER ∉ tail.
Proof.
  induction s as [s IH] using (induction_ltof1 _ (@length ascii)).
  unfold ltof in IH.
  destruct (read_until_delim s) as [d [r|]] eqn:E.
  - pose proof (read_until_delim_spec _ _ _ E) as [Hd Hs].
    destruct (IH r) as (recs & tail & Hr & Hf & Hnf & Ht).
    { subst s. rewrite length_app. simpl. lia. }
    exists (d :: recs), tail. split; [|split; [|split]].
    + by rewrite (records_step _ _ _ E), Hr.
    + rewrite frames_cons, <- app_assoc, <- app_comm_cons. by rewrite <- Hf.
    + by constructor.
    + done.
  - pose proof (read_until_delim_spec _ _ _ E) as [Hd Hs].
    exists [], d. rewrite (records_last _ _ E), frames_nil, app_nil_r in *.
    by repeat split.
Qed.

Lemma good_stream (s : ifstream) :
  good s = true → s = mkIfstream (ibuf s) (gpos s) false false.
Proof.
  destruct s as [b p e f]. unfold good. simpl.
  destruct e, f; simpl; done.
Qed.

Lemma init_body_not_good (st : replay) :
  good (inp st) = false →
  init_body st =
    (if eofbit (inp st) then Break else Continue,
     mkReplay (setfail (inp st)) (idx st) (curOff st)).
Proof.
  intros Hg. unfold init_body, tellg. rewrite Hg.
  assert (Hg' : good (setfail (inp st)) = false).
  { unfold good, setfail. simpl. by rewrite andb_false_r. }
  rewrite (getline_not_good _ _ Hg'). simpl.
  by destruct (eofbit (inp st)).
Qed.

(** One iteration either leaves the index as it was, or adds an entry of
    positive size for the key of the record at the get position.  When it
    continues with a stream that has not failed, it has consumed exactly that
    record and its delimiter. *)
Lemma init_body_index (st st' : replay) (c : control) :
  init_body st = (c, st') →
  (idx st' = idx st ∨
   ∃ d o key n,
     read_until_delim (drop (gpos (inp st)) (ibuf (inp st))) = (d, o) ∧
     decode_key d = Some key ∧
     idx st' = HashMap_add key n (idx st) ∧
     (size (ibuf (inp st)) < 2 ^ 64 → 0 < n)) ∧
  (c = Continue → failbit (inp st') = false →
   ∃ d r,
     read_until_delim (drop (gpos (inp st)) (ibuf (inp st))) = (d, Some r) ∧
     drop (gpos (inp st')) (ibuf (inp st')) = r).
Proof.
  destruct (good (inp st)) eqn:Hg.
  - pose proof (good_stream _ Hg) as Hin.
    set (buf := ibuf (inp st)) in *. set (p := gpos (inp st)) in *.
    destruct (read_until_delim (drop p buf)) as [d [r|]] eqn:E;
      pose proof (read_until_delim_spec _ _ _ E) as [Hd Hdrop].
    + rewrite (init_body_frame st buf p Hin d r Hdrop Hd). cbv zeta.
      assert (Hlen : Z.of_nat (p + length d + 1) <= size buf).
      { apply (f_equal length) in Hdrop. rewrite length_drop, length_app in Hdrop.
        simpl in Hdrop. unfold size. lia. }
      assert (Hnext : drop (p + length d + 1) buf = r).
      { replace (p + length d + 1)%nat with (p + (length d + 1))%nat by lia.
        rewrite <- drop_drop, Hdrop.
        replace (d ++ DELIMITER :: r) with ((d ++ [DELIMITER]) ++ r)
          by (by rewrite <- app_assoc).
        apply drop_app_length'. rewrite length_app. simpl. lia. }
      destruct (bool_decide (d = []));
        [| destruct (decode_key d) as [key|] eqn:Hk]; intros [= <- <-]; simpl;
        (split; [| intros _ _; by exists d, r]).
      * by left.
      * right. exists d, (Some r), key. eexists. repeat split; try done.
        intros Hsz. rewrite recordSize_frame by lia. lia.
      * by left.
    + rewrite app_nil_r in Hdrop.
      rewrite (init_body_tail st buf p Hin d Hdrop Hd). cbv zeta.
      destruct (bool_decide (d = [])) eqn:Hd0;
        [| destruct (decode_key d) as [key|] eqn:Hk]; intros [= <- <-]; simpl;
        (split; [| try done; by intros _ [=]]).
      * by left.
      * right. exists d, None, key. eexists. repeat split; try done.
        intros Hsz. apply bool_decide_eq_false in Hd0.
        assert (Hp : Z.of_nat p < size buf).
        { apply (f_equal length) in Hdrop. rewrite length_drop in Hdrop.
          destruct d; [done|]. simpl in Hdrop. unfold size. lia. }
        unfold u64 in *. change ((-1) mod 2 ^ 64) with (2 ^ 64 - 1).
        rewrite (Z.mod_small (Z.of_nat p)) by lia.
        rewrite Z.mod_small; lia.
      * by left.
  - rewrite (init_body_not_good st Hg). intros [= <- <-]. simpl.
    split; [by left | by intros _ [=]].
Qed.

Lemma init_loop_failed (n : nat) (st r : replay) :
  failbit (inp st) = true → init_loop n st = Some r → r = st.
Proof. intros Hf. destruct n; simpl; [done|]. rewrite Hf. by intros [= <-]. Qed.

(** The loop indexes only keys of records that are in the part of the file
    it has not read yet. *)
Lemma init_loop_keeps_key (k : Z) (n : nat) :
  ∀ st r,
  init_loop n st = Some r →
  Forall (fun d => decode_key d ≠ Some k)
         (records (drop (gpos (inp st)) (ibuf (inp st)))) →
  entries (idx r) !! k = entries (idx st) !! k.
Proof.
  induction n as [|n IH]; intros st r; [done|]. simpl.
  destruct (failbit (inp st)) eqn:Hf; [by intros [= <-]|].
  destruct (init_body st) as [c st'] eqn:Hb.
  destruct (init_body_index _ _ _ Hb) as [Hidx Hnext].
  intros Hloop Hrecs.
  assert (Hk : entries (idx st') !! k = entries (idx st) !! k).
  { destruct Hidx as [->|(d & o & key & m & E & Hkey & -> & _)]; [done|].
    unfold HashMap_add. simpl. apply lookup_insert_ne. intros ->.
    destruct o as [r'|].
    - rewrite (records_step _ _ _ E) in Hrecs.
      apply Forall_cons in Hrecs as [Hd _]. done.
    - rewrite (records_last _ _ E) in Hrecs.
      apply Forall_cons in Hrecs as [Hd _]. done. }
  destruct c; [| by injection Hloop as <-].
  destruct (failbit (inp st')) eqn:Hf'.
  - by rewrite (init_loop_failed _ _ _ Hf' Hloop).
  - destruct (Hnext eq_refl eq_refl) as (d & r' & E & Hdrop).
    rewrite (IH st' r Hloop); [done|].
    rewrite Hdrop. rewrite (records_step _ _ _ E) in Hrecs.
    by apply Forall_cons in Hrecs as [_ ?].
Qed.

(** Every entry the loop adds has a positive size. *)
Lemma init_loop_positive (n : nat) :
  ∀ st r,
  init_loop n st = Some r →
  size (ibuf (inp st)) < 2 ^ 64 →
  (∀ k m, entries (idx st) !! k = Some m → 0 < byteSize m) →
  ∀ k m, entries (idx r) !! k = Some m → 0 < byteSize m.
Proof.
  induction n as [|n IH]; intros st r; [done|]. simpl.
  destruct (failbit (inp st)) eqn:Hf; [by intros [= <-]|].
  destruct (init_body st) as [c st'] eqn:Hb.
  destruct (init_body_index _ _ _ Hb) as [Hidx _].
  pose proof (init_body_buf _ _ _ Hb) as Hbuf.
  intros Hloop Hsz Hpos.
  assert (Hpos' : ∀ k m, entries (idx st') !! k = Some m → 0 < byteSize m).
  { destruct Hidx as [->|(d & o & key & sz & _ & _ & -> & Hn)]; [done|].
    intros k m. unfold HashMap_add. simpl.
    destruct (decide (key = k)) as [->|Hne].
    - rewrite lookup_insert_eq. intros [= <-]. simpl. by apply Hn.
    - rewrite lookup_insert_ne by done. apply Hpos. }
  destruct c; [| by injection Hloop as <-].
  apply (IH st' r Hloop); [by rewrite Hbuf | done].
Qed.

(** ** Reading a key back *)

Lemma read_until_delim_length (a x d : bytes) (o : option bytes) :
  read_until_delim (a ++ DELIMITER :: x) = (d, o) → (length d ≤ length a)%nat.
Proof.
  revert d. induction a as [|c a IH]; intros d.
  - rewrite app_nil_l, read_until_delim_cons, decide_True by done.
    intros [= <- <-]. done.
  - rewrite <- app_comm_cons, read_until_delim_cons. case_decide.
    + intros [= <- <-]. simpl. lia.
    + destruct (read_until_delim (a ++ DELIMITER :: x)) as [d' o'] eqn:E.
      intros [= <- <-]. simpl. specialize (IH d' eq_refl). lia.
Qed.

Lemma read_until_delim_take (s d : bytes) (o : option bytes) :
  read_until_delim s = (d, o) → d = take (length d) s.
Proof.
  intros H. apply read_until_delim_spec in H as [_ ->].
  by rewrite take_app_length.
Qed.

Lemma to_streamoff_small (z : Z) : z < 2 ^ 63 → to_streamoff z = z.
Proof. intros H. unfold to_streamoff. by rewrite decide_True. Qed.

(** [Store::get] on a key of the index whose file exists: the bytes of the
    file from the offset of the entry up to the next delimiter. *)
Lemma Multi_Store_get_hit (key : Z) (out content : bytes) (s : Multi.Store)
    (fs : filesystem) (m : MetaData) :
  entries (Multi.cache s) !! key = Some m →
  0 < byteSize m →
  0 <= byteOffset m < 2 ^ 63 →
  fs !! Multi.currDir s = Some content →
  Multi.Store_get key out s fs =
    (true, (read_until_delim (drop (Z.to_nat (byteOffset m)) content)).1).
Proof.
  intros Hm Hsz Hoff Hfile. unfold Multi.Store_get, HashMap_get, ifstream_open.
  rewrite Hm, Hfile. simpl. rewrite decide_False by lia.
  unfold seekg. simpl. rewrite to_streamoff_small by lia.
  rewrite decide_True by lia. unfold getline, good. simpl.
  by destruct (read_until_delim _) as [d [r|]].
Qed.

Lemma Multi_Store_get_miss (key : Z) (out : bytes) (s : Multi.Store)
    (fs : filesystem) :
  entries (Multi.cache s) !! key = None →
  Multi.Store_get key out s fs = (false, out).
Proof.
  intros Hm. unfold Multi.Store_get, HashMap_get. by rewrite Hm.
Qed.

Lemma Single_Store_get_hit (key : Z) (out content : bytes) (s : Single.Store)
    (fs : filesystem) (m : MetaData) :
  entries (Single.cache s) !! key = Some m →
  0 < byteSize m →
  0 <= byteOffset m < 2 ^ 63 →
  fs !! Single.currDir s = Some content →
  Single.Store_get key out s fs =
    (true, (read_until_delim (drop (Z.to_nat (byteOffset m)) content)).1).
Proof.
  intros Hm Hsz Hoff Hfile. unfold Single.Store_get, HashMap_get, ifstream_open.
  rewrite Hm, Hfile. simpl. rewrite decide_False by lia.
  unfold seekg. simpl. rewrite to_streamoff_small by lia.
  rewrite decide_True by lia. unfold getline, good. simpl.
  by destruct (read_until_delim _) as [d [r|]].
Qed.

Lemma frames_ends_with_delimiter (recs : list bytes) :
  recs ≠ [] → ∃ b, frames recs = b ++ [DELIMITER].
Proof.
  induction recs as [|r recs IH]; [done|]. intros _.
  rewrite frames_cons. destruct recs as [|r' recs'].
  - exists r. by rewrite frames_nil.
  - destruct IH as [b Hb]; [done|]. rewrite Hb.
    exists (r ++ DELIMITER :: b). by rewrite <- app_assoc.
Qed.

Lemma length_frames_ge (recs : list bytes) :
  (length recs ≤ length (frames recs))%nat.
Proof.
  induction recs as [|r recs IH]; [done|].
  rewrite frames_cons, length_app. simpl. lia.
Qed.

(** A read that starts before the end of a sequence of complete records
    stops before that end. *)
Lemma read_before_boundary (before rest : bytes) (recs : list bytes) (off : nat) :
  before = frames recs → recs ≠ [] → (off < length before)%nat →
  let out := (read_until_delim (drop off (before ++ rest))).1 in
  out = take (length out) (drop off (before ++ rest)) ∧
  (off + length out < length before)%nat.
Proof.
  intros Hb Hne Hoff out.
  destruct (frames_ends_with_delimiter recs Hne) as [b Hfr].
  rewrite <- Hb in Hfr.
  destruct (read_until_delim (drop off (before ++ rest))) as [d o] eqn:E.
  subst out. simpl. split; [by eapply read_until_delim_take|].
  assert (Hlen : length before = (length b + 1)%nat).
  { rewrite Hfr, length_app. simpl. lia. }
  rewrite Hfr, <- app_assoc in E. simpl in E.
  rewrite drop_app_le in E by lia.
  apply read_until_delim_length in E. rewrite length_drop in E. lia.
Qed.

(** A read that starts inside a sequence of complete records returns the
    end of one of them: the bytes from the position up to the delimiter of
    the record the position falls in. *)
Lemma read_inside_frames (recs : list bytes) (rest : bytes) :
  ∀ off : nat,
  Forall (fun r => DELIMITER ∉ r) recs →
  (off < length (frames recs))%nat →
  ∃ r pre, r ∈ recs ∧
           r = pre ++ (read_until_delim (drop off (frames recs ++ rest))).1.
Proof.
  induction recs as [|r recs IH]; intros off Hnf Hoff.
  - rewrite frames_nil in Hoff. simpl in Hoff. lia.
  - apply Forall_cons in Hnf as [Hr Hnf].
    rewrite frames_cons, length_app in Hoff. simpl in Hoff.
    rewrite frames_cons, <- app_assoc, <- app_comm_cons.
    destruct (decide (off ≤ length r)%nat) as [Hle|Hgt].
    + exists r, (take off r). split; [apply list_elem_of_here|].
      rewrite drop_app_le by done.
      rewrite read_until_delim_frame.
      * simpl. by rewrite take_drop.
      * intros Hin. apply Hr. rewrite <- (take_drop off r).
        apply elem_of_app. by right.
    + destruct (IH (off - length r - 1)%nat Hnf) as (r' & pre & Hin & Heq); [lia|].
      exists r', pre. split; [by apply list_elem_of_further|].
      assert (Hd : drop off (r ++ DELIMITER :: frames recs ++ rest)
                   = drop (off - length r - 1) (frames recs ++ rest)).
      { rewrite drop_app_ge by lia.
        destruct (off - length r)%nat as [|n] eqn:E; [lia|].
        simpl. f_equal. lia. }
      by rewrite Hd.
Qed.

(** The loop from the start of a file, as far as the end of a sequence of
    complete records at its head. *)
Lemma replay_prefix (recs : list bytes) (rest : bytes) :
  Forall (fun r => DELIMITER ∉ r) recs →
  size (frames recs ++ rest) < 2 ^ 64 →
  ∃ st,
    init_steps (length recs)
      (mkReplay (mkIfstream (frames recs ++ rest) 0 false false) HashMap_new 0)
      = Some st ∧
    inp st = mkIfstream (frames recs ++ rest) (length (frames recs)) false false ∧
    currByteOffset (idx st) = indexed_bytes recs.
Proof.
  intros Hnf Hsz.
  destruct (init_steps_frames recs
              (mkReplay (mkIfstream (frames recs ++ rest) 0 false false) HashMap_new 0)
              (frames recs ++ rest) 0 rest Hnf eq_refl eq_refl Hsz)
    as (st & Hsteps & Hin & Hcur).
  { simpl. lia. }
  exists st. by repeat split.
Qed.

(** The rest of the loop after some iterations gives the result of the
    replay of the file. *)
Lemma replay_file_after_steps (content : bytes) (cache : HashMap) (n : nat)
    (st r : replay) :
  init_steps n (mkReplay (mkIfstream content 0 false false) cache 0) = Some st →
  replay_file content cache = Some r →
  ∃ m, init_loop m st = Some r.
Proof.
  intros Hsteps Hr.
  destruct (init_loop_terminates (S (replay_measure st)) st) as [r' Hr']; [lia|].
  exists (S (replay_measure st)). rewrite Hr'.
  pose proof (init_steps_loop n (S (replay_measure st)) _ _ Hsteps) as Heq.
  rewrite <- Heq in Hr'. apply replay_file_run in Hr'. congruence.
Qed.

(** C7: a file holds complete records, one of which ([bad]) is malformed:
    it has no comma, or its key is not a number.  For every well-formed
    record [good] after it, at the true position [size before]:

    - replay reaches the record with an index cursor that is smaller than the
      position of the record, because the bytes of the skipped record were
      not counted, and the entry it records for the key of [good] has that
      cursor as its offset;
    - when no later record has the same key, this is the entry of the key
      after recovery, and a read of the key returns what the file holds from
      that offset up to the next delimiter.  These bytes end before the
      record starts: they are the end of one of the records before it (none
      at all when the offset falls on the delimiter of that record), never
      the record that was written for the key. *)
Theorem C7_offsets_after_skipped_record :
  ∀ (recs1 recs2 : list bytes) (bad good post : bytes) (key : Z),
    Forall (fun r => DELIMITER ∉ r) (recs1 ++ bad :: recs2) →
    DELIMITER ∉ good →
    bad ≠ [] →
    decode_key bad = None →
    decode_key good = Some key →
    let before := frames (recs1 ++ bad :: recs2) in
    let file := before ++ good ++ DELIMITER :: post in
    size file < 2 ^ 63 →
    (∃ st st',
       init_steps (length (recs1 ++ bad :: recs2))
         (mkReplay (mkIfstream file 0 false false) HashMap_new 0) = Some st ∧
       gpos (inp st) = length before ∧
       0 <= currByteOffset (idx st) < size before ∧
       init_body st = (Continue, st') ∧
       entries (idx st') !! key =
         Some (mkMetaData (currByteOffset (idx st)) (size good + 1))) ∧
    (Forall (fun d => decode_key d ≠ Some key) (records post) →
     ∀ e dir fs out0,
       fs !! dir = Some file →
       ∃ off out,
         entries (Multi.cache (Multi.Store_new e dir fs).1) !! key =
           Some (mkMetaData off (size good + 1)) ∧
         0 <= off < size before ∧
         Multi.Store_get key out0 (Multi.Store_new e dir fs).1
                         (Multi.Store_new e dir fs).2 = (true, out) ∧
         out = (read_until_delim (drop (Z.to_nat off) file)).1 ∧
         out = take (length out) (drop (Z.to_nat off) file) ∧
         off + size out < size before ∧
         ∃ r pre, r ∈ recs1 ++ bad :: recs2 ∧ r = pre ++ out).
Proof.
  intros recs1 recs2 bad good post key Hnf Hgood Hbad0 Hbad Hkey before file Hsz.
  set (recs := recs1 ++ bad :: recs2) in *.
  destruct (replay_prefix recs (good ++ DELIMITER :: post) Hnf) as (st & Hsteps & Hin & Hcur).
  { fold before file. lia. }
  fold before file in Hsteps, Hin.
  assert (Hlt : indexed_bytes recs < size before).
  { apply (indexed_bytes_lt recs bad); [|done].
    subst recs. rewrite elem_of_app, elem_of_cons. by right; left. }
  pose proof (indexed_bytes_bound recs) as Hbound.
  assert (Hdrop : drop (length before) file = good ++ DELIMITER :: post).
  { subst file. by rewrite drop_app_length. }
  pose proof (init_body_frame st file (length before) Hin good post Hdrop Hgood) as Hbody.
  cbv zeta in Hbody.
  assert (Hgood0 : good ≠ []) by (by intros ->).
  assert (Hlen : Z.of_nat (length before + length good + 1) <= size file).
  { subst file. unfold size. rewrite !length_app. simpl. lia. }
  rewrite bool_decide_eq_false_2, Hkey, recordSize_frame in Hbody by (done || lia).
  set (st' := mkReplay (mkIfstream file (length before + length good + 1) false false)
                (HashMap_add key (Z.of_nat (length good) + 1) (idx st))
                (u64 (curOff st + (Z.of_nat (length good) + 1)))) in *.
  assert (Hentry : entries (idx st') !! key =
                   Some (mkMetaData (currByteOffset (idx st)) (size good + 1))).
  { subst st'. unfold HashMap_add. simpl. by rewrite lookup_insert_eq. }
  split.
  - exists st, st'. split; [exact Hsteps|]. split; [by rewrite Hin|].
    split; [rewrite Hcur; lia|]. split; [exact Hbody | exact Hentry].
  - intros Hpost e dir fs out0 Hfile.
    destruct (Multi_Store_new_existing e dir file fs Hfile) as (r & Hr & ->).
    simpl.
    assert (Hsteps' : init_steps (length recs + 1)
              (mkReplay (mkIfstream file 0 false false) HashMap_new 0) = Some st').
    { apply (init_steps_app _ 1 _ st); [done|]. simpl. rewrite Hin. simpl.
      by rewrite Hbody. }
    destruct (replay_file_after_steps _ _ _ _ _ Hsteps' Hr) as [m Hm].
    assert (Hfinal : entries (idx r) !! key =
                     Some (mkMetaData (currByteOffset (idx st)) (size good + 1))).
    { rewrite (init_loop_keeps_key key m st' r Hm); [done|].
      subst st'. simpl.
      replace (length before + length good + 1)%nat
        with (length (before ++ good ++ [DELIMITER])) by (rewrite !length_app; simpl; lia).
      subst file.
      replace (before ++ good ++ DELIMITER :: post)
        with ((before ++ good ++ [DELIMITER]) ++ post)
        by (by rewrite <- !app_assoc).
      by rewrite drop_app_length. }
    exists (currByteOffset (idx st)).
    eexists. rewrite Hfinal, Hcur. split; [done|]. split; [lia|].
    pose proof (size_nonneg good).
    assert (Hbf : size before <= size file).
    { subst file. rewrite size_app. pose proof (size_nonneg (good ++ DELIMITER :: post)). lia. }
    rewrite (Multi_Store_get_hit key out0 file
               (Multi.mkStore (ofstream_open (open_ok e) dir ofstream_closed fs).1
                              dir (idx r) (curOff r))
               fs _ Hfinal); simpl;
      [| lia | rewrite Hcur; lia | done].
    split; [done|]. rewrite Hcur. split; [done|].
    destruct (read_before_boundary before (good ++ DELIMITER :: post) recs
                (Z.to_nat (indexed_bytes recs)) eq_refl) as [Htake Hend].
    { subst recs. by destruct recs1. }
    { unfold size in Hlt. lia. }
    fold file in Htake, Hend. split; [exact Htake|].
    split; [unfold size in *; lia|].
    apply (read_inside_frames recs (good ++ DELIMITER :: post)); [done|].
    fold before. unfold size in Hlt. lia.
Qed.

(** An instance: the log made of the record [bad]
    followed by the record [12,1]. *)
Lemma C7_offsets_after_skipped_record_witness :
  let bad := str "bad" in
  let good := str "12,1" in
  let before := frames ([] ++ bad :: []) in
  let file := before ++ good ++ DELIMITER :: [] in
  Forall (fun r => DELIMITER ∉ r) ([] ++ bad :: []) ∧
  (DELIMITER ∉ good) ∧
  bad ≠ [] ∧
  decode_key bad = None ∧
  decode_key good = Some 12 ∧
  size file < 2 ^ 63 ∧
  (∃ st st',
     init_steps (length ([] ++ bad :: []))
       (mkReplay (mkIfstream file 0 false false) HashMap_new 0) = Some st ∧
     gpos (inp st) = length before ∧
     0 <= currByteOffset (idx st) < size before ∧
     init_body st = (Continue, st') ∧
     entries (idx st') !! 12 =
       Some (mkMetaData (currByteOffset (idx st)) (size good + 1))) ∧
  (Forall (fun d => decode_key d ≠ Some 12) (records []) →
   ∀ e dir fs out0,
     fs !! dir = Some file →
     ∃ off out,
       entries (Multi.cache (Multi.Store_new e dir fs).1) !! 12 =
         Some (mkMetaData off (size good + 1)) ∧
       0 <= off < size before ∧
       Multi.Store_get 12 out0 (Multi.Store_new e dir fs).1
                       (Multi.Store_new e dir fs).2 = (true, out) ∧
       out = (read_until_delim (drop (Z.to_nat off) file)).1 ∧
       out = take (length out) (drop (Z.to_nat off) file) ∧
       off + size out < size before ∧
       ∃ r pre, r ∈ [] ++ bad :: [] ∧ r = pre ++ out).
Proof.
  intros bad good before file.
  assert (H1 : Forall (fun r => DELIMITER ∉ r) ([] ++ bad :: [])).
  { apply Forall_singleton. by_compute. }
  assert (H2 : DELIMITER ∉ good) by by_compute.
  assert (H3 : bad ≠ []) by discriminate.
  assert (H4 : decode_key bad = None) by reflexivity.
  assert (H5 : decode_key good = Some 12) by reflexivity.
  assert (H6 : size file < 2 ^ 63) by reflexivity.
  do 6 (split; [assumption|]).
  exact (C7_offsets_after_skipped_record [] [] bad good [] 12 H1 H2 H3 H4 H5 H6).
Defined.

(** ** Stores: what an append establishes, what later appends keep *)

Lemma fs_grows_refl (fs : filesystem) : fs_grows fs fs.
Proof. intros path c H. exists []. by rewrite app_nil_r. Qed.

Lemma fs_grows_trans (fs1 fs2 fs3 : filesystem) :
  fs_grows fs1 fs2 → fs_grows fs2 fs3 → fs_grows fs1 fs3.
Proof.
  intros H12 H23 path c Hc.
  destruct (H12 path c Hc) as [m1 H1]. destruct (H23 path _ H1) as [m2 H2].
  exists (m1 ++ m2). by rewrite app_assoc.
Qed.

Lemma fs_grows_append (fs : filesystem) (path more : bytes) :
  fs_grows fs (<[path := file_content fs path ++ more]> fs).
Proof.
  intros q c Hc. destruct (decide (path = q)) as [->|Hne].
  - rewrite lookup_insert_eq. unfold file_content. rewrite Hc. by exists more.
  - rewrite lookup_insert_ne by done. exists []. by rewrite app_nil_r.
Qed.

Lemma ofstream_open_fs (ok : bool) (path : bytes) (o : ofstream) (fs : filesystem) :
  (ofstream_open ok path o fs).2 = fs ∨
  (fs !! path = None ∧ (ofstream_open ok path o fs).2 = <[path := []]> fs).
Proof.
  unfold ofstream_open. destruct (is_open o); [by left|].
  destruct ok; [|by left]. simpl.
  destruct (fs !! path) eqn:E; [by left | by right].
Qed.

Lemma ofstream_flush_fs (ok : bool) (path : bytes) (o : ofstream) (fs : filesystem) :
  (ofstream_flush ok path o fs).2 = fs ∨
  (ofstream_flush ok path o fs).2 = <[path := file_content fs path ++ pending o]> fs.
Proof.
  unfold ofstream_flush. destruct (is_open o && negb (obad o)); [|by left].
  destruct ok; [by right | by left].
Qed.

(** The file system after [Store(dir)]: the same, or with the empty file
    [dir] created. *)
Lemma Multi_Store_new_fs (e : io) (dir : bytes) (fs : filesystem) :
  (Multi.Store_new e dir fs).2 = fs ∨
  (fs !! dir = None ∧ (Multi.Store_new e dir fs).2 = <[dir := []]> fs).
Proof.
  unfold Multi.Store_new, Multi.Store_init, ifstream_open. simpl.
  destruct (fs !! dir) as [c|] eqn:E; simpl.
  - destruct (init_loop _ _); [|by left].
    unfold Multi.Store_open. simpl.
    pose proof (ofstream_open_keeps_file (open_ok e) dir ofstream_closed fs) as Hk.
    destruct (ofstream_open _ _ _ _) as [o fs']. simpl in *.
    left. apply Hk. by eexists.
  - unfold Multi.Store_open. simpl.
    pose proof (ofstream_open_fs (open_ok e) dir ofstream_closed fs) as Hk.
    destruct (ofstream_open _ _ _ _) as [o fs']. simpl in *.
    destruct Hk as [->|[_ ->]]; [by left | by right].
Qed.

Lemma Multi_Store_new_absent (e : io) (dir : bytes) (fs : filesystem) :
  fs !! dir = None →
  Multi.Store_new e dir fs =
    (Multi.mkStore (ofstream_open (open_ok e) dir ofstream_closed fs).1 dir
                   HashMap_new 0,
     (ofstream_open (open_ok e) dir ofstream_closed fs).2).
Proof.
  intros E. unfold Multi.Store_new, Multi.Store_init, ifstream_open. simpl.
  rewrite E. simpl. unfold Multi.Store_open. simpl.
  by destruct (ofstream_open _ _ _ _).
Qed.

Lemma Multi_Store_new_grows (e : io) (dir : bytes) (fs : filesystem) :
  fs_grows fs (Multi.Store_new e dir fs).2.
Proof.
  destruct (Multi_Store_new_fs e dir fs) as [->|[Hn ->]].
  - apply fs_grows_refl.
  - replace (<[dir := []]> fs) with (<[dir := file_content fs dir ++ []]> fs).
    + apply fs_grows_append.
    + unfold file_content. by rewrite Hn.
Qed.

Lemma Multi_Store_new_other (e : io) (dir path : bytes) (fs : filesystem) :
  path ≠ dir → (Multi.Store_new e dir fs).2 !! path = fs !! path.
Proof.
  intros Hne. destruct (Multi_Store_new_fs e dir fs) as [->|[_ ->]]; [done|].
  by rewrite lookup_insert_ne.
Qed.

Lemma Multi_Store_new_file_content (e : io) (dir path : bytes) (fs : filesystem) :
  file_content (Multi.Store_new e dir fs).2 path = file_content fs path.
Proof.
  destruct (Multi_Store_new_fs e dir fs) as [->|[Hn ->]]; [done|].
  unfold file_content. destruct (decide (dir = path)) as [->|Hne].
  - by rewrite lookup_insert_eq, Hn.
  - by rewrite lookup_insert_ne.
Qed.

(** The index of a new store has only keys of records of its file. *)
Lemma Multi_Store_new_no_key (e : io) (dir : bytes) (fs : filesystem) (k : Z) :
  (∀ c, fs !! dir = Some c → no_record_of k c) →
  entries (Multi.cache (Multi.Store_new e dir fs).1) !! k = None.
Proof.
  intros H. destruct (fs !! dir) as [c|] eqn:E.
  - destruct (Multi_Store_new_existing e dir c fs E) as (r & Hr & ->). simpl.
    unfold replay_file in Hr.
    rewrite (init_loop_keeps_key k _ _ _ Hr); [done|]. simpl.
    rewrite drop_0. by apply H.
  - by rewrite Multi_Store_new_absent.
Qed.

(** The entries of the index of a new store have a positive size. *)
Lemma Multi_Store_new_positive (e : io) (dir : bytes) (fs : filesystem) :
  (∀ c, fs !! dir = Some c → size c < 2 ^ 64) →
  positive (Multi.cache (Multi.Store_new e dir fs).1).
Proof.
  intros H. destruct (fs !! dir) as [c|] eqn:E.
  - destruct (Multi_Store_new_existing e dir c fs E) as (r & Hr & ->). simpl.
    unfold replay_file in Hr. unfold positive.
    apply (init_loop_positive _ _ _ Hr); simpl; [by apply H|].
    intros k m. by rewrite lookup_empty.
  - rewrite Multi_Store_new_absent by done. simpl.
    intros k m. simpl. by rewrite lookup_empty.
Qed.

(** A new store on a file that does not exist can take appends. *)
Lemma Multi_Store_new_appendable (e : io) (dir : bytes) (fs : filesystem) :
  fs !! dir = None → open_ok e = true →
  let s := (Multi.Store_new e dir fs).1 in
  appendable (Multi.store s) (Multi.cache s) (Multi.currDir s)
             (Multi.Store_new e dir fs).2 ∧
  Multi.totalBytes s = 0 ∧ Multi.cache s = HashMap_new.
Proof.
  intros E Hok. rewrite Multi_Store_new_absent by done.
  unfold ofstream_open. rewrite Hok, E. simpl.
  unfold appendable. simpl. by rewrite file_content_insert.
Qed.

(** What [Store::set] does to the file system. *)
Lemma Multi_Store_set_fs (e : io) (key : Z) (data : bytes) (n : Z)
    (s : Multi.Store) (fs : filesystem) :
  (Multi.Store_set e key data n s fs).2 = fs ∨
  ∃ more, (Multi.Store_set e key data n s fs).2 =
          <[Multi.currDir s := file_content fs (Multi.currDir s) ++ more]> fs.
Proof.
  destruct (is_open (Multi.store s)) eqn:Ho.
  - rewrite Multi_Store_set_open by done. simpl.
    destruct (ofstream_flush_fs (write_ok e) (Multi.currDir s)
                (ofstream_put data (Multi.store s)) fs) as [->| ->];
      [by left | right; by eexists].
  - rewrite Multi_Store_set_closed by done. by left.
Qed.

Lemma Multi_Store_set_grows (e : io) (key : Z) (data : bytes) (n : Z)
    (s : Multi.Store) (fs : filesystem) :
  fs_grows fs (Multi.Store_set e key data n s fs).2.
Proof.
  destruct (Multi_Store_set_fs e key data n s fs) as [->|[more ->]].
  - apply fs_grows_refl.
  - apply fs_grows_append.
Qed.

Lemma Multi_Store_set_other (e : io) (key : Z) (data path : bytes) (n : Z)
    (s : Multi.Store) (fs : filesystem) :
  path ≠ Multi.currDir s →
  (Multi.Store_set e key data n s fs).2 !! path = fs !! path.
Proof.
  intros Hne. destruct (Multi_Store_set_fs e key data n s fs) as [->|[more ->]];
    [done|]. by rewrite lookup_insert_ne.
Qed.

(** What [Store::set] does to the store: nothing, or one entry for the key
    added to the index. *)
Lemma Multi_Store_set_store (e : io) (key : Z) (data : bytes) (n : Z)
    (s : Multi.Store) (fs : filesystem) :
  let s' := (Multi.Store_set e key data n s fs).1.2 in
  Multi.currDir s' = Multi.currDir s ∧
  (Multi.cache s' = Multi.cache s ∨ Multi.cache s' = HashMap_add key n (Multi.cache s)).
Proof.
  destruct (is_open (Multi.store s)) eqn:Ho.
  - rewrite Multi_Store_set_open by done. simpl. split; [done | by right].
  - rewrite Multi_Store_set_closed by done. simpl. split; [done | by left].
Qed.

(** A successful append on a store that can take it: the entry designates
    the frame, and the store can take the next append. *)
Lemma Multi_Store_set_appendable (e : io) (key : Z) (fr : bytes)
    (s : Multi.Store) (fs : filesystem) :
  let data := fr ++ [DELIMITER] in
  let w := Multi.Store_set e key data (size data) s fs in
  appendable (Multi.store s) (Multi.cache s) (Multi.currDir s) fs →
  write_ok e = true →
  size (file_content fs (Multi.currDir s)) + size data < 2 ^ 63 →
  w.1.1 = true ∧
  appendable (Multi.store w.1.2) (Multi.cache w.1.2) (Multi.currDir w.1.2) w.2 ∧
  holds (Multi.cache w.1.2) (Multi.currDir w.1.2) w.2 key fr ∧
  Multi.currDir w.1.2 = Multi.currDir s ∧
  Multi.totalBytes w.1.2 = u64 (Multi.totalBytes s + size data) ∧
  file_content w.2 (Multi.currDir s) = file_content fs (Multi.currDir s) ++ data.
Proof.
  intros data w (Ho & Hb & Hp & Hcur) Hw Hsz. subst w.
  rewrite Multi_Store_set_open by done. rewrite Hw, put_flush_ok by done.
  rewrite Hp, app_nil_l. simpl.
  pose proof (size_nonneg (file_content fs (Multi.currDir s))) as Hf.
  pose proof (size_nonneg data) as Hd.
  assert (Hd1 : 0 < size data).
  { subst data. rewrite size_app. pose proof (size_nonneg fr).
    change (size [DELIMITER]) with 1. lia. }
  split; [done|]. split; [|split; [|split; [done|split; [done|]]]].
  - unfold appendable. simpl. rewrite file_content_insert, size_app, Hcur.
    repeat split. rewrite u64_small; lia.
  - exists (mkMetaData (currByteOffset (Multi.cache s)) (size data)),
           (file_content fs (Multi.currDir s)), [].
    simpl. rewrite lookup_insert_eq, lookup_insert_eq.
    repeat split; try done; try lia.
  - by rewrite file_content_insert.
Qed.

Lemma holds_grows (h : HashMap) (dir : bytes) (fs fs' : filesystem) (key : Z)
    (fr : bytes) :
  holds h dir fs key fr → fs_grows fs fs' → holds h dir fs' key fr.
Proof.
  intros (m & pre & post & Hm & Hsz & Hoff & Hpre & Hfile) Hg.
  destruct (Hg _ _ Hfile) as [more Hmore].
  exists m, pre, (post ++ more). repeat split; try done.
  rewrite Hmore. by rewrite <- !app_assoc.
Qed.

Lemma holds_add_other (h : HashMap) (dir : bytes) (fs : filesystem)
    (key key' n : Z) (fr : bytes) :
  key' ≠ key → holds h dir fs key fr → holds (HashMap_add key' n h) dir fs key fr.
Proof.
  intros Hne (m & pre & post & Hm & Hrest).
  exists m, pre, post. split; [|done].
  unfold HashMap_add. simpl. by rewrite lookup_insert_ne.
Qed.

(** Reading a key whose entry designates a frame returns the frame. *)
Lemma Multi_Store_get_holds (key : Z) (out fr : bytes) (s : Multi.Store)
    (fs : filesystem) :
  holds (Multi.cache s) (Multi.currDir s) fs key fr →
  DELIMITER ∉ fr →
  Multi.Store_get key out s fs = (true, fr).
Proof.
  intros (m & pre & post & Hm & Hsz & Hoff & Hpre & Hfile) Hfr.
  pose proof (size_nonneg pre).
  rewrite (Multi_Store_get_hit key out _ s fs m Hm Hsz) by (done || lia).
  rewrite Hoff. unfold size. rewrite Nat2Z.id, drop_app_length.
  by rewrite read_until_delim_frame.
Qed.

Lemma Single_Store_get_holds (key : Z) (out fr : bytes) (s : Single.Store)
    (fs : filesystem) :
  holds (Single.cache s) (Single.currDir s) fs key fr →
  DELIMITER ∉ fr →
  Single.Store_get key out s fs = (true, fr).
Proof.
  intros (m & pre & post & Hm & Hsz & Hoff & Hpre & Hfile) Hfr.
  pose proof (size_nonneg pre).
  rewrite (Single_Store_get_hit key out _ s fs m Hm Hsz) by (done || lia).
  rewrite Hoff. unfold size. rewrite Nat2Z.id, drop_app_length.
  by rewrite read_until_delim_frame.
Qed.

Lemma frame_no_delim (key : Z) (value : bytes) :
  DELIMITER ∉ value → DELIMITER ∉ frame key value.
Proof.
  intros Hv. unfold frame. rewrite !not_elem_of_app. split; [|split; [|done]].
  - apply to_string_no_delim.
  - unfold str. simpl. rewrite not_elem_of_cons. split; [done|apply not_elem_of_nil].
Qed.

(** ** Recovery of a clean log

    A log made of complete records that [Store::init] accepts is recovered
    with the index cursor at the end of the file: the store can take
    appends, as a store on a new file can. *)

Lemma indexed_bytes_all (recs : list bytes) :
  Forall (fun r => is_Some (decode_key r)) recs →
  indexed_bytes recs = size (frames recs).
Proof.
  induction 1 as [|r recs [k Hk] Hrecs IH]; [done|].
  rewrite indexed_bytes_cons, frames_cons, size_app, size_cons, Hk, IH. lia.
Qed.

Lemma replay_clean (recs : list bytes) :
  Forall (fun r => DELIMITER ∉ r) recs →
  Forall (fun r => is_Some (decode_key r)) recs →
  size (frames recs) < 2 ^ 64 →
  ∃ r, replay_file (frames recs) HashMap_new = Some r ∧
       currByteOffset (idx r) = size (frames recs).
Proof.
  intros Hnf Hdec Hsz.
  destruct (replay_prefix recs [] Hnf) as (st & Hsteps & Hin & Hcur).
  { by rewrite app_nil_r. }
  rewrite app_nil_r in Hsteps, Hin.
  pose proof (init_body_tail st (frames recs) (length (frames recs)) Hin []) as Hbody.
  rewrite drop_all in Hbody. specialize (Hbody eq_refl (not_elem_of_nil _)).
  cbv zeta in Hbody. rewrite bool_decide_eq_true_2 in Hbody by done.
  eexists. split.
  - apply (replay_file_run (length recs + 1)).
    rewrite (init_steps_loop _ 1 _ _ Hsteps). simpl.
    rewrite Hin. simpl. by rewrite Hbody.
  - simpl. rewrite Hcur. by apply indexed_bytes_all.
Qed.

Lemma Multi_Store_new_clean (e : io) (dir : bytes) (fs : filesystem)
    (recs : list bytes) :
  fs !! dir = Some (frames recs) →
  Forall (fun r => DELIMITER ∉ r) recs →
  Forall (fun r => is_Some (decode_key r)) recs →
  size (frames recs) < 2 ^ 64 →
  open_ok e = true →
  let s := (Multi.Store_new e dir fs).1 in
  appendable (Multi.store s) (Multi.cache s) (Multi.currDir s)
             (Multi.Store_new e dir fs).2.
Proof.
  intros Hfile Hnf Hdec Hsz Hok s. subst s.
  destruct (replay_clean recs Hnf Hdec Hsz) as (r & Hr & Hcur).
  destruct (Multi_Store_new_existing e dir _ fs Hfile) as (r' & Hr' & ->).
  rewrite Hr in Hr'. injection Hr' as <-.
  unfold appendable, ofstream_open. simpl. rewrite Hok, Hfile. simpl.
  unfold file_content. rewrite Hfile. simpl. by repeat split.
Qed.

(** ** One call of [StorageEngine::set] *)

Lemma named_elem (g : Multi.StorageEngine) (s : Multi.Store) (j : Z) :
  named g → s ∈ Multi.activeStores g → Multi.totalFiles g < j →
  Multi.store_path (Multi.prefixFileName g) j ≠ Multi.currDir s.
Proof.
  intros Hn Hs Hj Heq. destruct (Hn s Hs) as (i & Hi & Hdir).
  rewrite Hdir in Heq. apply store_path_inj in Heq. lia.
Qed.

(** The call rotates or not; in both cases the record goes to the store [f]
    that was at the front.  The names of the stores, and the files of the
    sequence numbers not given out yet, are kept. *)
Lemma StorageEngine_set_step (Q : bytes → Prop) (e : io) (key : Z) (value : bytes)
    (g : Multi.StorageEngine) (fs : filesystem) (f : Multi.Store)
    (tail : list Multi.Store) :
  Multi.activeStores g = f :: tail →
  named g → future Q g fs → 0 <= Multi.totalFiles g < 2 ^ 64 - 1 →
  let data := frame key value ++ [DELIMITER] in
  let P := Multi.store_path (Multi.prefixFileName g) (Multi.totalFiles g + 1) in
  let N := Multi.Store_new e P fs in
  let res := Multi.StorageEngine_set e key value g fs in
  ∃ rot : bool,
    let fs1 := if rot then N.2 else fs in
    let w := Multi.Store_set e key data (size data) f fs1 in
    (rot = true ↔ u64 (Multi.totalBytes f + size data) > MAX_FILE_BYTE_SIZE) ∧
    res.1.1 = w.1.1 ∧
    res.2 = w.2 ∧
    Multi.activeStores res.1.2 = (if rot then [N.1] else []) ++ w.1.2 :: tail ∧
    (rot = true → ∀ c, fs !! P = Some c → Q c) ∧
    Multi.prefixFileName res.1.2 = Multi.prefixFileName g ∧
    Multi.totalFiles res.1.2 =
      (if rot then Multi.totalFiles g + 1 else Multi.totalFiles g) ∧
    named res.1.2 ∧
    future Q res.1.2 res.2 ∧
    fs_grows fs res.2.
Proof.
  intros Hs Hnamed Hfut Ht data P N res.
  assert (Hf : f ∈ Multi.activeStores g) by (rewrite Hs; apply list_elem_of_here).
  destruct (Hnamed f Hf) as (jf & Hjf & Hdirf).
  destruct (decide (u64 (Multi.totalBytes f + size data) > MAX_FILE_BYTE_SIZE))
    as [Hrot|Hrot].
  - exists true. subst res.
    rewrite (StorageEngine_set_rotate e key value g fs f tail Hs Hrot).
    rewrite createStore_spec.
    rewrite (u64_small (Multi.totalFiles g + 1)) by lia. fold P N. simpl.
    pose proof (Multi_Store_set_store e key data (size data) f N.2) as [Hdir _].
    cbv zeta in Hdir.
    split; [done|]. split; [done|]. split; [done|]. split; [done|].
    split.
    { intros _ c Hc. apply (Hfut (Multi.totalFiles g + 1) c); [lia | done]. }
    split; [done|]. split; [done|]. split; [|split].
    + intros s Hin. simpl in Hin.
      apply elem_of_cons in Hin as [->|Hin]; simpl.
      { exists (Multi.totalFiles g + 1). split; [lia|].
        subst N. by rewrite Multi_Store_new_currDir. }
      apply elem_of_cons in Hin as [->|Hin]; simpl.
      { exists jf. split; [lia|]. etrans; [apply Hdir | done]. }
      destruct (Hnamed s) as (j & Hj & Hd).
      { rewrite Hs. by apply list_elem_of_further. }
      exists j. split; [lia | done].
    + intros j c Hj. simpl in Hj. simpl.
      rewrite Multi_Store_set_other.
      2:{ rewrite Hdirf. intros Heq. apply store_path_inj in Heq. lia. }
      subst N. rewrite Multi_Store_new_other.
      2:{ subst P. intros Heq. apply store_path_inj in Heq. lia. }
      apply Hfut. lia.
    + eapply fs_grows_trans; [apply Multi_Store_new_grows|].
      apply Multi_Store_set_grows.
  - exists false. subst res.
    assert (Hle : u64 (Multi.totalBytes f + size data) <= MAX_FILE_BYTE_SIZE) by lia.
    rewrite (StorageEngine_set_no_rotate e key value g fs f tail Hs Hle).
    simpl.
    pose proof (Multi_Store_set_store e key data (size data) f fs) as [Hdir _].
    cbv zeta in Hdir.
    split; [split; [done | by intros ?]|].
    split; [done|]. split; [done|]. split; [done|].
    split; [done|]. split; [done|]. split; [done|]. split; [|split].
    + intros s Hin. simpl in Hin.
      apply elem_of_cons in Hin as [->|Hin]; simpl.
      { exists jf. split; [lia|]. etrans; [apply Hdir | done]. }
      apply (Hnamed s). rewrite Hs. by apply list_elem_of_further.
    + intros j c Hj. simpl in Hj. simpl.
      rewrite Multi_Store_set_other.
      2:{ rewrite Hdirf. intros Heq. apply store_path_inj in Heq. lia. }
      by apply Hfut.
    + apply Multi_Store_set_grows.
Qed.

(** A new engine: one store, of sequence number 1. *)
Lemma StorageEngine_new_spec (e : io) (prefix : bytes) (fs : filesystem) :
  let N := Multi.Store_new e (Multi.store_path prefix 1) fs in
  Multi.StorageEngine_new e prefix fs =
    (Multi.mkStorageEngine [N.1] [] prefix [] 1 0, N.2).
Proof.
  intros N. unfold Multi.StorageEngine_new, Multi.StorageEngine_init.
  by rewrite createStore_spec.
Qed.

Lemma StorageEngine_new_inv (Q : bytes → Prop) (e : io) (prefix : bytes)
    (fs : filesystem) :
  (∀ j c, fs !! Multi.store_path prefix j = Some c → Q c) →
  let st := Multi.StorageEngine_new e prefix fs in
  named st.1 ∧ future Q st.1 st.2.
Proof.
  intros HQ st. subst st. rewrite StorageEngine_new_spec. simpl. split.
  - intros s Hin. simpl in Hin. apply list_elem_of_singleton in Hin as ->.
    exists 1. simpl. split; [lia|]. by rewrite Multi_Store_new_currDir.
  - intros j c Hj. simpl in *. rewrite Multi_Store_new_other.
    + apply HQ.
    + intros Heq. apply store_path_inj in Heq. lia.
Qed.

Lemma get_loop_nokey (k : Z) (l : list Multi.Store) (buf : bytes) (fs : filesystem) :
  nokey k l → Multi.get_loop k l buf fs = (None, buf).
Proof.
  induction 1 as [|s l Hs Hl IH]; simpl; [done|].
  by rewrite Multi_Store_get_miss.
Qed.

Lemma run_sets_cons (op : io * Z * bytes) (ops : list (io * Z * bytes))
    (st : Multi.StorageEngine * filesystem) :
  run_sets (op :: ops) st =
  run_sets ops
    ((Multi.StorageEngine_set op.1.1 op.1.2 op.2 st.1 st.2).1.2,
     (Multi.StorageEngine_set op.1.1 op.1.2 op.2 st.1 st.2).2).
Proof.
  unfold run_sets. simpl.
  by destruct (Multi.StorageEngine_set _ _ _ _ _) as [[r g'] fs'].
Qed.

(** ** Keys that were never written *)

Lemma positive_add (h : HashMap) (key n : Z) :
  positive h → 0 < n → positive (HashMap_add key n h).
Proof.
  intros Hp Hn k m. unfold HashMap_add. simpl.
  destruct (decide (key = k)) as [->|Hne].
  - rewrite lookup_insert_eq. by intros [= <-].
  - rewrite lookup_insert_ne by done. apply Hp.
Qed.

Lemma size_frame_pos (key : Z) (value : bytes) :
  0 < size (frame key value ++ [DELIMITER]).
Proof.
  rewrite size_app. pose proof (size_nonneg (frame key value)).
  change (size [DELIMITER]) with 1. lia.
Qed.

(** Calls of [set] with other keys keep the key [k] out of every index, and
    keep the sizes of all entries positive. *)
Lemma run_sets_nokey (k : Z) (ops : list (io * Z * bytes)) :
  ∀ (g : Multi.StorageEngine) (fs : filesystem),
  let Q := fun c => no_record_of k c ∧ size c < 2 ^ 64 in
  Forall (fun op => op.1.2 ≠ k) ops →
  named g → future Q g fs →
  0 <= Multi.totalFiles g →
  Multi.totalFiles g + Z.of_nat (length ops) < 2 ^ 64 - 1 →
  nokey k (Multi.activeStores g) →
  Forall (fun s => positive (Multi.cache s)) (Multi.activeStores g) →
  let st := run_sets ops (g, fs) in
  nokey k (Multi.activeStores st.1) ∧
  Forall (fun s => positive (Multi.cache s)) (Multi.activeStores st.1).
Proof.
  induction ops as [|op ops IH]; intros g fs Q Hops Hnamed Hfut Ht0 Ht Hnk Hpos st.
  - by subst st.
  - subst st. rewrite run_sets_cons. simpl fst. simpl snd.
    apply Forall_cons in Hops as [Hop Hops].
    destruct (Multi.activeStores g) as [|f tail] eqn:Hs.
    { unfold Multi.StorageEngine_set. rewrite Hs. simpl.
      apply IH; try done; [| by rewrite Hs..].
      simpl length in Ht. lia. }
    simpl length in Ht.
    destruct (StorageEngine_set_step Q op.1.1 op.1.2 op.2 g fs f tail Hs Hnamed Hfut)
      as (rot & Hrot & Hres & Hfs & Hlist & HQ & Hprefix & Hfiles & Hnamed' & Hfut' & Hgrow);
      [lia|].
    cbv zeta in *.
    set (res := Multi.StorageEngine_set op.1.1 op.1.2 op.2 g fs) in *.
    set (data := frame op.1.2 op.2 ++ [DELIMITER]) in *.
    set (N := Multi.Store_new op.1.1
                (Multi.store_path (Multi.prefixFileName g) (Multi.totalFiles g + 1)) fs) in *.
    set (w := Multi.Store_set op.1.1 op.1.2 data (size data) f
                (if rot then N.2 else fs)) in *.
    apply Forall_cons in Hnk as [Hnkf Hnkt].
    apply Forall_cons in Hpos as [Hposf Hpost].
    pose proof (Multi_Store_set_store op.1.1 op.1.2 data (size data) f
                  (if rot then N.2 else fs)) as [_ Hcache].
    cbv zeta in Hcache. fold w in Hcache.
    assert (Hw : entries (Multi.cache w.1.2) !! k = None ∧ positive (Multi.cache w.1.2)).
    { destruct Hcache as [-> | ->]; [done|]. split.
      - unfold HashMap_add. simpl. by rewrite lookup_insert_ne.
      - apply positive_add; [done|]. apply size_frame_pos. }
    destruct Hw as [Hwk Hwp].
    apply IH; try done.
    + rewrite Hfiles. destruct rot; lia.
    + rewrite Hfiles. destruct rot; lia.
    + rewrite Hlist. apply Forall_app. split; [|by constructor].
      destruct rot; [|constructor]. apply Forall_singleton.
      apply Multi_Store_new_no_key. intros c Hc. by apply (HQ eq_refl c).
    + rewrite Hlist. apply Forall_app. split; [|by constructor].
      destruct rot; [|constructor]. apply Forall_singleton.
      apply Multi_Store_new_positive. intros c Hc. by apply (HQ eq_refl c).
Qed.

(** C10, as stated, fails: a key that was never passed to [set] can be
    found.  On a new engine in an empty directory the only call is
    [set(5, value)], with a value that holds the delimiter followed by
    [9,y].  In that run [get(9)] returns [nullptr].  After a restart the
    replay of [store_1.txt] takes the second piece of the value for a record
    of key 9, and [get(9)] returns [9,y]. *)
Lemma C10_unwritten_key_found_after_restart :
  let first := Multi.StorageEngine_new io_good (str "store") ∅ in
  let w := Multi.StorageEngine_set io_good 5 value_with_delimiter first.1 first.2 in
  let second := Multi.StorageEngine_new io_good (str "store") w.2 in
  5 ≠ 9 ∧
  w.1.1 = true ∧
  w.2 = {[ str "store_1.txt" := frame 5 value_with_delimiter ++ [DELIMITER] ]} ∧
  (Multi.StorageEngine_get 9 w.1.2 w.2).1 = None ∧
  (Multi.StorageEngine_get 9 second.1 second.2).1 = Some (str "9,y") ∧
  (Multi.StorageEngine_get 9 second.1 second.2).1 ≠ None.
Proof. vm_compute. repeat split; discriminate. Qed.

(** C10 (amended): a key of which the files hold no record is not found.
    The engine is started on a directory in which no file of its sequence
    numbers holds, between two delimiters, a piece that the replay accepts
    with the key [k], and is then called with other keys only.  [get k]
    returns [nullptr].  This negative result cannot be mistaken for an
    indexed record: [Store::get] answers "not found" for an entry of size 0,
    and every entry that was recorded, by an append or by the replay of a
    file, has a positive size. *)
Theorem C10_key_never_written_not_found :
  ∀ (e0 : io) (prefix : bytes) (fs0 : filesystem) (ops : list (io * Z * bytes))
    (k : Z),
    (∀ j c, fs0 !! Multi.store_path prefix j = Some c →
            no_record_of k c ∧ size c < 2 ^ 63) →
    Forall (fun op => op.1.2 ≠ k) ops →
    Z.of_nat (length ops) + 1 < 2 ^ 64 - 1 →
    let st := run_sets ops (Multi.StorageEngine_new e0 prefix fs0) in
    (Multi.StorageEngine_get k st.1 st.2).1 = None ∧
    ∀ s, s ∈ Multi.activeStores st.1 → positive (Multi.cache s).
Proof.
  intros e0 prefix fs0 ops k Hdisk Hops Hlen st.
  set (Q := fun c => no_record_of k c ∧ size c < 2 ^ 64).
  assert (HQ : ∀ j c, fs0 !! Multi.store_path prefix j = Some c → Q c).
  { intros j c Hc. destruct (Hdisk j c Hc). split; [done | lia]. }
  destruct (StorageEngine_new_inv Q e0 prefix fs0 HQ) as [Hnamed Hfut].
  cbv zeta in *.
  destruct (Multi.StorageEngine_new e0 prefix fs0) as [g fs] eqn:Hnew.
  rewrite StorageEngine_new_spec in Hnew. injection Hnew as <- <-.
  destruct (run_sets_nokey k ops _ _ Hops Hnamed Hfut) as [Hnk Hpos].
  - simpl. lia.
  - simpl. lia.
  - simpl. apply Forall_singleton. apply Multi_Store_new_no_key.
    intros c Hc. by destruct (HQ _ c Hc).
  - simpl. apply Forall_singleton. apply Multi_Store_new_positive.
    intros c Hc. by destruct (HQ _ c Hc).
  - fold st in Hnk, Hpos. split.
    + unfold Multi.StorageEngine_get. rewrite (get_loop_nokey k _ [] _ Hnk). done.
    + intros s Hs. by apply (proj1 (Forall_forall _ _) Hpos).
Qed.

(** An instance: key 13, on an engine started on a
    directory that holds a log with key 12, after three writes of keys 11 and
    12. *)
Lemma C10_key_never_written_not_found_witness :
  let ops := [put 11 "11"; put 12 "12-1"; put 12 "12-2"] in
  let st := run_sets ops (Multi.StorageEngine_new io_good (str "store") disk_with_log) in
  (∀ j c, disk_with_log !! Multi.store_path (str "store") j = Some c →
          no_record_of 13 c ∧ size c < 2 ^ 63) ∧
  Forall (fun op => op.1.2 ≠ 13) ops ∧
  Z.of_nat (length ops) + 1 < 2 ^ 64 - 1 ∧
  (Multi.StorageEngine_get 13 st.1 st.2).1 = None ∧
  ∀ s, s ∈ Multi.activeStores st.1 → positive (Multi.cache s).
Proof.
  intros ops st.
  assert (H1 : ∀ j c, disk_with_log !! Multi.store_path (str "store") j = Some c →
                 no_record_of 13 c ∧ size c < 2 ^ 63).
  { assert (Hall : map_Forall (fun _ c => no_record_of 13 c ∧ size c < 2 ^ 63)
                     disk_with_log) by by_compute.
    intros j c. apply Hall. }
  assert (H2 : Forall (fun op => op.1.2 ≠ 13) ops).
  { by_compute. }
  assert (H3 : Z.of_nat (length ops) + 1 < 2 ^ 64 - 1) by reflexivity.
  do 3 (split; [assumption|]).
  exact (C10_key_never_written_not_found io_good (str "store") disk_with_log ops 13
           H1 H2 H3).
Defined.

(** ** Reading back what was written *)

(** The engine finds the key in the newest store that has it. *)
Lemma get_loop_holds (key : Z) (fr : bytes) (newer older : list Multi.Store)
    (s : Multi.Store) (buf : bytes) (fs : filesystem) :
  nokey key newer →
  holds (Multi.cache s) (Multi.currDir s) fs key fr →
  DELIMITER ∉ fr →
  (Multi.get_loop key (newer ++ s :: older) buf fs).1 = Some fr.
Proof.
  intros Hnk Hh Hfr. revert buf.
  induction Hnk as [|n newer Hn Hnk IH]; intros buf; simpl.
  - rewrite (Multi_Store_get_holds key buf fr s fs Hh Hfr). simpl.
    by rewrite c_str_id.
  - rewrite Multi_Store_get_miss by done. apply IH.
Qed.

Lemma StorageEngine_get_holds (key : Z) (fr : bytes) (newer older : list Multi.Store)
    (s : Multi.Store) (g : Multi.StorageEngine) (fs : filesystem) :
  Multi.activeStores g = newer ++ s :: older →
  nokey key newer →
  holds (Multi.cache s) (Multi.currDir s) fs key fr →
  DELIMITER ∉ fr →
  (Multi.StorageEngine_get key g fs).1 = Some fr.
Proof.
  intros Hs Hnk Hh Hfr. unfold Multi.StorageEngine_get. rewrite Hs.
  pose proof (get_loop_holds key fr newer older s [] fs Hnk Hh Hfr) as H.
  by destruct (Multi.get_loop _ _ _ _) as [r buf].
Qed.

(** A successful [set] on an engine whose front store can take the append:
    afterwards the entry of the key designates the frame, in a store that has
    no newer store with the key. *)
Lemma StorageEngine_set_holds (Q : bytes → Prop) (e : io) (key : Z) (value : bytes)
    (g : Multi.StorageEngine) (fs : filesystem) (f : Multi.Store)
    (tail : list Multi.Store) :
  Multi.activeStores g = f :: tail →
  appendable (Multi.store f) (Multi.cache f) (Multi.currDir f) fs →
  named g → future Q g fs → (∀ c, Q c → no_record_of key c) →
  0 <= Multi.totalFiles g < 2 ^ 64 - 1 →
  write_ok e = true →
  size (file_content fs (Multi.currDir f)) + size (frame key value ++ [DELIMITER])
    < 2 ^ 63 →
  let res := Multi.StorageEngine_set e key value g fs in
  res.1.1 = true ∧
  named res.1.2 ∧ future Q res.1.2 res.2 ∧
  Multi.totalFiles g <= Multi.totalFiles res.1.2 <= Multi.totalFiles g + 1 ∧
  ∃ newer s,
    Multi.activeStores res.1.2 = newer ++ s :: tail ∧
    nokey key newer ∧
    holds (Multi.cache s) (Multi.currDir s) res.2 key (frame key value).
Proof.
  intros Hs Happ Hnamed Hfut HQ Ht Hw Hsz res.
  destruct (StorageEngine_set_step Q e key value g fs f tail Hs Hnamed Hfut Ht)
    as (rot & Hrot & Hres & Hfs & Hlist & HQP & Hprefix & Hfiles & Hnamed' & Hfut' & Hgrow).
  cbv zeta in *. fold res in Hres, Hfs, Hlist, Hprefix, Hfiles, Hnamed', Hfut', Hgrow.
  set (N := Multi.Store_new e
              (Multi.store_path (Multi.prefixFileName g) (Multi.totalFiles g + 1)) fs) in *.
  set (fs1 := if rot then N.2 else fs) in *.
  assert (Happ1 : appendable (Multi.store f) (Multi.cache f) (Multi.currDir f) fs1).
  { destruct Happ as (Ho & Hb & Hp & Hcur). repeat split; try done.
    subst fs1. destruct rot; [|done]. subst N.
    by rewrite Multi_Store_new_file_content. }
  assert (Hsz1 : size (file_content fs1 (Multi.currDir f))
                 + size (frame key value ++ [DELIMITER]) < 2 ^ 63).
  { subst fs1. destruct rot; [|done]. subst N.
    by rewrite Multi_Store_new_file_content. }
  destruct (Multi_Store_set_appendable e key (frame key value) f fs1 Happ1 Hw Hsz1)
    as (Hr & _ & Hholds & _).
  split; [rewrite Hres; exact Hr|]. split; [done|]. split; [done|].
  split; [rewrite Hfiles; destruct rot; lia|].
  eexists _, _. split; [exact Hlist|]. split; [|rewrite Hfs; exact Hholds].
  destruct rot; [|constructor]. apply Forall_singleton.
  subst N. apply Multi_Store_new_no_key. intros c Hc. apply HQ. by apply HQP.
Qed.

(** Later calls of [set] with other keys, whatever the operating system
    answers, keep the entry and what it designates. *)
Lemma run_sets_holds (Q : bytes → Prop) (key : Z) (fr : bytes)
    (ops : list (io * Z * bytes)) :
  ∀ (g : Multi.StorageEngine) (fs : filesystem) (newer older : list Multi.Store)
    (s : Multi.Store),
  (∀ c, Q c → no_record_of key c) →
  Forall (fun op => op.1.2 ≠ key) ops →
  named g → future Q g fs →
  0 <= Multi.totalFiles g →
  Multi.totalFiles g + Z.of_nat (length ops) < 2 ^ 64 - 1 →
  Multi.activeStores g = newer ++ s :: older →
  nokey key newer →
  holds (Multi.cache s) (Multi.currDir s) fs key fr →
  let st := run_sets ops (g, fs) in
  ∃ newer' s',
    Multi.activeStores st.1 = newer' ++ s' :: older ∧
    nokey key newer' ∧
    holds (Multi.cache s') (Multi.currDir s') st.2 key fr.
Proof.
  induction ops as [|op ops IH];
    intros g fs newer older s HQ Hops Hnamed Hfut Ht0 Ht Hs Hnk Hh st.
  - subst st. by exists newer, s.
  - subst st. rewrite run_sets_cons. simpl fst. simpl snd.
    apply Forall_cons in Hops as [Hop Hops]. simpl length in Ht.
    assert (Hfront : ∃ f tail, Multi.activeStores g = f :: tail).
    { rewrite Hs. destruct newer; simpl; by eexists _, _. }
    destruct Hfront as (f & tail & Hft).
    destruct (StorageEngine_set_step Q op.1.1 op.1.2 op.2 g fs f tail Hft Hnamed Hfut)
      as (rot & Hrot & Hres & Hfs & Hlist & HQP & Hprefix & Hfiles & Hnamed' & Hfut' & Hgrow);
      [lia|].
    cbv zeta in *.
    set (res := Multi.StorageEngine_set op.1.1 op.1.2 op.2 g fs) in *.
    set (data := frame op.1.2 op.2 ++ [DELIMITER]) in *.
    set (N := Multi.Store_new op.1.1
                (Multi.store_path (Multi.prefixFileName g) (Multi.totalFiles g + 1)) fs) in *.
    set (w := Multi.Store_set op.1.1 op.1.2 data (size data) f
                (if rot then N.2 else fs)) in *.
    pose proof (Multi_Store_set_store op.1.1 op.1.2 data (size data) f
                  (if rot then N.2 else fs)) as [Hdir Hcache].
    cbv zeta in Hdir, Hcache. fold w in Hdir, Hcache.
    assert (HN : nokey key (if rot then [N.1] else [])).
    { destruct rot; [|constructor]. apply Forall_singleton.
      subst N. apply Multi_Store_new_no_key. intros c Hc. apply HQ. by apply HQP. }
    assert (Hh' : holds (Multi.cache s) (Multi.currDir s) res.2 key fr)
      by (by apply (holds_grows _ _ fs)).
    destruct newer as [|n newer]; simpl in Hs; rewrite Hs in Hft;
      injection Hft as <- <-.
    + (* the record of the key is in the front store *)
      apply (IH res.1.2 res.2 (if rot then [N.1] else []) older w.1.2);
        try done.
      * rewrite Hfiles. destruct rot; lia.
      * rewrite Hfiles. destruct rot; lia.
      * rewrite Hdir. destruct Hcache as [-> | ->]; [done|].
        by apply holds_add_other.
    + (* it is in an older store *)
      apply Forall_cons in Hnk as [Hn Hnk].
      apply (IH res.1.2 res.2 ((if rot then [N.1] else []) ++ w.1.2 :: newer) older s);
        try done.
      * rewrite Hfiles. destruct rot; lia.
      * rewrite Hfiles. destruct rot; lia.
      * rewrite Hlist. by rewrite <- app_assoc.
      * apply Forall_app. split; [done|]. constructor; [|done].
        destruct Hcache as [-> | ->]; [done|].
        unfold HashMap_add. simpl. by rewrite lookup_insert_ne.
Qed.

(** A successful [set] in a directory where the files of the next sequence
    numbers do not exist leaves an engine whose front store can take the next
    append. *)
Lemma StorageEngine_set_ready (e : io) (key : Z) (value : bytes)
    (g : Multi.StorageEngine) (fs : filesystem) (f : Multi.Store)
    (tail : list Multi.Store) :
  Multi.activeStores g = f :: tail →
  appendable (Multi.store f) (Multi.cache f) (Multi.currDir f) fs →
  named g → future (fun _ => False) g fs →
  0 <= Multi.totalFiles g < 2 ^ 64 - 1 →
  open_ok e = true → write_ok e = true →
  size (file_content fs (Multi.currDir f)) + size (frame key value ++ [DELIMITER])
    < 2 ^ 63 →
  let res := Multi.StorageEngine_set e key value g fs in
  res.1.1 = true ∧
  named res.1.2 ∧ future (fun _ => False) res.1.2 res.2 ∧
  Multi.totalFiles g <= Multi.totalFiles res.1.2 <= Multi.totalFiles g + 1 ∧
  ∃ f' tail',
    Multi.activeStores res.1.2 = f' :: tail' ∧
    appendable (Multi.store f') (Multi.cache f') (Multi.currDir f') res.2 ∧
    size (file_content res.2 (Multi.currDir f'))
      <= size (file_content fs (Multi.currDir f)) + size (frame key value ++ [DELIMITER]).
Proof.
  intros Hs Happ Hnamed Hfut Ht Ho Hw Hsz res.
  destruct (StorageEngine_set_step (fun _ => False) e key value g fs f tail
              Hs Hnamed Hfut Ht)
    as (rot & Hrot & Hres & Hfs & Hlist & HQP & Hprefix & Hfiles & Hnamed' & Hfut' & Hgrow).
  cbv zeta in *. fold res in Hres, Hfs, Hlist, Hprefix, Hfiles, Hnamed', Hfut', Hgrow.
  set (P := Multi.store_path (Multi.prefixFileName g) (Multi.totalFiles g + 1)) in *.
  set (N := Multi.Store_new e P fs) in *.
  set (fs1 := if rot then N.2 else fs) in *.
  assert (Hfc : file_content fs1 (Multi.currDir f) = file_content fs (Multi.currDir f)).
  { subst fs1. destruct rot; [|done]. subst N. apply Multi_Store_new_file_content. }
  assert (Happ1 : appendable (Multi.store f) (Multi.cache f) (Multi.currDir f) fs1).
  { destruct Happ as (Ho' & Hb & Hp & Hcur). repeat split; try done. by rewrite Hfc. }
  assert (Hsz1 : size (file_content fs1 (Multi.currDir f))
                 + size (frame key value ++ [DELIMITER]) < 2 ^ 63)
    by (by rewrite Hfc).
  destruct (Multi_Store_set_appendable e key (frame key value) f fs1 Happ1 Hw Hsz1)
    as (Hr & Happ' & _ & Hdir & _ & Hfile).
  split; [rewrite Hres; exact Hr|]. split; [done|]. split; [done|].
  split; [rewrite Hfiles; destruct rot; lia|].
  destruct rot.
  - (* rotation: the new store is at the front *)
    assert (HP : fs !! P = None).
    { destruct (fs !! P) as [c|] eqn:E; [|done]. destruct (HQP eq_refl c eq_refl). }
    assert (HneP : P ≠ Multi.currDir f).
    { apply (named_elem g f (Multi.totalFiles g + 1)); [done | | lia].
      rewrite Hs. apply list_elem_of_here. }
    destruct (Multi_Store_new_appendable e P fs HP Ho) as ((Ho1 & Hb1 & Hp1 & Hc1) & _ & Hcache).
    fold N in Ho1, Hb1, Hp1, Hc1, Hcache.
    assert (HdirN : Multi.currDir N.1 = P) by (subst N; apply Multi_Store_new_currDir).
    assert (HfcN : file_content res.2 (Multi.currDir N.1) = file_content N.2 (Multi.currDir N.1)).
    { rewrite Hfs, HdirN. unfold file_content.
      by rewrite Multi_Store_set_other. }
    eexists _, _. split; [exact Hlist|]. split.
    + repeat split; try done. by rewrite HfcN.
    + rewrite HfcN, <- Hc1, Hcache. simpl.
      pose proof (size_nonneg (file_content fs (Multi.currDir f))).
      pose proof (size_frame_pos key value). lia.
  - eexists _, _. split; [exact Hlist|]. split.
    + rewrite Hfs. exact Happ'.
    + rewrite Hfs, Hdir, Hfile, size_app. subst fs1. lia.
Qed.

(** C6, as stated, fails on the value returned: after [Put(11, "11")],
    [Put(12, "12-1")] and [Put(12, "12-2")] on a new engine in an empty
    directory, all three calls succeed, and [Get(12)] returns the frame of
    the later write, [12,12-2], not the value [12-2]. *)
Lemma C6_get_returns_the_frame :
  let '(g, fs) := three_puts in
  (Multi.StorageEngine_get 12 g fs).1 = Some (str "12,12-2") ∧
  (Multi.StorageEngine_get 12 g fs).1 ≠ Some (str "12-2") ∧
  (Multi.StorageEngine_get 11 g fs).1 = Some (str "11,11").
Proof. vm_compute. repeat split; discriminate. Qed.

(** C6 (amended): the later write supersedes the earlier one, and what is
    read back is its frame.  On an engine whose active store can take
    appends, in a directory where the files of the next sequence numbers do
    not exist, [Put(K, v1)] then [Put(K, v2)] both succeed when the operating
    system lets them, and [Get(K)] then returns [ASCII(K) , v2] for a [v2]
    without delimiter byte.  This holds whether the two records go to the
    same store or a rotation takes place at either call. *)
Theorem C6_last_write_wins :
  ∀ (e1 e2 : io) (K : Z) (v1 v2 : bytes) (g : Multi.StorageEngine)
    (fs : filesystem) (f : Multi.Store) (tail : list Multi.Store),
    Multi.activeStores g = f :: tail →
    appendable (Multi.store f) (Multi.cache f) (Multi.currDir f) fs →
    named g → future (fun _ => False) g fs →
    0 <= Multi.totalFiles g < 2 ^ 64 - 2 →
    open_ok e1 = true → write_ok e1 = true → write_ok e2 = true →
    DELIMITER ∉ v2 →
    size (file_content fs (Multi.currDir f))
      + size (frame K v1 ++ [DELIMITER]) + size (frame K v2 ++ [DELIMITER]) < 2 ^ 63 →
    let put1 := Multi.StorageEngine_set e1 K v1 g fs in
    let put2 := Multi.StorageEngine_set e2 K v2 put1.1.2 put1.2 in
    put1.1.1 = true ∧ put2.1.1 = true ∧
    (Multi.StorageEngine_get K put2.1.2 put2.2).1 = Some (frame K v2).
Proof.
  intros e1 e2 K v1 v2 g fs f tail Hs Happ Hnamed Hfut Ht Ho1 Hw1 Hw2 Hv2 Hsz put1 put2.
  pose proof (size_frame_pos K v1) as Hp1. pose proof (size_frame_pos K v2) as Hp2.
  destruct (StorageEngine_set_ready e1 K v1 g fs f tail Hs Happ Hnamed Hfut)
    as (Hr1 & Hnamed1 & Hfut1 & Ht1 & f1 & tail1 & Hs1 & Happ1 & Hsz1);
    try done; [lia | lia |].
  fold put1 in Hr1, Hnamed1, Hfut1, Ht1, Hs1, Happ1, Hsz1.
  destruct (StorageEngine_set_holds (fun _ => False) e2 K v2 put1.1.2 put1.2 f1 tail1
              Hs1 Happ1 Hnamed1 Hfut1)
    as (Hr2 & _ & _ & _ & newer & s & Hs2 & Hnk & Hh); try done; [lia | lia |].
  fold put2 in Hr2, Hs2, Hh.
  split; [done|]. split; [done|].
  apply (StorageEngine_get_holds K (frame K v2) newer tail1 s); try done.
  by apply frame_no_delim.
Qed.

Lemma new_engine_ready :
  let g := new_engine.1 in
  let fs := new_engine.2 in
  let f := (Multi.Store_new io_good (str "store_1.txt") ∅).1 in
  Multi.activeStores g = f :: [] ∧
  appendable (Multi.store f) (Multi.cache f) (Multi.currDir f) fs ∧
  named g ∧ future (fun _ => False) g fs ∧
  Multi.totalFiles g = 1.
Proof.
  intros g fs f.
  destruct (StorageEngine_new_inv (fun _ => False) io_good (str "store") ∅)
    as [Hn Hf].
  { intros j c. by rewrite lookup_empty. }
  split; [reflexivity|]. split; [|split; [exact Hn|split; [exact Hf|reflexivity]]].
  unfold appendable. by vm_compute.
Qed.

(** An instance: a new engine, [set(12, "12-1")] then
    [set(12, "12-2")]. *)
Lemma C6_last_write_wins_witness :
  let g := new_engine.1 in
  let fs := new_engine.2 in
  let f := (Multi.Store_new io_good (str "store_1.txt") ∅).1 in
  let v1 := str "12-1" in
  let v2 := str "12-2" in
  let put1 := Multi.StorageEngine_set io_good 12 v1 g fs in
  let put2 := Multi.StorageEngine_set io_good 12 v2 put1.1.2 put1.2 in
  Multi.activeStores g = f :: [] ∧
  appendable (Multi.store f) (Multi.cache f) (Multi.currDir f) fs ∧
  named g ∧ future (fun _ => False) g fs ∧
  0 <= Multi.totalFiles g < 2 ^ 64 - 2 ∧
  open_ok io_good = true ∧ write_ok io_good = true ∧
  (DELIMITER ∉ v2) ∧
  size (file_content fs (Multi.currDir f))
    + size (frame 12 v1 ++ [DELIMITER]) + size (frame 12 v2 ++ [DELIMITER]) < 2 ^ 63 ∧
  put1.1.1 = true ∧ put2.1.1 = true ∧
  (Multi.StorageEngine_get 12 put2.1.2 put2.2).1 = Some (frame 12 v2).
Proof.
  intros g fs f v1 v2 put1 put2.
  destruct new_engine_ready as (H1 & H2 & H3 & H4 & H5).
  fold g fs f in H1, H2, H3, H4, H5.
  assert (H6 : 0 <= Multi.totalFiles g < 2 ^ 64 - 2) by (rewrite H5; lia).
  assert (H7 : open_ok io_good = true) by reflexivity.
  assert (H8 : write_ok io_good = true) by reflexivity.
  assert (H9 : DELIMITER ∉ v2) by by_compute.
  assert (H10 : size (file_content fs (Multi.currDir f))
    + size (frame 12 v1 ++ [DELIMITER]) + size (frame 12 v2 ++ [DELIMITER]) < 2 ^ 63)
    by reflexivity.
  split; [exact H1|]. split; [exact H2|]. split; [exact H3|]. split; [exact H4|].
  split; [exact H6|]. split; [exact H7|]. split; [exact H8|]. split; [exact H9|].
  split; [exact H10|].
  exact (C6_last_write_wins io_good io_good 12 v1 v2 g fs f [] H1 H2 H3 H4 H6 H7 H8 H8 H9 H10).
Defined.

(** ** The first program: one store *)

(** [Store::set] of the first program is [Store::set] of the second one on
    the frame it builds. *)
Lemma Single_Store_set_lift (e : io) (key : Z) (value : bytes) (s : Single.Store)
    (fs : filesystem) :
  let data := frame key value ++ [DELIMITER] in
  let w := Multi.Store_set e key data (size data) (lift s) fs in
  Single.Store_set e key value s fs = (w.1.1, lower w.1.2, w.2).
Proof.
  intros data w. subst w. destruct (is_open (Single.store s)) eqn:Ho.
  - rewrite Single_Store_set_open, Multi_Store_set_open by done. done.
  - rewrite Single_Store_set_closed, Multi_Store_set_closed by done.
    by destruct s.
Qed.

Lemma run_single_sets_cons (op : io * Z * bytes) (ops : list (io * Z * bytes))
    (st : Single.Store * filesystem) :
  run_single_sets (op :: ops) st =
  run_single_sets ops
    ((Single.Store_set op.1.1 op.1.2 op.2 st.1 st.2).1.2,
     (Single.Store_set op.1.1 op.1.2 op.2 st.1 st.2).2).
Proof.
  unfold run_single_sets. simpl.
  by destruct (Single.Store_set _ _ _ _ _) as [[r s'] fs'].
Qed.

(** Later appends with other keys keep the entry and what it designates. *)
Lemma run_single_sets_holds (key : Z) (fr : bytes) (ops : list (io * Z * bytes)) :
  ∀ (s : Single.Store) (fs : filesystem),
  Forall (fun op => op.1.2 ≠ key) ops →
  holds (Single.cache s) (Single.currDir s) fs key fr →
  let st := run_single_sets ops (s, fs) in
  holds (Single.cache st.1) (Single.currDir st.1) st.2 key fr.
Proof.
  induction ops as [|op ops IH]; intros s fs Hops Hh st; [done|].
  subst st. rewrite run_single_sets_cons. simpl fst. simpl snd.
  apply Forall_cons in Hops as [Hop Hops].
  rewrite Single_Store_set_lift. simpl.
  set (data := frame op.1.2 op.2 ++ [DELIMITER]).
  pose proof (Multi_Store_set_store op.1.1 op.1.2 data (size data) (lift s) fs)
    as [Hdir Hcache].
  pose proof (Multi_Store_set_grows op.1.1 op.1.2 data (size data) (lift s) fs)
    as Hgrow.
  cbv zeta in Hdir, Hcache.
  apply IH; [done|]. simpl. rewrite Hdir. simpl.
  apply (holds_grows _ _ fs); [|done].
  destruct Hcache as [-> | ->]; [done|]. by apply holds_add_other.
Qed.

(** C2, as stated, fails on the value returned: after the calls of [main]
    of the first program, [get(11)] succeeds and returns the frame [11,11],
    not the value [11] that was written; the same holds in the second
    program. *)
Lemma C2_get_returns_key_and_value :
  let '(s, fs) := single_main in
  let '(g, fs') := three_puts in
  Single.Store_get 11 [] s fs = (true, str "11,11") ∧
  Single.Store_get 11 [] s fs ≠ (true, str "11") ∧
  (Multi.StorageEngine_get 11 g fs').1 = Some (str "11,11") ∧
  (Multi.StorageEngine_get 11 g fs').1 ≠ Some (str "11").
Proof. vm_compute. repeat split; discriminate. Qed.

(** C2 (amended): what is read back is the frame without its delimiter,
    the decimal key and a comma before the value, and nothing more.

    - First program: on a store that can take appends, [set(key, value)]
      succeeds when the write does; after any later calls of [set] with other
      keys, [get(key)] returns [true] and [ASCII(key) , value], for a value
      without delimiter byte.
    - Second program: the same for [StorageEngine::set] and
      [StorageEngine::get], across rotations, when the files of the sequence
      numbers that are given out later have no record with the key. *)
Theorem C2_get_after_put :
  (∀ (e : io) (key : Z) (value out : bytes) (s : Single.Store) (fs : filesystem)
     (ops : list (io * Z * bytes)),
     appendable (Single.store s) (Single.cache s) (Single.currDir s) fs →
     write_ok e = true →
     DELIMITER ∉ value →
     size (file_content fs (Single.currDir s)) + size (frame key value ++ [DELIMITER])
       < 2 ^ 63 →
     Forall (fun op => op.1.2 ≠ key) ops →
     let w := Single.Store_set e key value s fs in
     let st := run_single_sets ops (w.1.2, w.2) in
     w.1.1 = true ∧
     Single.Store_get key out st.1 st.2 = (true, frame key value)) ∧
  (∀ (e : io) (key : Z) (value : bytes) (g : Multi.StorageEngine) (fs : filesystem)
     (f : Multi.Store) (tail : list Multi.Store) (ops : list (io * Z * bytes)),
     Multi.activeStores g = f :: tail →
     appendable (Multi.store f) (Multi.cache f) (Multi.currDir f) fs →
     named g → future (no_record_of key) g fs →
     0 <= Multi.totalFiles g →
     Multi.totalFiles g + Z.of_nat (length ops) + 1 < 2 ^ 64 - 1 →
     write_ok e = true →
     DELIMITER ∉ value →
     size (file_content fs (Multi.currDir f)) + size (frame key value ++ [DELIMITER])
       < 2 ^ 63 →
     Forall (fun op => op.1.2 ≠ key) ops →
     let w := Multi.StorageEngine_set e key value g fs in
     let st := run_sets ops (w.1.2, w.2) in
     w.1.1 = true ∧
     (Multi.StorageEngine_get key st.1 st.2).1 = Some (frame key value)).
Proof.
  split.
  - intros e key value out s fs ops Happ Hw Hv Hsz Hops w st.
    subst st w. rewrite Single_Store_set_lift. simpl.
    destruct (Multi_Store_set_appendable e key (frame key value) (lift s) fs)
      as (Hr & _ & Hh & _); try done.
    split; [done|].
    apply Single_Store_get_holds; [|by apply frame_no_delim].
    by apply run_single_sets_holds.
  - intros e key value g fs f tail ops Hs Happ Hnamed Hfut Ht0 Ht Hw Hv Hsz Hops w st.
    destruct (StorageEngine_set_holds (no_record_of key) e key value g fs f tail
                Hs Happ Hnamed Hfut)
      as (Hr & Hnamed1 & Hfut1 & Ht1 & newer & s & Hs1 & Hnk & Hh); try done; [lia|].
    fold w in Hr, Hnamed1, Hfut1, Ht1, Hs1, Hnk, Hh.
    split; [done|].
    destruct (run_sets_holds (no_record_of key) key (frame key value) ops
                w.1.2 w.2 newer tail s)
      as (newer' & s' & Hs' & Hnk' & Hh'); try done; [lia | lia |].
    fold st in Hs', Hh'.
    apply (StorageEngine_get_holds key (frame key value) newer' tail s'); try done.
    by apply frame_no_delim.
Qed.

(** An instance: the calls of [main], [set(11, "11")] on a new
    store and on a new engine, followed by the two writes of key 12. *)
Lemma C2_get_after_put_witness :
  let s := fresh_single_log.1 in
  let fs := fresh_single_log.2 in
  let value := str "11" in
  let ops := [put 12 "12-1"; put 12 "12-2"] in
  let w := Single.Store_set io_good 11 value s fs in
  let st := run_single_sets ops (w.1.2, w.2) in
  let g := new_engine.1 in
  let fs' := new_engine.2 in
  let f := (Multi.Store_new io_good (str "store_1.txt") ∅).1 in
  let w' := Multi.StorageEngine_set io_good 11 value g fs' in
  let st' := run_sets ops (w'.1.2, w'.2) in
  (appendable (Single.store s) (Single.cache s) (Single.currDir s) fs ∧
   write_ok io_good = true ∧
   (DELIMITER ∉ value) ∧
   size (file_content fs (Single.currDir s)) + size (frame 11 value ++ [DELIMITER])
     < 2 ^ 63 ∧
   Forall (fun op => op.1.2 ≠ 11) ops ∧
   w.1.1 = true ∧
   Single.Store_get 11 [] st.1 st.2 = (true, frame 11 value)) ∧
  (Multi.activeStores g = f :: [] ∧
   appendable (Multi.store f) (Multi.cache f) (Multi.currDir f) fs' ∧
   named g ∧ future (no_record_of 11) g fs' ∧
   0 <= Multi.totalFiles g ∧
   Multi.totalFiles g + Z.of_nat (length ops) + 1 < 2 ^ 64 - 1 ∧
   size (file_content fs' (Multi.currDir f)) + size (frame 11 value ++ [DELIMITER])
     < 2 ^ 63 ∧
   w'.1.1 = true ∧
   (Multi.StorageEngine_get 11 st'.1 st'.2).1 = Some (frame 11 value)).
Proof.
  intros s fs value ops w st g fs' f w' st'.
  assert (H1 : appendable (Single.store s) (Single.cache s) (Single.currDir s) fs)
    by (unfold appendable; by vm_compute).
  assert (H2 : write_ok io_good = true) by reflexivity.
  assert (H3 : DELIMITER ∉ value) by by_compute.
  assert (H4 : size (file_content fs (Single.currDir s))
               + size (frame 11 value ++ [DELIMITER]) < 2 ^ 63) by reflexivity.
  assert (H5 : Forall (fun op => op.1.2 ≠ 11) ops)
    by by_compute.
  destruct new_engine_ready as (G1 & G2 & G3 & _ & G5).
  fold g fs' f in G1, G2, G3, G5.
  assert (G4 : future (no_record_of 11) g fs').
  { apply (StorageEngine_new_inv (no_record_of 11) io_good (str "store") ∅).
    intros j c. by rewrite lookup_empty. }
  assert (G6 : 0 <= Multi.totalFiles g) by (rewrite G5; lia).
  assert (G7 : Multi.totalFiles g + Z.of_nat (length ops) + 1 < 2 ^ 64 - 1)
    by (rewrite G5; reflexivity).
  assert (G8 : size (file_content fs' (Multi.currDir f))
               + size (frame 11 value ++ [DELIMITER]) < 2 ^ 63) by reflexivity.
  split.
  - do 5 (split; [assumption|]).
    exact (proj1 C2_get_after_put io_good 11 value [] s fs ops H1 H2 H3 H4 H5).
  - split; [exact G1|]. split; [exact G2|]. split; [exact G3|]. split; [exact G4|].
    split; [exact G6|]. split; [exact G7|]. split; [exact G8|].
    exact (proj2 C2_get_after_put io_good 11 value g fs' f [] ops
             G1 G2 G3 G4 G6 G7 H2 H3 G8 H5).
Defined.

(** * Further properties *)

(** ** Keys: [std::to_string] and [std::stoi] *)

Lemma leading_digits_uint (d : Decimal.uint) :
  leading_digits (list_ascii_of_string (NilEmpty.string_of_uint d)) = uint_digits d.
Proof. induction d; simpl; by rewrite ?IHd. Qed.

Lemma fold_digits_acc (d : Decimal.uint) (acc : Pos.t) :
  fold_left (fun a x => 10 * a + Z.of_nat x) (uint_digits d) (Z.pos acc)
  = Z.pos (Pos.of_uint_acc d acc).
Proof.
  revert acc. induction d; intros acc; simpl; [done| ..];
    rewrite <- IHd; f_equal; lia.
Qed.

Lemma digits_value_uint (d : Decimal.uint) :
  digits_value (uint_digits d) = Z.of_N (Pos.of_uint d).
Proof.
  unfold digits_value. induction d; simpl; [done | done | ..];
    by rewrite <- fold_digits_acc.
Qed.

Lemma to_uint_digits_nonempty (p : Pos.t) : uint_digits (Pos.to_uint p) ≠ [].
Proof.
  pose proof (DecimalPos.Unsigned.to_uint_nonnil p) as H.
  by destruct (Pos.to_uint p).
Qed.

(** The first character of a decimal number is a digit: neither a space nor
    a sign. *)
Lemma string_of_uint_head (d : Decimal.uint) :
  d ≠ Decimal.Nil →
  ∃ c s, list_ascii_of_string (NilEmpty.string_of_uint d) = c :: s ∧
         Ascii.is_space c = false ∧ c ≠ "-"%char ∧ c ≠ "+"%char.
Proof.
  intros Hd. destruct d; [done| ..]; simpl; eexists _, _;
    (split; [reflexivity|]); repeat split; discriminate.
Qed.

Lemma stoi_head (c : ascii) (s : bytes) :
  Ascii.is_space c = false → c ≠ "-"%char → c ≠ "+"%char →
  stoi (c :: s) =
    match leading_digits (c :: s) with
    | [] => None
    | ds => if decide (INT_MIN <= digits_value ds <= INT_MAX)
            then Some (digits_value ds) else None
    end.
Proof.
  intros Hsp Hm Hp. unfold stoi. cbn [skip_spaces]. rewrite Hsp.
  by rewrite decide_False, decide_False by done.
Qed.

Lemma stoi_uint (d : Decimal.uint) :
  d ≠ Decimal.Nil →
  INT_MIN <= Z.of_N (Pos.of_uint d) <= INT_MAX →
  stoi (list_ascii_of_string (NilEmpty.string_of_uint d)) = Some (Z.of_N (Pos.of_uint d)).
Proof.
  intros Hd Hr. destruct (string_of_uint_head d Hd) as (c & s & Hs & Hsp & Hm & Hp).
  rewrite Hs, stoi_head, <- Hs, leading_digits_uint by done.
  destruct (uint_digits d) as [|x l] eqn:Hl.
  { destruct d; done. }
  cbv iota zeta. rewrite <- Hl, digits_value_uint. by rewrite decide_True.
Qed.

Lemma stoi_neg_uint (d : Decimal.uint) :
  d ≠ Decimal.Nil →
  INT_MIN <= - Z.of_N (Pos.of_uint d) <= INT_MAX →
  stoi ("-"%char :: list_ascii_of_string (NilEmpty.string_of_uint d))
    = Some (- Z.of_N (Pos.of_uint d)).
Proof.
  intros Hd Hr. unfold stoi. simpl skip_spaces. cbv iota beta.
  rewrite decide_True by done.
  rewrite leading_digits_uint.
  destruct (uint_digits d) as [|x l] eqn:Hl.
  { destruct d; done. }
  cbv iota zeta. rewrite <- Hl, digits_value_uint. by rewrite decide_True.
Qed.

(** [std::stoi] reads back what [std::to_string] prints, for every [int]. *)
Lemma stoi_to_string (z : Z) :
  INT_MIN <= z <= INT_MAX → stoi (to_string z) = Some z.
Proof.
  intros Hz. unfold to_string. destruct z as [|p|p]; simpl.
  - reflexivity.
  - pose proof (DecimalPos.Unsigned.to_uint_nonnil p) as Hn.
    pose proof (DecimalPos.Unsigned.of_to p) as Hof.
    assert (Hs : NilZero.string_of_uint (Pos.to_uint p)
                 = NilEmpty.string_of_uint (Pos.to_uint p))
      by (by destruct (Pos.to_uint p)).
    rewrite Hs, stoi_uint; rewrite ?Hof; done.
  - pose proof (DecimalPos.Unsigned.to_uint_nonnil p) as Hn.
    pose proof (DecimalPos.Unsigned.of_to p) as Hof.
    assert (Hs : NilZero.string_of_uint (Pos.to_uint p)
                 = NilEmpty.string_of_uint (Pos.to_uint p))
      by (by destruct (Pos.to_uint p)).
    rewrite Hs, stoi_neg_uint; rewrite ?Hof; done.
Qed.

Lemma string_of_uint_no_comma (d : Decimal.uint) :
  find_comma (list_ascii_of_string (NilEmpty.string_of_uint d) ++ ","%char :: [])
  = Some (length (list_ascii_of_string (NilEmpty.string_of_uint d))).
Proof. induction d; simpl; [done| ..]; by rewrite IHd. Qed.

Lemma find_comma_app (a b : bytes) (n : nat) :
  find_comma a = Some n → find_comma (a ++ b) = Some n.
Proof.
  revert n. induction a as [|c a IH]; intros n; simpl; [done|].
  case_decide; [done|].
  destruct (find_comma a) as [m|]; simpl; [|done].
  intros [= <-]. by rewrite (IH m).
Qed.

Lemma find_comma_to_string (z : Z) (rest : bytes) :
  find_comma (to_string z ++ ","%char :: rest) = Some (length (to_string z)).
Proof.
  replace (to_string z ++ ","%char :: rest)
    with ((to_string z ++ ","%char :: []) ++ rest) by (by rewrite <- app_assoc).
  apply find_comma_app. unfold to_string.
  assert (Hu : ∀ d, find_comma (list_ascii_of_string (NilZero.string_of_uint d) ++ ","%char :: [])
                    = Some (length (list_ascii_of_string (NilZero.string_of_uint d)))).
  { intros d. pose proof (string_of_uint_no_comma d). by destruct d. }
  destruct (Z.to_int z) as [d|d]; simpl; [apply Hu|].
  by rewrite Hu.
Qed.

(** The frame of a key is accepted by [Store::init] with that key. *)
Lemma decode_key_frame (key : Z) (value : bytes) :
  INT_MIN <= key <= INT_MAX → decode_key (frame key value) = Some key.
Proof.
  intros Hk. unfold decode_key, frame. unfold str. simpl.
  rewrite find_comma_to_string, take_app_length. by apply stoi_to_string.
Qed.

(** ** The replay loop, record by record *)

Lemma index_records_cons (r : bytes) (recs : list bytes) (h : HashMap) :
  index_records (r :: recs) h = index_records recs (index_record h r).
Proof. reflexivity. Qed.

Lemma offsets_after_cons (r : bytes) (recs : list bytes) (p off : Z) :
  offsets_after (r :: recs) p off =
  offsets_after recs (offset_record (p, off) r).1 (offset_record (p, off) r).2.
Proof.
  unfold offsets_after. cbn [fold_left].
  by destruct (offset_record (p, off) r).
Qed.

Lemma offsets_after_pos (recs : list bytes) (p off : Z) :
  (offsets_after recs p off).1 = p + size (frames recs).
Proof.
  revert p off. induction recs as [|r recs IH]; intros p off.
  - simpl. rewrite frames_nil. change (size []) with 0. lia.
  - rewrite offsets_after_cons, IH, frames_cons, size_app, size_cons. simpl. lia.
Qed.

(** The iterations of the loop over a sequence of complete records: the
    index and [currentOffset] they leave. *)
Lemma init_steps_frames_state (recs : list bytes) :
  ∀ (st : replay) (buf : bytes) (p : nat) (rest : bytes),
  Forall (fun r => DELIMITER ∉ r) recs →
  inp st = mkIfstream buf p false false →
  drop p buf = frames recs ++ rest →
  size buf < 2 ^ 64 →
  ∃ st',
    init_steps (length recs) st = Some st' ∧
    inp st' = mkIfstream buf (p + length (frames recs)) false false ∧
    idx st' = index_records recs (idx st) ∧
    curOff st' = (offsets_after recs (Z.of_nat p) (curOff st)).2.
Proof.
  induction recs as [|r recs IH]; intros st buf p rest Hnf Hin Hdrop Hsz.
  - exists st. simpl. rewrite Nat.add_0_r. by repeat split.
  - apply Forall_cons in Hnf as [Hr Hnf].
    rewrite frames_cons, <- app_assoc, <- app_comm_cons in Hdrop.
    pose proof (init_body_frame st buf p Hin r _ Hdrop Hr) as Hbody.
    cbv zeta in Hbody.
    assert (Hlen : Z.of_nat (p + length r + 1) <= size buf).
    { apply (f_equal length) in Hdrop. rewrite length_drop, length_app in Hdrop.
      simpl in Hdrop. unfold size. lia. }
    rewrite recordSize_frame in Hbody by lia.
    assert (Hdrop' : drop (p + length r + 1) buf = frames recs ++ rest).
    { replace (p + length r + 1)%nat with (p + (length r + 1))%nat by lia.
      rewrite <- drop_drop, Hdrop.
      replace (r ++ DELIMITER :: frames recs ++ rest)
        with ((r ++ [DELIMITER]) ++ frames recs ++ rest)
        by (by rewrite <- app_assoc).
      apply drop_app_length'. rewrite length_app. simpl. lia. }
    set (in2 := mkIfstream buf (p + length r + 1) false false) in *.
    assert (Hst1 : ∃ st1,
      init_body st = (Continue, st1) ∧ inp st1 = in2 ∧
      idx st1 = index_record (idx st) r ∧
      curOff st1 = (offset_record (Z.of_nat p, curOff st) r).2).
    { rewrite Hbody. unfold index_record, offset_record. simpl.
      destruct (bool_decide (r = [])) eqn:Hr0.
      - apply bool_decide_eq_true in Hr0. subst r.
        eexists. split; [done|]. by repeat split.
      - destruct (decode_key r) as [key|].
        + eexists. split; [done|]. by repeat split.
        + eexists. split; [done|]. repeat split; try done. simpl.
          f_equal. unfold size. lia. }
    destruct Hst1 as (st1 & Hb1 & Hin1 & Hi1 & Ho1).
    destruct (IH st1 buf (p + length r + 1)%nat rest Hnf Hin1 Hdrop' Hsz)
      as (st' & Hsteps & Hin' & Hi' & Ho').
    exists st'. split; [|split; [|split]].
    + simpl. rewrite Hin. simpl. by rewrite Hb1.
    + rewrite Hin'. f_equal. rewrite frames_cons, length_app. simpl. lia.
    + by rewrite Hi', Hi1.
    + rewrite Ho', Ho1, offsets_after_cons.
      replace (Z.of_nat (p + length r + 1))
        with (offset_record (Z.of_nat p, curOff st) r).1; [done|].
      unfold offset_record, size. simpl. lia.
Qed.

(** The whole replay of a file, made of complete records and of a last
    piece without delimiter. *)
Lemma replay_file_state (recs : list bytes) (tail : bytes) (cache : HashMap) :
  Forall (fun r => DELIMITER ∉ r) recs →
  DELIMITER ∉ tail →
  size (frames recs ++ tail) < 2 ^ 64 →
  ∃ r,
    replay_file (frames recs ++ tail) cache = Some r ∧
    gpos (inp r) = length (frames recs ++ tail) ∧
    eofbit (inp r) = true ∧
    idx r = index_tail tail (size (frames recs)) (index_records recs cache) ∧
    curOff r = offset_tail tail (size (frames recs)) (offsets_after recs 0 0).2.
Proof.
  intros Hnf Htail Hsz.
  set (file := frames recs ++ tail) in *.
  destruct (init_steps_frames_state recs
              (mkReplay (mkIfstream file 0 false false) cache 0) file 0 tail
              Hnf eq_refl eq_refl Hsz) as (st & Hsteps & Hin & Hidx & Hoff).
  simpl in Hin, Hidx, Hoff.
  assert (Hdrop : drop (length (frames recs)) file = tail)
    by (subst file; by rewrite drop_app_length).
  pose proof (init_body_tail st file (length (frames recs)) Hin tail Hdrop Htail)
    as Hbody.
  cbv zeta in Hbody.
  assert (Hlen : (length (frames recs) + length tail = length file)%nat)
    by (subst file; by rewrite length_app).
  unfold index_tail, offset_tail.
  destruct (bool_decide (tail = [])) eqn:Ht.
  - eexists. split.
    + apply (replay_file_run (length recs + 1)).
      rewrite (init_steps_loop _ 1 _ _ Hsteps). simpl.
      rewrite Hin. simpl. by rewrite Hbody.
    + simpl. rewrite Hlen, Hidx, Hoff. by repeat split.
  - destruct (decode_key tail) as [key|] eqn:Hk.
    + eexists. split.
      * apply (replay_file_run (length recs + 2)).
        rewrite (init_steps_loop _ 2 _ _ Hsteps). simpl.
        rewrite Hin. simpl. by rewrite Hbody.
      * simpl. rewrite Hlen, Hidx, Hoff. by repeat split.
    + eexists. split.
      * apply (replay_file_run (length recs + 2)).
        rewrite (init_steps_loop _ 2 _ _ Hsteps). simpl.
        rewrite Hin. simpl. by rewrite Hbody.
      * simpl. rewrite Hlen, Hidx. by repeat split.
Qed.

(** ** The index *)

Lemma u64_add_l (a b : Z) : u64 (u64 a + b) = u64 (a + b).
Proof. unfold u64. by rewrite Zplus_mod_idemp_l. Qed.

Lemma HashMap_adds_cursor (l : list (Z * Z)) :
  ∀ (h : HashMap) (c : Z),
  currByteOffset h = u64 c →
  currByteOffset (HashMap_adds l h) = u64 (c + sum_sizes l).
Proof.
  induction l as [|[k n] l IH]; intros h c Hc; simpl.
  - by rewrite Z.add_0_r.
  - rewrite (IH _ (c + n)); [f_equal; lia|].
    simpl. by rewrite Hc, u64_add_l.
Qed.

Lemma HashMap_adds_other (l : list (Z * Z)) (k : Z) :
  ∀ h, k ∉ l.*1 → entries (HashMap_adds l h) !! k = entries h !! k.
Proof.
  induction l as [|[k' n] l IH]; intros h Hk; simpl; [done|].
  simpl in Hk. apply not_elem_of_cons in Hk as [Hne Hk].
  rewrite IH by done. simpl. by rewrite lookup_insert_ne.
Qed.

Lemma HashMap_adds_app (l1 l2 : list (Z * Z)) (h : HashMap) :
  HashMap_adds (l1 ++ l2) h = HashMap_adds l2 (HashMap_adds l1 h).
Proof. unfold HashMap_adds. by rewrite fold_left_app. Qed.

(** X1: the index after a sequence of [add] on an index that was [reset].
    The entry of a key is the one of its last [add]: its offset is the sum of
    the sizes added before it, its size the one given; [currentOffset()] is
    the sum of all the sizes; both sums are taken modulo 2^64.  A key that
    was not added gets [{0, 0}]. *)
Theorem X1_index_after_adds :
  ∀ (h0 : HashMap) (before after : list (Z * Z)) (key n : Z),
    key ∉ after.*1 →
    let h := HashMap_adds (before ++ (key, n) :: after) (HashMap_reset h0) in
    HashMap_get key h = mkMetaData (u64 (sum_sizes before)) n ∧
    currentOffset h = u64 (sum_sizes (before ++ (key, n) :: after)) ∧
    ∀ k, k ∉ (before ++ (key, n) :: after).*1 → HashMap_get k h = mkMetaData 0 0.
Proof.
  intros h0 before after key n Hkey h. subst h. split; [|split].
  - rewrite HashMap_adds_app. unfold HashMap_get. simpl.
    rewrite HashMap_adds_other by done. simpl. rewrite lookup_insert_eq.
    f_equal. by apply (HashMap_adds_cursor before (HashMap_reset h0) 0).
  - unfold currentOffset.
    by rewrite (HashMap_adds_cursor _ (HashMap_reset h0) 0).
  - intros k Hk. unfold HashMap_get. rewrite HashMap_adds_other by done.
    simpl. by rewrite lookup_empty.
Qed.

(** An instance: [add(11, 6); add(12, 8); add(12, 8)]. *)
Lemma X1_index_after_adds_witness :
  let h := HashMap_adds ([(11, 6); (12, 8)] ++ (12, 8) :: []) (HashMap_reset HashMap_new) in
  (12 ∉ ([] : list (Z * Z)).*1) ∧
  HashMap_get 12 h = mkMetaData (u64 (sum_sizes [(11, 6); (12, 8)])) 8 ∧
  currentOffset h = u64 (sum_sizes ([(11, 6); (12, 8)] ++ (12, 8) :: [])) ∧
  ∀ k, k ∉ ([(11, 6); (12, 8)] ++ (12, 8) :: []).*1 → HashMap_get k h = mkMetaData 0 0.
Proof.
  intros h.
  assert (H : 12 ∉ ([] : list (Z * Z)).*1) by apply not_elem_of_nil.
  split; [exact H|].
  exact (X1_index_after_adds HashMap_new [(11, 6); (12, 8)] [] 12 8 H).
Defined.

(** ** The key of a record *)

(** X2: the key of a frame is read back by replay.  For every key of the
    range of [int], [std::stoi] parses what [std::to_string] printed, and the
    frame that [set] builds for the key is accepted by [Store::init] with
    that key, whatever the value. *)
Theorem X2_key_round_trip :
  ∀ (key : Z) (value : bytes),
    INT_MIN <= key <= INT_MAX →
    stoi (to_string key) = Some key ∧
    find_comma (frame key value) = Some (length (to_string key)) ∧
    decode_key (frame key value) = Some key.
Proof.
  intros key value Hk. split; [by apply stoi_to_string|]. split.
  - unfold frame, str. simpl. apply find_comma_to_string.
  - by apply decode_key_frame.
Qed.

(** An instance: the key [-12] and a value that has a comma. *)
Lemma X2_key_round_trip_witness :
  INT_MIN <= -12 <= INT_MAX ∧
  stoi (to_string (-12)) = Some (-12) ∧
  find_comma (frame (-12) (str "a,b")) = Some (length (to_string (-12))) ∧
  decode_key (frame (-12) (str "a,b")) = Some (-12).
Proof.
  assert (H : INT_MIN <= -12 <= INT_MAX) by (by vm_compute).
  split; [exact H|].
  exact (X2_key_round_trip (-12) (str "a,b") H).
Defined.

(** ** Replay of any file *)

Lemma records_parts (content : bytes) :
  content = frames (complete_records content) ++ last_piece content ∧
  Forall (fun r => DELIMITER ∉ r) (complete_records content) ∧
  DELIMITER ∉ last_piece content.
Proof.
  destruct (records_decompose content) as (recs & tail & Hr & Hc & Hnf & Ht).
  unfold complete_records, last_piece. rewrite Hr.
  by rewrite removelast_last, last_last.
Qed.

(** X3: what [Store::init] computes from a file, whatever its bytes.  The
    loop ends with the whole file read.  The index it leaves is the one
    obtained by going through the complete records of the file in order,
    adding an entry for each record that is accepted and nothing for the
    others, and then through the piece after the last delimiter;
    [currentOffset], which becomes [totalBytes], follows the rule of
    [offset_record] and [offset_tail]. *)
Theorem X3_replay_record_by_record :
  ∀ (content : bytes) (cache : HashMap),
    size content < 2 ^ 64 →
    let recs := complete_records content in
    let tail := last_piece content in
    ∃ r,
      replay_file content cache = Some r ∧
      gpos (inp r) = length content ∧
      eofbit (inp r) = true ∧
      idx r = index_tail tail (size (frames recs)) (index_records recs cache) ∧
      curOff r = offset_tail tail (size (frames recs)) (offsets_after recs 0 0).2.
Proof.
  intros content cache Hsz recs tail.
  destruct (records_parts content) as (Hc & Hnf & Ht). fold recs tail in Hc, Hnf, Ht.
  rewrite Hc in Hsz.
  destruct (replay_file_state recs tail cache Hnf Ht Hsz) as (r & Hr & Hp & He & Hi & Ho).
  exists r. by rewrite Hc at 1 2.
Qed.

(** An instance: a log with a record without comma between two records that
    are accepted. *)
Lemma X3_replay_record_by_record_witness :
  size log_with_bad_record < 2 ^ 64 ∧
  ∃ r,
    replay_file log_with_bad_record HashMap_new = Some r ∧
    gpos (inp r) = length log_with_bad_record ∧
    eofbit (inp r) = true ∧
    idx r = index_tail (last_piece log_with_bad_record)
              (size (frames (complete_records log_with_bad_record)))
              (index_records (complete_records log_with_bad_record) HashMap_new) ∧
    curOff r = offset_tail (last_piece log_with_bad_record)
                 (size (frames (complete_records log_with_bad_record)))
                 (offsets_after (complete_records log_with_bad_record) 0 0).2.
Proof.
  assert (H : size log_with_bad_record < 2 ^ 64) by (by vm_compute).
  split; [exact H|].
  exact (X3_replay_record_by_record log_with_bad_record HashMap_new H).
Defined.

(** ** A store opened on an existing log *)

Lemma Multi_Store_new_state (e : io) (dir : bytes) (fs : filesystem)
    (recs : list bytes) (tail : bytes) :
  fs !! dir = Some (frames recs ++ tail) →
  Forall (fun r => DELIMITER ∉ r) recs →
  DELIMITER ∉ tail →
  size (frames recs ++ tail) < 2 ^ 64 →
  Multi.Store_new e dir fs =
    (Multi.mkStore (ofstream_open (open_ok e) dir ofstream_closed fs).1 dir
       (index_tail tail (size (frames recs)) (index_records recs HashMap_new))
       (offset_tail tail (size (frames recs)) (offsets_after recs 0 0).2),
     fs).
Proof.
  intros Hfile Hnf Ht Hsz.
  destruct (Multi_Store_new_existing e dir _ fs Hfile) as (r & Hr & ->).
  destruct (replay_file_state recs tail HashMap_new Hnf Ht Hsz)
    as (r' & Hr' & _ & _ & Hi & Ho).
  rewrite Hr in Hr'. injection Hr' as <-. by rewrite Hi, Ho.
Qed.

Lemma decode_key_nonempty (r : bytes) (k : Z) : decode_key r = Some k → r ≠ [].
Proof. by intros H ->. Qed.

Lemma index_records_cursor (recs : list bytes) :
  ∀ (h : HashMap) (c : Z),
  currByteOffset h = u64 c →
  currByteOffset (index_records recs h) = u64 (c + indexed_bytes recs).
Proof.
  induction recs as [|r recs IH]; intros h c Hc.
  - simpl. by rewrite Z.add_0_r.
  - rewrite index_records_cons, indexed_bytes_cons. unfold index_record.
    destruct (decode_key r) as [k|].
    + rewrite (IH _ (c + (size r + 1))); [f_equal; lia|].
      simpl. by rewrite Hc, u64_add_l.
    + rewrite (IH _ c Hc). f_equal.
Qed.

Lemma offsets_after_tracks (recs : list bytes) :
  ∀ p : Z,
  Forall (fun r => r ≠ []) recs →
  0 <= p → p + size (frames recs) < 2 ^ 64 →
  (offsets_after recs p p).2 = p + size (frames recs).
Proof.
  induction recs as [|r recs IH]; intros p Hne Hp Hsz.
  - simpl. rewrite frames_nil. change (size []) with 0. lia.
  - inversion Hne as [|? ? Hr Hrecs]; subst.
    rewrite frames_cons, size_app, size_cons in Hsz |- *.
    pose proof (size_nonneg r). pose proof (size_nonneg (frames recs)).
    rewrite offsets_after_cons.
    assert (Hstep : offset_record (p, p) r = (p + (size r + 1), p + (size r + 1))).
    { unfold offset_record. cbn [fst snd].
      rewrite bool_decide_eq_false_2 by done.
      destruct (decode_key r); by rewrite u64_small by lia. }
    rewrite Hstep. cbn [fst snd]. rewrite IH by (done || lia). lia.
Qed.

(** X4: the size that decides the rotation, after a restart.  When the file
    of a store is made of complete records none of which is empty,
    [getTotalBytes()] after [Store(dir)] is the size of the file, whether the
    records are accepted or skipped; the index is the one of the accepted
    records, so its cursor counts their bytes only. *)
Theorem X4_total_bytes_after_recovery :
  ∀ (e : io) (dir : bytes) (fs : filesystem) (recs : list bytes),
    fs !! dir = Some (frames recs) →
    Forall (fun r => DELIMITER ∉ r) recs →
    Forall (fun r => r ≠ []) recs →
    size (frames recs) < 2 ^ 64 →
    let s := (Multi.Store_new e dir fs).1 in
    Multi.getTotalBytes s = size (frames recs) ∧
    Multi.cache s = index_records recs HashMap_new ∧
    currentOffset (Multi.cache s) = indexed_bytes recs.
Proof.
  intros e dir fs recs Hfile Hnf Hne Hsz s. subst s.
  rewrite (Multi_Store_new_state e dir fs recs []).
  - unfold Multi.getTotalBytes, index_tail, offset_tail. simpl.
    split; [|split; [done|]].
    + by rewrite (offsets_after_tracks recs 0 Hne) by (done || lia).
    + unfold currentOffset.
      rewrite (index_records_cursor recs HashMap_new 0) by done.
      pose proof (indexed_bytes_bound recs). rewrite u64_small; lia.
  - by rewrite app_nil_r.
  - done.
  - apply not_elem_of_nil.
  - by rewrite app_nil_r.
Qed.

(** An instance: the log with a record without comma. *)
Lemma X4_total_bytes_after_recovery_witness :
  let recs := [str "11,11"; str "garbage"; str "12,12"] in
  let fs : filesystem := {[ str "store_1.txt" := frames recs ]} in
  let s := (Multi.Store_new io_good (str "store_1.txt") fs).1 in
  fs !! str "store_1.txt" = Some (frames recs) ∧
  Forall (fun r => DELIMITER ∉ r) recs ∧
  Forall (fun r => r ≠ []) recs ∧
  size (frames recs) < 2 ^ 64 ∧
  Multi.getTotalBytes s = size (frames recs) ∧
  Multi.cache s = index_records recs HashMap_new ∧
  currentOffset (Multi.cache s) = indexed_bytes recs.
Proof.
  intros recs fs s.
  assert (H1 : fs !! str "store_1.txt" = Some (frames recs)) by (by vm_compute).
  assert (H2 : Forall (fun r => DELIMITER ∉ r) recs) by by_compute.
  assert (H3 : Forall (fun r => r ≠ []) recs) by by_compute.
  assert (H4 : size (frames recs) < 2 ^ 64) by (by vm_compute).
  do 4 (split; [assumption|]).
  exact (X4_total_bytes_after_recovery io_good (str "store_1.txt") fs recs H1 H2 H3 H4).
Defined.

(** ** A log that ends in the middle of a record *)

Lemma u64_minus_one : u64 (-1) = 2 ^ 64 - 1.
Proof. reflexivity. Qed.

(** The store opened on a log whose records are all accepted and whose last
    piece, cut before its delimiter, is accepted as well. *)
Lemma Multi_Store_new_truncated (e : io) (dir : bytes) (fs : filesystem)
    (recs : list bytes) (tail : bytes) (key : Z) :
  fs !! dir = Some (frames recs ++ tail) →
  Forall (fun r => DELIMITER ∉ r) recs →
  Forall (fun r => is_Some (decode_key r)) recs →
  DELIMITER ∉ tail →
  decode_key tail = Some key →
  size (frames recs ++ tail) < 2 ^ 64 →
  Multi.Store_new e dir fs =
    (Multi.mkStore (ofstream_open (open_ok e) dir ofstream_closed fs).1 dir
       (mkHashMap
          (<[key := mkMetaData (size (frames recs)) (2 ^ 64 - 1 - size (frames recs))]>
             (entries (index_records recs HashMap_new)))
          (2 ^ 64 - 1))
       (2 ^ 64 - 1),
     fs).
Proof.
  intros Hfile Hnf Hdec Ht Hk Hsz.
  rewrite (Multi_Store_new_state e dir fs recs tail) by done.
  rewrite size_app in Hsz.
  pose proof (size_nonneg (frames recs)) as Hp. pose proof (size_nonneg tail).
  assert (Hne : Forall (fun r => r ≠ []) recs).
  { eapply Forall_impl; [exact Hdec|]. intros r [k Hr]. by eapply decode_key_nonempty. }
  assert (Hcur : currByteOffset (index_records recs HashMap_new) = size (frames recs)).
  { rewrite (index_records_cursor recs HashMap_new 0) by done.
    rewrite indexed_bytes_all by done. rewrite u64_small; lia. }
  assert (Hsize : u64 (u64 (-1) - u64 (size (frames recs)))
                  = 2 ^ 64 - 1 - size (frames recs)).
  { rewrite u64_minus_one, (u64_small (size (frames recs))) by lia.
    rewrite u64_small; lia. }
  unfold index_tail, offset_tail.
  rewrite bool_decide_eq_false_2 by (by eapply decode_key_nonempty).
  rewrite Hk, Hsize. unfold HashMap_add. rewrite Hcur.
  rewrite (offsets_after_tracks recs 0 Hne) by (done || lia).
  do 3 f_equal.
  - f_equal. rewrite u64_small; lia.
  - rewrite u64_small; lia.
Qed.

(** X5: a log that was cut in the middle of its last record.  When the
    records before it are accepted and the piece that is left still has a
    key that parses, [Store(dir)] indexes the piece: its entry has the size
    [2^64 - 1] minus its offset, [get] returns the piece, and both the cursor
    of the index and [getTotalBytes()] become [2^64 - 1]. *)
Theorem X5_truncated_last_record :
  ∀ (e : io) (dir : bytes) (fs : filesystem) (recs : list bytes)
    (tail : bytes) (key : Z),
    fs !! dir = Some (frames recs ++ tail) →
    Forall (fun r => DELIMITER ∉ r) recs →
    Forall (fun r => is_Some (decode_key r)) recs →
    DELIMITER ∉ tail →
    decode_key tail = Some key →
    size (frames recs ++ tail) < 2 ^ 63 →
    let s := (Multi.Store_new e dir fs).1 in
    let fs' := (Multi.Store_new e dir fs).2 in
    HashMap_get key (Multi.cache s) =
      mkMetaData (size (frames recs)) (2 ^ 64 - 1 - size (frames recs)) ∧
    currentOffset (Multi.cache s) = 2 ^ 64 - 1 ∧
    Multi.getTotalBytes s = 2 ^ 64 - 1 ∧
    ∀ out, Multi.Store_get key out s fs' = (true, tail).
Proof.
  intros e dir fs recs tail key Hfile Hnf Hdec Ht Hk Hsz s fs'. subst s fs'.
  rewrite (Multi_Store_new_truncated e dir fs recs tail key) by (done || lia).
  rewrite size_app in Hsz.
  pose proof (size_nonneg (frames recs)) as Hp. pose proof (size_nonneg tail).
  cbn [fst snd]. unfold HashMap_get, currentOffset, Multi.getTotalBytes.
  cbn [Multi.cache Multi.totalBytes entries currByteOffset].
  rewrite lookup_insert_eq. do 3 (split; [done|]).
  intros out.
  rewrite (Multi_Store_get_hit key out (frames recs ++ tail) _ fs
             (mkMetaData (size (frames recs)) (2 ^ 64 - 1 - size (frames recs)))).
  - cbn [byteOffset]. unfold size. rewrite Nat2Z.id, drop_app_length.
    by rewrite read_until_delim_tail.
  - cbn [Multi.cache entries]. by rewrite lookup_insert_eq.
  - cbn [byteSize]. lia.
  - cbn [byteOffset]. lia.
  - done.
Qed.

(** An instance: the second record has lost its end. *)
Lemma X5_truncated_last_record_witness :
  let recs := [str "11,11"] in
  let tail := str "12,12" in
  let fs : filesystem := {[ str "store_1.txt" := frames recs ++ tail ]} in
  let s := (Multi.Store_new io_good (str "store_1.txt") fs).1 in
  let fs' := (Multi.Store_new io_good (str "store_1.txt") fs).2 in
  fs !! str "store_1.txt" = Some (frames recs ++ tail) ∧
  Forall (fun r => DELIMITER ∉ r) recs ∧
  Forall (fun r => is_Some (decode_key r)) recs ∧
  (DELIMITER ∉ tail) ∧
  decode_key tail = Some 12 ∧
  size (frames recs ++ tail) < 2 ^ 63 ∧
  HashMap_get 12 (Multi.cache s) =
    mkMetaData (size (frames recs)) (2 ^ 64 - 1 - size (frames recs)) ∧
  currentOffset (Multi.cache s) = 2 ^ 64 - 1 ∧
  Multi.getTotalBytes s = 2 ^ 64 - 1 ∧
  ∀ out, Multi.Store_get 12 out s fs' = (true, tail).
Proof.
  intros recs tail fs s fs'.
  assert (H1 : fs !! str "store_1.txt" = Some (frames recs ++ tail)) by (by vm_compute).
  assert (H2 : Forall (fun r => DELIMITER ∉ r) recs) by by_compute.
  assert (H3 : Forall (fun r => is_Some (decode_key r)) recs) by by_compute.
  assert (H4 : DELIMITER ∉ tail) by by_compute.
  assert (H5 : decode_key tail = Some 12) by (by vm_compute).
  assert (H6 : size (frames recs ++ tail) < 2 ^ 63) by (by vm_compute).
  do 6 (split; [assumption|]).
  exact (X5_truncated_last_record io_good (str "store_1.txt") fs recs tail 12
           H1 H2 H3 H4 H5 H6).
Defined.

(** X6: a write after such a recovery cannot be read back.  The cursor of
    the index is [2^64 - 1], so the entry of the new record gets that offset:
    [set] returns [true] and, when the write succeeds, appends the record
    right behind the piece; [get] of the key finds the entry, fails to seek
    and returns [true] with [out] left as the caller passed it. *)
Theorem X6_write_after_truncated_log :
  ∀ (e e' : io) (dir : bytes) (fs : filesystem) (recs : list bytes)
    (tail : bytes) (key k : Z) (data : bytes) (n : Z),
    fs !! dir = Some (frames recs ++ tail) →
    Forall (fun r => DELIMITER ∉ r) recs →
    Forall (fun r => is_Some (decode_key r)) recs →
    DELIMITER ∉ tail →
    decode_key tail = Some key →
    size (frames recs ++ tail) < 2 ^ 64 →
    open_ok e = true →
    0 < n →
    let opened := Multi.Store_new e dir fs in
    let w := Multi.Store_set e' k data n opened.1 opened.2 in
    w.1.1 = true ∧
    HashMap_get k (Multi.cache w.1.2) = mkMetaData (2 ^ 64 - 1) n ∧
    (write_ok e' = true → w.2 !! dir = Some (frames recs ++ tail ++ data)) ∧
    ∀ out, Multi.Store_get k out w.1.2 w.2 = (true, out).
Proof.
  intros e e' dir fs recs tail key k data n Hfile Hnf Hdec Ht Hk Hsz Hok Hn opened w.
  subst w opened.
  rewrite (Multi_Store_new_truncated e dir fs recs tail key) by done.
  assert (Ho : (ofstream_open (open_ok e) dir ofstream_closed fs).1
               = mkOfstream true false []).
  { unfold ofstream_open. cbn [is_open ofstream_closed]. by rewrite Hok. }
  rewrite Ho. cbn [fst snd].
  set (s0 := Multi.mkStore _ _ _ _).
  assert (Hopen : is_open (Multi.store s0) = true) by done.
  pose proof (Multi_Store_set_fs e' k data n s0 fs) as Hfs.
  rewrite (Multi_Store_set_open e' k data n s0 fs Hopen) in Hfs |- *.
  clear Hopen. subst s0.
  cbn [fst snd Multi.cache Multi.currDir Multi.store Multi.totalBytes] in Hfs |- *.
  unfold HashMap_get, HashMap_add. cbn [entries currByteOffset].
  rewrite lookup_insert_eq. do 2 (split; [done|]). split.
  - intros Hw. rewrite Hw, put_flush_ok by done. cbn [snd pending].
    rewrite lookup_insert_eq. unfold file_content. rewrite Hfile. simpl.
    by rewrite <- app_assoc.
  - intros out. unfold Multi.Store_get, HashMap_get.
    cbn [Multi.cache Multi.currDir entries]. rewrite lookup_insert_eq.
    cbn [byteSize byteOffset]. rewrite decide_False by lia.
    unfold ifstream_open.
    destruct Hfs as [-> | [more ->]].
    + rewrite Hfile. by vm_compute.
    + rewrite lookup_insert_eq. by vm_compute.
Qed.

(** An instance: [set(13, "13,13" + DELIMITER)] after the recovery of the log
    above. *)
Lemma X6_write_after_truncated_log_witness :
  let recs := [str "11,11"] in
  let tail := str "12,12" in
  let data := str "13,13" ++ [DELIMITER] in
  let fs : filesystem := {[ str "store_1.txt" := frames recs ++ tail ]} in
  let opened := Multi.Store_new io_good (str "store_1.txt") fs in
  let w := Multi.Store_set io_good 13 data 6 opened.1 opened.2 in
  fs !! str "store_1.txt" = Some (frames recs ++ tail) ∧
  Forall (fun r => DELIMITER ∉ r) recs ∧
  Forall (fun r => is_Some (decode_key r)) recs ∧
  (DELIMITER ∉ tail) ∧
  decode_key tail = Some 12 ∧
  size (frames recs ++ tail) < 2 ^ 64 ∧
  open_ok io_good = true ∧
  0 < 6 ∧
  w.1.1 = true ∧
  HashMap_get 13 (Multi.cache w.1.2) = mkMetaData (2 ^ 64 - 1) 6 ∧
  (write_ok io_good = true →
   w.2 !! str "store_1.txt" = Some (frames recs ++ tail ++ data)) ∧
  ∀ out, Multi.Store_get 13 out w.1.2 w.2 = (true, out).
Proof.
  intros recs tail data fs opened w.
  assert (H1 : fs !! str "store_1.txt" = Some (frames recs ++ tail)) by (by vm_compute).
  assert (H2 : Forall (fun r => DELIMITER ∉ r) recs) by by_compute.
  assert (H3 : Forall (fun r => is_Some (decode_key r)) recs) by by_compute.
  assert (H4 : DELIMITER ∉ tail) by by_compute.
  assert (H5 : decode_key tail = Some 12) by (by vm_compute).
  assert (H6 : size (frames recs ++ tail) < 2 ^ 64) by (by vm_compute).
  assert (H7 : open_ok io_good = true) by reflexivity.
  assert (H8 : 0 < 6) by lia.
  do 8 (split; [assumption|]).
  exact (X6_write_after_truncated_log io_good io_good (str "store_1.txt") fs recs
           tail 12 13 data 6 H1 H2 H3 H4 H5 H6 H7 H8).
Defined.

(** ** After a write that failed *)

Lemma Single_Store_set_bad (e : io) (key : Z) (value : bytes) (s : Single.Store)
    (fs : filesystem) :
  is_open (Single.store s) = true → obad (Single.store s) = true →
  Single.Store_set e key value s fs =
    (true,
     Single.mkStore (Single.store s) (Single.currDir s)
       (HashMap_add key (size (frame key value ++ [DELIMITER])) (Single.cache s)),
     fs).
Proof.
  intros Ho Hb. rewrite Single_Store_set_open by done.
  destruct s as [[o b p] dir h]. simpl in *. subst o b.
  unfold ofstream_put, ofstream_flush. simpl. done.
Qed.

Lemma Single_Store_set_fails (e : io) (key : Z) (value : bytes) (s : Single.Store)
    (fs : filesystem) :
  is_open (Single.store s) = true → write_ok e = false →
  let w := Single.Store_set e key value s fs in
  w.1.1 = true ∧ w.2 = fs ∧
  is_open (Single.store w.1.2) = true ∧ obad (Single.store w.1.2) = true ∧
  Single.cache w.1.2 =
    HashMap_add key (size (frame key value ++ [DELIMITER])) (Single.cache s) ∧
  Single.currDir w.1.2 = Single.currDir s.
Proof.
  intros Ho Hw w. subst w. rewrite Single_Store_set_open by done.
  destruct s as [[o b p] dir h]. simpl in *. subst o. rewrite Hw.
  unfold ofstream_put, ofstream_flush. simpl. by destruct b.
Qed.

Lemma run_single_sets_bad (ops : list (io * Z * bytes)) :
  ∀ (s : Single.Store) (fs : filesystem),
  is_open (Single.store s) = true → obad (Single.store s) = true →
  let st := run_single_sets ops (s, fs) in
  st.2 = fs ∧ Single.store st.1 = Single.store s ∧
  Single.currDir st.1 = Single.currDir s.
Proof.
  induction ops as [|op ops IH]; intros s fs Ho Hb st; [done|].
  subst st. rewrite run_single_sets_cons. cbn [fst snd].
  rewrite Single_Store_set_bad by done. cbn [fst snd].
  by apply (IH (Single.mkStore _ _ _) fs).
Qed.

(** X7: a write failure is never recovered from.  Once a flush has failed on
    the open log, the stream stays in its failed state: every later call of
    [set], whatever the device answers then, returns [true], adds its entry
    to the index and leaves the files as they are. *)
Theorem X7_failed_write_is_sticky :
  ∀ (e : io) (key : Z) (value : bytes) (s : Single.Store) (fs : filesystem)
    (ops : list (io * Z * bytes)),
    is_open (Single.store s) = true →
    write_ok e = false →
    let w := Single.Store_set e key value s fs in
    let st := run_single_sets ops (w.1.2, w.2) in
    w.1.1 = true ∧
    st.2 = fs ∧
    ∀ e' k v,
      Single.Store_set e' k v st.1 st.2 =
        (true,
         Single.mkStore (Single.store st.1) (Single.currDir s)
           (HashMap_add k (size (frame k v ++ [DELIMITER])) (Single.cache st.1)),
         fs).
Proof.
  intros e key value s fs ops Ho Hw w st.
  destruct (Single_Store_set_fails e key value s fs Ho Hw)
    as (Hr & Hfs & Ho' & Hb' & _ & Hdir).
  fold w in Hr, Hfs, Ho', Hb', Hdir.
  destruct (run_single_sets_bad ops w.1.2 w.2 Ho' Hb') as (Hfs' & Hst & Hdir').
  fold st in Hfs', Hst, Hdir'.
  split; [done|]. split; [congruence|].
  intros e' k v. rewrite Single_Store_set_bad by (by rewrite Hst).
  by rewrite Hfs', Hfs, Hdir', Hdir.
Qed.

(** An instance: the first write of [main] fails, the next two are let
    through by the device. *)
Lemma X7_failed_write_is_sticky_witness :
  let s := fresh_single_log.1 in
  let fs := fresh_single_log.2 in
  let ops := [put 12 "12-1"; put 12 "12-2"] in
  let w := Single.Store_set io_write_fails 11 (str "11") s fs in
  let st := run_single_sets ops (w.1.2, w.2) in
  is_open (Single.store s) = true ∧
  write_ok io_write_fails = false ∧
  w.1.1 = true ∧
  st.2 = fs ∧
  ∀ e' k v,
    Single.Store_set e' k v st.1 st.2 =
      (true,
       Single.mkStore (Single.store st.1) (Single.currDir s)
         (HashMap_add k (size (frame k v ++ [DELIMITER])) (Single.cache st.1)),
       fs).
Proof.
  intros s fs ops w st.
  assert (H1 : is_open (Single.store s) = true) by reflexivity.
  assert (H2 : write_ok io_write_fails = false) by reflexivity.
  do 2 (split; [assumption|]).
  exact (X7_failed_write_is_sticky io_write_fails 11 (str "11") s fs ops H1 H2).
Defined.

(** X8: reading back a record whose write failed.  On a store that could
    take the append, a [set] whose flush fails still publishes the entry, at
    the end of the file; [get] of the key then returns [true] and erases
    [out]: the caller gets the empty string. *)
Theorem X8_get_after_failed_write :
  ∀ (e : io) (key : Z) (value out content : bytes) (s : Single.Store)
    (fs : filesystem),
    appendable (Single.store s) (Single.cache s) (Single.currDir s) fs →
    fs !! Single.currDir s = Some content →
    size content < 2 ^ 63 →
    write_ok e = false →
    let w := Single.Store_set e key value s fs in
    w.1.1 = true ∧
    w.2 = fs ∧
    HashMap_get key (Single.cache w.1.2) =
      mkMetaData (size content) (size (frame key value ++ [DELIMITER])) ∧
    Single.Store_get key out w.1.2 w.2 = (true, []).
Proof.
  intros e key value out content s fs (Ho & Hb & Hp & Hcur) Hfile Hsz Hw w.
  destruct (Single_Store_set_fails e key value s fs Ho Hw)
    as (Hr & Hfs & _ & _ & Hcache & Hdir).
  fold w in Hr, Hfs, Hcache, Hdir.
  assert (Hc : currByteOffset (Single.cache s) = size content).
  { rewrite Hcur. unfold file_content. by rewrite Hfile. }
  assert (Hm : entries (Single.cache w.1.2) !! key
               = Some (mkMetaData (size content) (size (frame key value ++ [DELIMITER])))).
  { rewrite Hcache. unfold HashMap_add. simpl. by rewrite lookup_insert_eq, Hc. }
  split; [done|]. split; [done|]. split.
  - unfold HashMap_get. by rewrite Hm.
  - pose proof (size_nonneg content).
    rewrite (Single_Store_get_hit key out content w.1.2 w.2 _ Hm).
    + simpl. unfold size. by rewrite Nat2Z.id, drop_all.
    + simpl. rewrite size_app. pose proof (size_nonneg (frame key value)).
      change (size [DELIMITER]) with 1. lia.
    + simpl. lia.
    + by rewrite Hfs, Hdir.
Qed.

(** An instance: the first write of [main] fails. *)
Lemma X8_get_after_failed_write_witness :
  let s := fresh_single_log.1 in
  let fs := fresh_single_log.2 in
  let w := Single.Store_set io_write_fails 11 (str "11") s fs in
  appendable (Single.store s) (Single.cache s) (Single.currDir s) fs ∧
  fs !! Single.currDir s = Some [] ∧
  size [] < 2 ^ 63 ∧
  write_ok io_write_fails = false ∧
  w.1.1 = true ∧
  w.2 = fs ∧
  HashMap_get 11 (Single.cache w.1.2) =
    mkMetaData (size []) (size (frame 11 (str "11") ++ [DELIMITER])) ∧
  Single.Store_get 11 (str "old") w.1.2 w.2 = (true, []).
Proof.
  intros s fs w.
  assert (H1 : appendable (Single.store s) (Single.cache s) (Single.currDir s) fs)
    by (unfold appendable; by vm_compute).
  assert (H2 : fs !! Single.currDir s = Some []) by (by vm_compute).
  assert (H3 : size [] < 2 ^ 63) by reflexivity.
  assert (H4 : write_ok io_write_fails = false) by reflexivity.
  do 4 (split; [assumption|]).
  exact (X8_get_after_failed_write io_write_fails 11 (str "11") (str "old") [] s fs
           H1 H2 H3 H4).
Defined.

(** ** The engine during a run *)

Lemma engine_shape_front (prefix : bytes) (n : nat) (g : Multi.StorageEngine) :
  engine_shape prefix n g → (1 ≤ n)%nat →
  ∃ f tail, Multi.activeStores g = f :: tail.
Proof.
  intros (_ & Hdirs & _) Hn. destruct n as [|n]; [lia|].
  destruct (Multi.activeStores g) as [|f tail]; [done|]. by eexists _, _.
Qed.

Lemma StorageEngine_set_shape (e : io) (key : Z) (value : bytes) (prefix : bytes)
    (n : nat) (g : Multi.StorageEngine) (fs : filesystem) :
  engine_shape prefix n g → (1 ≤ n)%nat → Z.of_nat n + 1 < 2 ^ 64 →
  ∃ n', (n ≤ n' ≤ S n)%nat ∧
        engine_shape prefix n' (Multi.StorageEngine_set e key value g fs).1.2.
Proof.
  intros Hshape Hn Hlt.
  destruct (engine_shape_front prefix n g Hshape Hn) as (f & tail & Hs).
  destruct Hshape as (Ht & Hdirs & Ha & Hm & Hp).
  set (data := frame key value ++ [DELIMITER]).
  destruct (decide (u64 (Multi.totalBytes f + size data) > MAX_FILE_BYTE_SIZE))
    as [Hrot|Hrot].
  - exists (S n). split; [lia|].
    rewrite (StorageEngine_set_rotate e key value g fs f tail Hs Hrot).
    rewrite createStore_spec. rewrite Ht, Hp.
    rewrite (u64_small (Z.of_nat n + 1)) by lia.
    pose proof (Multi_Store_set_store e key data (size data) f
                  (Multi.Store_new e (Multi.store_path prefix (Z.of_nat n + 1)) fs).2)
      as [Hdir _].
    cbv zeta in Hdir. fold data.
    unfold engine_shape, Multi.with_activeStores.
    cbn [fst snd Multi.totalFiles Multi.activeStores Multi.archivedStores
         Multi.totalMerged Multi.prefixFileName seq_down].
    rewrite !fmap_cons, Multi_Store_new_currDir, Hdir.
    rewrite Hs, fmap_cons in Hdirs.
    split; [lia|]. split; [|done].
    rewrite Hdirs. do 2 f_equal. lia.
  - exists n. split; [lia|].
    assert (Hle : u64 (Multi.totalBytes f + size data) <= MAX_FILE_BYTE_SIZE) by lia.
    rewrite (StorageEngine_set_no_rotate e key value g fs f tail Hs Hle).
    pose proof (Multi_Store_set_store e key data (size data) f fs) as [Hdir _].
    cbv zeta in Hdir. fold data.
    unfold engine_shape, Multi.with_activeStores.
    cbn [fst snd Multi.totalFiles Multi.activeStores Multi.archivedStores
         Multi.totalMerged Multi.prefixFileName].
    rewrite fmap_cons, Hdir. by rewrite Hs, fmap_cons in Hdirs.
Qed.

Lemma run_sets_shape (prefix : bytes) (ops : list (io * Z * bytes)) :
  ∀ (n : nat) (g : Multi.StorageEngine) (fs : filesystem),
  engine_shape prefix n g → (1 ≤ n)%nat →
  Z.of_nat n + Z.of_nat (length ops) < 2 ^ 64 →
  ∃ n', (n ≤ n' ≤ n + length ops)%nat ∧
        engine_shape prefix n' (run_sets ops (g, fs)).1.
Proof.
  induction ops as [|op ops IH]; intros n g fs Hshape Hn Hlt.
  - exists n. split; [lia | done].
  - rewrite run_sets_cons. cbn [fst snd]. simpl length in Hlt.
    destruct (StorageEngine_set_shape op.1.1 op.1.2 op.2 prefix n g fs Hshape Hn)
      as (n1 & Hn1 & Hshape1); [lia|].
    destruct (IH n1 _ (Multi.StorageEngine_set op.1.1 op.1.2 op.2 g fs).2 Hshape1)
      as (n' & Hn' & Hshape'); [lia | lia |].
    exists n'. split; [simpl; lia | done].
Qed.

Lemma StorageEngine_new_shape (e : io) (prefix : bytes) (fs : filesystem) :
  engine_shape prefix 1 (Multi.StorageEngine_new e prefix fs).1.
Proof.
  rewrite StorageEngine_new_spec. unfold engine_shape.
  cbn [fst snd Multi.totalFiles Multi.activeStores Multi.archivedStores
       Multi.totalMerged Multi.prefixFileName seq_down].
  by rewrite fmap_cons, Multi_Store_new_currDir.
Qed.

(** X9: the stores of the engine during a run.  After the constructor and
    any calls of [set], the engine has given out the sequence numbers [1] to
    [totalFiles], at most one per call; [activeStores] holds the stores of
    these numbers, the newest first, so it is never empty; nothing is ever
    moved to [archivedStores], and [totalMerged] stays 0. *)
Theorem X9_stores_newest_first :
  ∀ (e : io) (prefix : bytes) (fs : filesystem) (ops : list (io * Z * bytes)),
    Z.of_nat (length ops) < 2 ^ 64 - 1 →
    let g := (run_sets ops (Multi.StorageEngine_new e prefix fs)).1 in
    ∃ n : nat,
      (1 ≤ n ≤ 1 + length ops)%nat ∧
      Multi.totalFiles g = Z.of_nat n ∧
      Multi.currDir <$> Multi.activeStores g = Multi.store_path prefix <$> seq_down n ∧
      Multi.archivedStores g = [] ∧
      Multi.totalMerged g = 0 ∧
      Multi.prefixFileName g = prefix.
Proof.
  intros e prefix fs ops Hlen g. subst g.
  pose proof (StorageEngine_new_shape e prefix fs) as H1.
  destruct (Multi.StorageEngine_new e prefix fs) as [g0 fs0]. cbn [fst] in H1.
  destruct (run_sets_shape prefix ops 1 g0 fs0 H1) as (n & Hn & Hshape); [lia | lia |].
  exists n. split; [lia | exact Hshape].
Qed.

(** An instance: the three calls of [set] that make the engine rotate
    once. *)
Lemma X9_stores_newest_first_witness :
  let ops := [put 11 "11"; put 12 "12-1"; put 12 "12-2"] in
  let g := (run_sets ops (Multi.StorageEngine_new io_good (str "store") ∅)).1 in
  Z.of_nat (length ops) < 2 ^ 64 - 1 ∧
  ∃ n : nat,
    (1 ≤ n ≤ 1 + length ops)%nat ∧
    Multi.totalFiles g = Z.of_nat n ∧
    Multi.currDir <$> Multi.activeStores g
      = Multi.store_path (str "store") <$> seq_down n ∧
    Multi.archivedStores g = [] ∧
    Multi.totalMerged g = 0 ∧
    Multi.prefixFileName g = str "store".
Proof.
  intros ops g.
  assert (H : Z.of_nat (length ops) < 2 ^ 64 - 1) by reflexivity.
  split; [exact H|].
  exact (X9_stores_newest_first io_good (str "store") ∅ ops H).
Defined.

(** ** The size of the active store *)

Lemma u64_range (z : Z) : 0 <= u64 z < 2 ^ 64.
Proof. unfold u64. apply Z.mod_pos_bound. lia. Qed.

Lemma StorageEngine_set_front_bound (e : io) (key : Z) (value : bytes)
    (g : Multi.StorageEngine) (fs : filesystem) (f : Multi.Store)
    (tail : list Multi.Store) :
  Multi.activeStores g = f :: tail →
  named g → future (fun _ => False) g fs →
  0 <= Multi.totalFiles g < 2 ^ 64 - 1 →
  0 <= Multi.totalBytes f <= MAX_FILE_BYTE_SIZE →
  let res := Multi.StorageEngine_set e key value g fs in
  ∃ f' tail',
    Multi.activeStores res.1.2 = f' :: tail' ∧
    0 <= Multi.totalBytes f' <= MAX_FILE_BYTE_SIZE ∧
    named res.1.2 ∧ future (fun _ => False) res.1.2 res.2 ∧
    Multi.totalFiles g <= Multi.totalFiles res.1.2 <= Multi.totalFiles g + 1.
Proof.
  intros Hs Hnamed Hfut Ht Hb res.
  destruct (StorageEngine_set_step (fun _ => False) e key value g fs f tail
              Hs Hnamed Hfut Ht)
    as (rot & Hrot & _ & _ & Hact & Habs & _ & Htot & Hnamed' & Hfut' & _).
  fold res in Hact, Htot, Hnamed', Hfut'.
  set (data := frame key value ++ [DELIMITER]) in *.
  destruct rot.
  - cbn [app] in Hact. eexists _, _. split; [exact Hact|].
    split; [|split; [done|split; [done|lia]]].
    rewrite Multi_Store_new_absent.
    + by cbn.
    + destruct (fs !! _) as [c|] eqn:E; [|done]. destruct (Habs eq_refl c eq_refl).
  - cbn [app] in Hact. eexists _, _. split; [exact Hact|].
    split; [|split; [done|split; [done|lia]]].
    destruct (is_open (Multi.store f)) eqn:Ho.
    + rewrite Multi_Store_set_open by done. cbn [fst snd Multi.totalBytes].
      pose proof (u64_range (Multi.totalBytes f + size data)).
      destruct (decide (u64 (Multi.totalBytes f + size data) > MAX_FILE_BYTE_SIZE))
        as [Hgt|Hle]; [|lia].
      by apply Hrot in Hgt.
    + by rewrite Multi_Store_set_closed.
Qed.

Lemma run_sets_front_bound (ops : list (io * Z * bytes)) :
  ∀ (g : Multi.StorageEngine) (fs : filesystem) (f : Multi.Store)
    (tail : list Multi.Store),
  Multi.activeStores g = f :: tail →
  named g → future (fun _ => False) g fs →
  0 <= Multi.totalFiles g →
  Multi.totalFiles g + Z.of_nat (length ops) < 2 ^ 64 - 1 →
  0 <= Multi.totalBytes f <= MAX_FILE_BYTE_SIZE →
  ∃ f' tail',
    Multi.activeStores (run_sets ops (g, fs)).1 = f' :: tail' ∧
    0 <= Multi.totalBytes f' <= MAX_FILE_BYTE_SIZE.
Proof.
  induction ops as [|op ops IH]; intros g fs f tail Hs Hnamed Hfut Ht0 Ht Hb.
  - by exists f, tail.
  - rewrite run_sets_cons. cbn [fst snd]. simpl length in Ht.
    destruct (StorageEngine_set_front_bound op.1.1 op.1.2 op.2 g fs f tail
                Hs Hnamed Hfut) as (f1 & tail1 & Hs1 & Hb1 & Hn1 & Hf1 & Ht1);
      [lia | done |].
    apply (IH _ _ f1 tail1); try done; lia.
Qed.

(** X10: the store at the front of [activeStores] stays within the limit.
    When the engine starts in a directory that has no file of its prefix,
    after any calls of [set] the store that [getTotalBytes()] is asked of
    next holds at most [MAX_FILE_BYTE_SIZE] bytes, whatever the sizes of the
    records and whatever the device answers; only the stores behind it can
    hold more. *)
Theorem X10_front_store_within_limit :
  ∀ (e : io) (prefix : bytes) (fs : filesystem) (ops : list (io * Z * bytes)),
    (∀ j, fs !! Multi.store_path prefix j = None) →
    Z.of_nat (length ops) < 2 ^ 64 - 2 →
    let g := (run_sets ops (Multi.StorageEngine_new e prefix fs)).1 in
    ∃ f tail,
      Multi.activeStores g = f :: tail ∧
      0 <= Multi.getTotalBytes f <= MAX_FILE_BYTE_SIZE.
Proof.
  intros e prefix fs ops Habs Hlen g. subst g.
  destruct (StorageEngine_new_inv (fun _ => False) e prefix fs) as [Hnamed Hfut].
  { intros j c. by rewrite Habs. }
  revert Hnamed Hfut. rewrite StorageEngine_new_spec. cbn [fst snd].
  intros Hnamed Hfut.
  eapply (run_sets_front_bound ops _ _ _ []); try done.
  - cbn. lia.
  - rewrite Multi_Store_new_absent by apply Habs. by cbn.
Qed.

(** An instance: the three calls of [set] that make the engine rotate once,
    in an empty directory. *)
Lemma X10_front_store_within_limit_witness :
  let ops := [put 11 "11"; put 12 "12-1"; put 12 "12-2"] in
  let g := (run_sets ops (Multi.StorageEngine_new io_good (str "store") ∅)).1 in
  (∀ j, (∅ : filesystem) !! Multi.store_path (str "store") j = None) ∧
  Z.of_nat (length ops) < 2 ^ 64 - 2 ∧
  ∃ f tail,
    Multi.activeStores g = f :: tail ∧
    0 <= Multi.getTotalBytes f <= MAX_FILE_BYTE_SIZE.
Proof.
  intros ops g.
  assert (H1 : ∀ j, (∅ : filesystem) !! Multi.store_path (str "store") j = None)
    by (intros j; apply lookup_empty).
  assert (H2 : Z.of_nat (length ops) < 2 ^ 64 - 2) by reflexivity.
  do 2 (split; [assumption|]).
  exact (X10_front_store_within_limit io_good (str "store") ∅ ops H1 H2).
Defined.

(** ** What one call of [set] leaves alone *)

(** X11: one call of [StorageEngine::set] on an engine that has a store.
    The stores behind the front one are left as they are, and at most one
    store is put in front; no file is removed or shortened, and the only
    files that can change are the one of the front store and the one of the
    next sequence number. *)
Theorem X11_set_leaves_other_stores :
  ∀ (e : io) (key : Z) (value : bytes) (g : Multi.StorageEngine) (fs : filesystem)
    (f : Multi.Store) (tail : list Multi.Store),
    Multi.activeStores g = f :: tail →
    let res := Multi.StorageEngine_set e key value g fs in
    let next := Multi.store_path (Multi.prefixFileName g)
                  (u64 (Multi.totalFiles g + 1)) in
    (∃ newer f',
       Multi.activeStores res.1.2 = newer ++ f' :: tail ∧
       (length newer ≤ 1)%nat ∧
       Multi.currDir f' = Multi.currDir f) ∧
    fs_grows fs res.2 ∧
    (∀ path, path ≠ Multi.currDir f → path ≠ next → res.2 !! path = fs !! path) ∧
    Multi.archivedStores res.1.2 = Multi.archivedStores g ∧
    Multi.readBuffer res.1.2 = Multi.readBuffer g.
Proof.
  intros e key value g fs f tail Hs res next. subst res.
  set (data := frame key value ++ [DELIMITER]).
  destruct (decide (u64 (Multi.totalBytes f + size data) > MAX_FILE_BYTE_SIZE))
    as [Hrot|Hrot].
  - rewrite (StorageEngine_set_rotate e key value g fs f tail Hs Hrot).
    rewrite createStore_spec. fold data next.
    cbn [fst snd Multi.with_activeStores Multi.activeStores Multi.archivedStores
         Multi.readBuffer].
    pose proof (Multi_Store_set_store e key data (size data) f
                  (Multi.Store_new e next fs).2) as [Hdir _].
    cbv zeta in Hdir.
    split; [|split; [|split; [|done]]].
    + eexists [(Multi.Store_new e next fs).1], _.
      split; [reflexivity|]. split; [simpl; lia | exact Hdir].
    + eapply fs_grows_trans; [apply Multi_Store_new_grows|].
      apply Multi_Store_set_grows.
    + intros path Hf Hn.
      rewrite Multi_Store_set_other by done. by rewrite Multi_Store_new_other.
  - assert (Hle : u64 (Multi.totalBytes f + size data) <= MAX_FILE_BYTE_SIZE) by lia.
    rewrite (StorageEngine_set_no_rotate e key value g fs f tail Hs Hle).
    fold data.
    cbn [fst snd Multi.with_activeStores Multi.activeStores Multi.archivedStores
         Multi.readBuffer].
    pose proof (Multi_Store_set_store e key data (size data) f fs) as [Hdir _].
    cbv zeta in Hdir.
    split; [|split; [|split; [|done]]].
    + eexists [], _.
      split; [reflexivity|]. split; [simpl; lia | exact Hdir].
    + apply Multi_Store_set_grows.
    + intros path Hf Hn. by rewrite Multi_Store_set_other.
Qed.

(** An instance: the call that makes the engine rotate. *)
Lemma X11_set_leaves_other_stores_witness :
  let g := two_puts.1 in
  let fs := two_puts.2 in
  let front := hd (Multi.mkStore ofstream_closed [] HashMap_new 0)
                  (Multi.activeStores g) in
  let res := Multi.StorageEngine_set io_good 12 (str "12-2") g fs in
  let next := Multi.store_path (Multi.prefixFileName g)
                (u64 (Multi.totalFiles g + 1)) in
  Multi.activeStores g = front :: [] ∧
  (∃ newer f',
     Multi.activeStores res.1.2 = newer ++ f' :: [] ∧
     (length newer ≤ 1)%nat ∧
     Multi.currDir f' = Multi.currDir front) ∧
  fs_grows fs res.2 ∧
  (∀ path, path ≠ Multi.currDir front → path ≠ next → res.2 !! path = fs !! path) ∧
  Multi.archivedStores res.1.2 = Multi.archivedStores g ∧
  Multi.readBuffer res.1.2 = Multi.readBuffer g.
Proof.
  intros g fs front res next.
  assert (H : Multi.activeStores g = front :: []) by (by vm_compute).
  split; [exact H|].
  exact (X11_set_leaves_other_stores io_good 12 (str "12-2") g fs front [] H).
Defined.

(** ** When the log cannot be opened *)

Lemma Multi_Store_new_closed (e : io) (dir : bytes) (fs : filesystem) :
  open_ok e = false →
  is_open (Multi.store (Multi.Store_new e dir fs).1) = false ∧
  (Multi.Store_new e dir fs).2 = fs.
Proof.
  intros Hok. unfold Multi.Store_new, Multi.Store_init, ifstream_open. simpl.
  destruct (fs !! dir) as [c|]; simpl.
  - destruct (init_loop _ _); [|done].
    unfold Multi.Store_open, ofstream_open. simpl. by rewrite Hok.
  - unfold Multi.Store_open, ofstream_open. simpl. by rewrite Hok.
Qed.

Lemma StorageEngine_set_closed (e : io) (key : Z) (value : bytes)
    (g : Multi.StorageEngine) (fs : filesystem) (f : Multi.Store)
    (tail : list Multi.Store) :
  Multi.activeStores g = f :: tail →
  all_closed (Multi.activeStores g) →
  open_ok e = false →
  let res := Multi.StorageEngine_set e key value g fs in
  res.1.1 = false ∧ res.2 = fs ∧
  all_closed (Multi.activeStores res.1.2) ∧
  ∃ f' tail', Multi.activeStores res.1.2 = f' :: tail'.
Proof.
  intros Hs Hall Hok res. subst res.
  assert (Hf : is_open (Multi.store f) = false).
  { rewrite Hs in Hall. by apply Forall_cons in Hall as [? _]. }
  set (data := frame key value ++ [DELIMITER]).
  destruct (decide (u64 (Multi.totalBytes f + size data) > MAX_FILE_BYTE_SIZE))
    as [Hrot|Hrot].
  - rewrite (StorageEngine_set_rotate e key value g fs f tail Hs Hrot).
    rewrite createStore_spec. fold data.
    destruct (Multi_Store_new_closed e
                (Multi.store_path (Multi.prefixFileName g)
                   (u64 (Multi.totalFiles g + 1))) fs Hok) as [Hc Hfs].
    rewrite Multi_Store_set_closed by done.
    cbn [fst snd Multi.with_activeStores Multi.activeStores].
    split; [done|]. split; [done|]. split; [|by eexists _, _].
    apply Forall_cons. split; [done|]. by rewrite <- Hs.
  - assert (Hle : u64 (Multi.totalBytes f + size data) <= MAX_FILE_BYTE_SIZE) by lia.
    rewrite (StorageEngine_set_no_rotate e key value g fs f tail Hs Hle).
    fold data. rewrite Multi_Store_set_closed by done.
    cbn [fst snd Multi.with_activeStores Multi.activeStores].
    split; [done|]. split; [done|]. split; [by rewrite <- Hs | by eexists _, _].
Qed.

Lemma run_sets_closed (ops : list (io * Z * bytes)) :
  ∀ (g : Multi.StorageEngine) (fs : filesystem) (f : Multi.Store)
    (tail : list Multi.Store),
  Multi.activeStores g = f :: tail →
  all_closed (Multi.activeStores g) →
  Forall (fun op => open_ok op.1.1 = false) ops →
  let st := run_sets ops (g, fs) in
  st.2 = fs ∧ all_closed (Multi.activeStores st.1) ∧
  ∃ f' tail', Multi.activeStores st.1 = f' :: tail'.
Proof.
  induction ops as [|op ops IH]; intros g fs f tail Hs Hall Hops st.
  - split; [done|]. split; [done|]. by exists f, tail.
  - subst st. rewrite run_sets_cons. cbn [fst snd].
    apply Forall_cons in Hops as [Hop Hops].
    destruct (StorageEngine_set_closed op.1.1 op.1.2 op.2 g fs f tail Hs Hall Hop)
      as (_ & Hfs & Hall1 & f1 & tail1 & Hs1).
    rewrite Hfs. by apply (IH _ fs f1 tail1).
Qed.

(** X12: an engine whose log files cannot be opened.  When the operating
    system refuses every [open], the constructor and the calls of [set]
    leave the files as they are, and every call of [set] returns [false]. *)
Theorem X12_open_failure :
  ∀ (e : io) (prefix : bytes) (fs : filesystem) (ops : list (io * Z * bytes)),
    open_ok e = false →
    Forall (fun op => open_ok op.1.1 = false) ops →
    let st := run_sets ops (Multi.StorageEngine_new e prefix fs) in
    st.2 = fs ∧
    ∀ e' k v,
      open_ok e' = false →
      let r := Multi.StorageEngine_set e' k v st.1 st.2 in
      r.1.1 = false ∧ r.2 = fs.
Proof.
  intros e prefix fs ops Hok Hops st. subst st.
  rewrite StorageEngine_new_spec.
  destruct (Multi_Store_new_closed e (Multi.store_path prefix 1) fs Hok) as [Hc Hfs].
  rewrite Hfs.
  set (g0 := Multi.mkStorageEngine _ _ _ _ _ _).
  assert (Hall : all_closed (Multi.activeStores g0)).
  { subst g0. cbn [Multi.activeStores]. constructor; [exact Hc | constructor]. }
  destruct (run_sets_closed ops g0 fs _ [] eq_refl Hall Hops)
    as (Hfs' & Hall' & f' & tail' & Hs').
  split; [done|].
  intros e' k v Hok' r. subst r. rewrite Hfs'.
  by destruct (StorageEngine_set_closed e' k v _ fs f' tail' Hs' Hall' Hok')
    as (? & ? & _).
Qed.

(** An instance: the calls of [main] of the first program, on an engine. *)
Lemma X12_open_failure_witness :
  let ops := [(io_open_fails, 11, str "11"); (io_open_fails, 12, str "12-1")] in
  let st := run_sets ops (Multi.StorageEngine_new io_open_fails (str "store") ∅) in
  open_ok io_open_fails = false ∧
  Forall (fun op => open_ok op.1.1 = false) ops ∧
  st.2 = ∅ ∧
  ∀ e' k v,
    open_ok e' = false →
    let r := Multi.StorageEngine_set e' k v st.1 st.2 in
    r.1.1 = false ∧ r.2 = ∅.
Proof.
  intros ops st.
  assert (H1 : open_ok io_open_fails = false) by reflexivity.
  assert (H2 : Forall (fun op => open_ok op.1.1 = false) ops) by by_compute.
  do 2 (split; [assumption|]).
  exact (X12_open_failure io_open_fails (str "store") ∅ ops H1 H2).
Defined.

(** ** A restart of the first program *)

Lemma index_records_app (a b : list bytes) (h : HashMap) :
  index_records (a ++ b) h = index_records b (index_records a h).
Proof. unfold index_records. by rewrite fold_left_app. Qed.

Lemma frames_empty (recs : list bytes) : frames recs = [] → recs = [].
Proof. destruct recs as [|r recs]; [done|]. rewrite frames_cons. by destruct r. Qed.

Lemma Single_Store_new_state (e : io) (dir : bytes) (h : HashMap) (fs : filesystem)
    (recs : list bytes) (tail : bytes) :
  fs !! dir = Some (frames recs ++ tail) →
  Forall (fun r => DELIMITER ∉ r) recs →
  DELIMITER ∉ tail →
  size (frames recs ++ tail) < 2 ^ 64 →
  Single.Store_new e dir h fs =
    (Single.mkStore (ofstream_open (open_ok e) dir ofstream_closed fs).1 dir
       (index_tail tail (size (frames recs)) (index_records recs h)),
     fs).
Proof.
  intros Hfile Hnf Ht Hsz.
  destruct (Single_Store_new_existing e dir _ h fs Hfile) as (r & Hr & ->).
  destruct (replay_file_state recs tail h Hnf Ht Hsz) as (r' & Hr' & _ & _ & Hi & _).
  rewrite Hr in Hr'. injection Hr' as <-. by rewrite Hi.
Qed.

(** The store that the constructor gives on a log of complete records, or
    in a directory where the log does not exist yet. *)
Lemma Single_Store_new_ready (e : io) (dir : bytes) (fs : filesystem)
    (recs : list bytes) :
  file_content fs dir = frames recs →
  Forall (fun r => DELIMITER ∉ r) recs →
  size (frames recs) < 2 ^ 64 →
  open_ok e = true →
  let opened := Single.Store_new e dir HashMap_new fs in
  opened.1 = Single.mkStore (mkOfstream true false []) dir
               (index_records recs HashMap_new) ∧
  opened.2 !! dir = Some (frames recs).
Proof.
  intros Hc Hnf Hsz Hok opened. subst opened. unfold file_content in Hc.
  destruct (fs !! dir) as [c|] eqn:E; simpl in Hc.
  - subst c. rewrite (Single_Store_new_state e dir HashMap_new fs recs []).
    + unfold ofstream_open. simpl. by rewrite Hok, E.
    + by rewrite app_nil_r.
    + done.
    + apply not_elem_of_nil.
    + by rewrite app_nil_r.
  - symmetry in Hc. apply frames_empty in Hc as ->.
    unfold Single.Store_new, Single.Store_init, ifstream_open. simpl.
    rewrite E. simpl. unfold Single.Store_open, ofstream_open. simpl.
    rewrite Hok, E. simpl. by rewrite lookup_insert_eq.
Qed.

Lemma run_single_sets_plain (h0 : HashMap) (ops : list (io * Z * bytes)) :
  ∀ (s : Single.Store) (fs : filesystem) (recs : list bytes),
  Single.store s = mkOfstream true false [] →
  fs !! Single.currDir s = Some (frames recs) →
  Single.cache s = index_records recs h0 →
  Forall plain_put ops →
  let st := run_single_sets ops (s, fs) in
  st.1 = Single.mkStore (mkOfstream true false []) (Single.currDir s)
           (index_records (recs ++ frames_of ops) h0) ∧
  st.2 !! Single.currDir s = Some (frames (recs ++ frames_of ops)).
Proof.
  induction ops as [|op ops IH]; intros s fs recs Hst Hfile Hcache Hops st.
  - subst st. simpl. rewrite app_nil_r. split; [|done].
    destruct s; simpl in *. by subst.
  - subst st. rewrite run_single_sets_cons. cbn [fst snd].
    apply Forall_cons in Hops as [(Hw & Hk & Hv) Hops].
    rewrite Single_Store_set_open by (by rewrite Hst).
    rewrite Hw, put_flush_ok by (by rewrite Hst).
    cbn [fst snd]. rewrite Hst. cbn [pending app].
    set (s1 := Single.mkStore _ _ _). set (fs1 := <[_ := _]> fs).
    destruct (IH s1 fs1 (recs ++ [frame op.1.2 op.2])) as [H1 H2]; try done.
    + subst s1 fs1. cbn [Single.currDir]. rewrite lookup_insert_eq.
      unfold file_content. rewrite Hfile. simpl.
      by rewrite frames_app, frames_cons, frames_nil.
    + subst s1. cbn [Single.cache]. rewrite index_records_app, Hcache.
      simpl. unfold index_record at 1.
      rewrite decode_key_frame by done.
      by rewrite size_app.
    + cbn [Single.currDir] in H1, H2. simpl frames_of.
      by rewrite <- app_assoc in H1, H2.
Qed.

Lemma frames_of_no_delim (ops : list (io * Z * bytes)) :
  Forall plain_put ops → Forall (fun r => DELIMITER ∉ r) (frames_of ops).
Proof.
  intros H. unfold frames_of. apply Forall_fmap.
  eapply Forall_impl; [exact H|]. intros op (_ & _ & Hv). simpl.
  by apply frame_no_delim.
Qed.

(** X13: a restart of the first program rebuilds the index it had.  The
    store is opened on a log of complete records, or where there is no log
    yet; any calls of [set] follow, with values without delimiter byte and
    writes that succeed.  The log then holds the old records followed by the
    frames of the calls, and the constructor of a new process, which starts
    from an empty index, replays it to the very index the first process had
    in memory, cursor included. *)
Theorem X13_restart_rebuilds_index :
  ∀ (e e' : io) (dir : bytes) (fs : filesystem) (recs : list bytes)
    (ops : list (io * Z * bytes)),
    file_content fs dir = frames recs →
    Forall (fun r => DELIMITER ∉ r) recs →
    open_ok e = true →
    Forall plain_put ops →
    size (frames (recs ++ frames_of ops)) < 2 ^ 64 →
    let opened := Single.Store_new e dir HashMap_new fs in
    let st := run_single_sets ops opened in
    let reopened := Single.Store_new e' dir HashMap_new st.2 in
    st.2 !! dir = Some (frames (recs ++ frames_of ops)) ∧
    Single.cache reopened.1 = Single.cache st.1 ∧
    reopened.2 = st.2.
Proof.
  intros e e' dir fs recs ops Hc Hnf Hok Hops Hsz opened st reopened.
  assert (Hsz0 : size (frames recs) < 2 ^ 64).
  { rewrite frames_app, size_app in Hsz.
    pose proof (size_nonneg (frames (frames_of ops))). lia. }
  destruct (Single_Store_new_ready e dir fs recs Hc Hnf Hsz0 Hok) as [Ho1 Ho2].
  fold opened in Ho1, Ho2.
  assert (Hdir : Single.currDir opened.1 = dir) by (by rewrite Ho1).
  destruct (run_single_sets_plain HashMap_new ops opened.1 opened.2 recs)
    as [Hs1 Hs2]; try done.
  { by rewrite Ho1. } { by rewrite Hdir. } { by rewrite Ho1. }
  rewrite Hdir in Hs1, Hs2.
  assert (Hst : st = run_single_sets ops (opened.1, opened.2))
    by (subst st; by destruct opened).
  rewrite <- Hst in Hs1, Hs2.
  split; [done|].
  subst reopened.
  rewrite (Single_Store_new_state e' dir HashMap_new st.2
             (recs ++ frames_of ops) []).
  - rewrite Hs1. by simpl.
  - by rewrite app_nil_r.
  - apply Forall_app. split; [done | by apply frames_of_no_delim].
  - apply not_elem_of_nil.
  - by rewrite app_nil_r.
Qed.

(** An instance: the calls of [main], in a directory without log. *)
Lemma X13_restart_rebuilds_index_witness :
  let ops := [put 11 "11"; put 12 "12-1"; put 12 "12-2"] in
  let dir := str "store.txt" in
  let opened := Single.Store_new io_good dir HashMap_new ∅ in
  let st := run_single_sets ops opened in
  let reopened := Single.Store_new io_good dir HashMap_new st.2 in
  file_content ∅ dir = frames [] ∧
  Forall (fun r => DELIMITER ∉ r) ([] : list bytes) ∧
  open_ok io_good = true ∧
  Forall plain_put ops ∧
  size (frames ([] ++ frames_of ops)) < 2 ^ 64 ∧
  st.2 !! dir = Some (frames ([] ++ frames_of ops)) ∧
  Single.cache reopened.1 = Single.cache st.1 ∧
  reopened.2 = st.2.
Proof.
  intros ops dir opened st reopened.
  assert (H1 : file_content ∅ dir = frames []) by reflexivity.
  assert (H2 : Forall (fun r => DELIMITER ∉ r) ([] : list bytes)) by constructor.
  assert (H3 : open_ok io_good = true) by reflexivity.
  assert (H4 : Forall plain_put ops).
  { repeat constructor; by_compute. }
  assert (H5 : size (frames ([] ++ frames_of ops)) < 2 ^ 64) by (by vm_compute).
  do 5 (split; [assumption|]).
  exact (X13_restart_rebuilds_index io_good io_good dir ∅ [] ops H1 H2 H3 H4 H5).
Defined.

(** ** [main] of the first program *)

Lemma Single_main_run (env : nat → io) (fs : filesystem) :
  let st := run_single_sets (main_sets env)
              (Single.Store_new (env 0%nat) (str "store.txt") HashMap_new fs) in
  let r1 := Single.Store_get 11 [] st.1 st.2 in
  let r2 := Single.Store_get 12 r1.2 st.1 st.2 in
  Single_main env fs =
    ([if r1.1 then r1.2 else str "not found";
      if r2.1 then r2.2 else str "not found"], st.2).
Proof.
  unfold Single_main, main_sets, run_single_sets. cbn [fold_left fst snd].
  destruct (Single.Store_new _ _ _ _) as [s0 fs0]. cbn [fst snd].
  destruct (Single.Store_set _ 11 _ _ _) as [[b1 s1] fs1]. cbn [fst snd].
  destruct (Single.Store_set _ 12 (str "12-1") _ _) as [[b2 s2] fs2]. cbn [fst snd].
  destruct (Single.Store_set _ 12 (str "12-2") _ _) as [[b3 s3] fs3]. cbn [fst snd].
  destruct (Single.Store_get 11 _ _ _) as [f1 o1]. cbn [fst snd].
  by destruct (Single.Store_get 12 _ _ _) as [f2 o2].
Qed.

Lemma index_record_accept (h : HashMap) (r : bytes) (k : Z) :
  decode_key r = Some k → index_record h r = HashMap_add k (size r + 1) h.
Proof. intros H. unfold index_record. by rewrite H. Qed.

(** The index after the three records of [main], behind the records
    [recs]. *)
Lemma index_records_main (recs : list bytes) (h : HashMap) :
  index_records (recs ++ [str "11,11"; str "12,12-1"; str "12,12-2"]) h =
  HashMap_add 12 8 (HashMap_add 12 8 (HashMap_add 11 6 (index_records recs h))).
Proof.
  rewrite index_records_app. unfold index_records at 1. cbn [fold_left].
  rewrite (index_record_accept _ (str "12,12-2") 12) by (by vm_compute).
  rewrite (index_record_accept _ (str "12,12-1") 12) by (by vm_compute).
  by rewrite (index_record_accept _ (str "11,11") 11) by (by vm_compute).
Qed.

(** X14: what [main] of the first program prints.  When [store.txt] does
    not exist, or holds complete records that are all accepted, and the
    operating system lets the open and the three writes succeed, [main]
    prints [11,11] and [12,12-2], and leaves in the log the old records
    followed by the three frames: a second run prints the same. *)
Theorem X14_main_output :
  ∀ (env : nat → io) (fs : filesystem) (recs : list bytes),
    file_content fs (str "store.txt") = frames recs →
    Forall (fun r => DELIMITER ∉ r) recs →
    Forall (fun r => is_Some (decode_key r)) recs →
    size (frames recs) + 22 < 2 ^ 63 →
    open_ok (env 0%nat) = true →
    (∀ n, write_ok (env n) = true) →
    (Single_main env fs).1 = [str "11,11"; str "12,12-2"] ∧
    (Single_main env fs).2 !! str "store.txt" =
      Some (frames (recs ++ [str "11,11"; str "12,12-1"; str "12,12-2"])).
Proof.
  intros env fs recs Hc Hnf Hdec Hsz Hok Hw.
  rewrite Single_main_run. cbv zeta.
  set (dir := str "store.txt") in *.
  set (opened := Single.Store_new (env 0%nat) dir HashMap_new fs).
  pose proof (size_nonneg (frames recs)) as Hpos.
  destruct (Single_Store_new_ready (env 0%nat) dir fs recs Hc Hnf) as [Ho1 Ho2];
    [lia | done |].
  fold opened in Ho1, Ho2.
  assert (Hdir : Single.currDir opened.1 = dir) by (by rewrite Ho1).
  assert (Hops : Forall plain_put (main_sets env)).
  { unfold main_sets, plain_put. repeat constructor; cbn [fst snd];
      try apply Hw; try (by vm_compute); by_compute. }
  destruct (run_single_sets_plain HashMap_new (main_sets env) opened.1 opened.2 recs)
    as [Hs1 Hs2]; try done.
  { by rewrite Ho1. } { by rewrite Hdir. } { by rewrite Ho1. }
  rewrite Hdir in Hs1, Hs2.
  assert (Hst : run_single_sets (main_sets env) opened
                = run_single_sets (main_sets env) (opened.1, opened.2))
    by (by destruct opened).
  rewrite Hst. set (st := run_single_sets _ _) in *.
  change (frames_of (main_sets env))
    with [str "11,11"; str "12,12-1"; str "12,12-2"] in Hs1, Hs2.
  assert (Hcur : currByteOffset (index_records recs HashMap_new) = size (frames recs)).
  { rewrite (index_records_cursor recs HashMap_new 0) by done.
    rewrite indexed_bytes_all by done. rewrite u64_small; lia. }
  assert (H11 : entries (Single.cache st.1) !! 11
                = Some (mkMetaData (size (frames recs)) 6)).
  { rewrite Hs1. cbn [Single.cache]. rewrite index_records_main.
    unfold HashMap_add. cbn [entries currByteOffset].
    rewrite !lookup_insert_ne by done. by rewrite lookup_insert_eq, Hcur. }
  assert (H12 : entries (Single.cache st.1) !! 12
                = Some (mkMetaData (size (frames recs) + 14) 8)).
  { rewrite Hs1. cbn [Single.cache]. rewrite index_records_main.
    unfold HashMap_add. cbn [entries currByteOffset].
    rewrite lookup_insert_eq, Hcur. do 2 f_equal.
    rewrite !u64_small; rewrite ?u64_small; lia. }
  assert (Hfile : st.2 !! Single.currDir st.1
                  = Some (frames recs ++
                          frames [str "11,11"; str "12,12-1"; str "12,12-2"])).
  { rewrite Hs1. cbn [Single.currDir]. by rewrite Hs2, frames_app. }
  rewrite (Single_Store_get_hit 11 [] _ st.1 st.2 _ H11) by (done || simpl; lia).
  cbn [fst snd byteOffset].
  rewrite (Single_Store_get_hit 12 _ _ st.1 st.2 _ H12) by (done || simpl; lia).
  cbn [fst snd byteOffset].
  split; [|done].
  unfold size. rewrite Nat2Z.id, drop_app_length.
  replace (Z.to_nat (Z.of_nat (length (frames recs)) + 14))
    with (length (frames recs) + 14)%nat by lia.
  rewrite drop_app_add'; [|done].
  by vm_compute.
Qed.

(** An instance: the second run of [main], on the log that the first run
    has left. *)
Lemma X14_main_output_witness :
  let env := fun _ : nat => io_good in
  let recs := [str "11,11"; str "12,12-1"; str "12,12-2"] in
  let fs := single_main.2 in
  file_content fs (str "store.txt") = frames recs ∧
  Forall (fun r => DELIMITER ∉ r) recs ∧
  Forall (fun r => is_Some (decode_key r)) recs ∧
  size (frames recs) + 22 < 2 ^ 63 ∧
  open_ok (env 0%nat) = true ∧
  (∀ n, write_ok (env n) = true) ∧
  (Single_main env fs).1 = [str "11,11"; str "12,12-2"] ∧
  (Single_main env fs).2 !! str "store.txt" =
    Some (frames (recs ++ [str "11,11"; str "12,12-1"; str "12,12-2"])).
Proof.
  intros env recs fs.
  assert (H1 : file_content fs (str "store.txt") = frames recs) by (by vm_compute).
  assert (H2 : Forall (fun r => DELIMITER ∉ r) recs) by by_compute.
  assert (H3 : Forall (fun r => is_Some (decode_key r)) recs) by by_compute.
  assert (H4 : size (frames recs) + 22 < 2 ^ 63) by (by vm_compute).
  assert (H5 : open_ok (env 0%nat) = true) by reflexivity.
  assert (H6 : ∀ n, write_ok (env n) = true) by (intros n; reflexivity).
  do 6 (split; [assumption|]).
  exact (X14_main_output env fs recs H1 H2 H3 H4 H5 H6).
Defined.

(** ** The index shared by the stores of the first program *)

Lemma index_record_is_Some (h : HashMap) (r : bytes) (k : Z) :
  is_Some (entries h !! k) → is_Some (entries (index_record h r) !! k).
Proof.
  intros Hk. unfold index_record. destruct (decode_key r) as [k'|]; [|done].
  unfold HashMap_add. simpl. destruct (decide (k' = k)) as [->|Hne].
  - rewrite lookup_insert_eq. by eexists.
  - by rewrite lookup_insert_ne.
Qed.

Lemma index_records_other (recs : list bytes) (k : Z) :
  ∀ h, Forall (fun r => decode_key r ≠ Some k) recs →
  entries (index_records recs h) !! k = entries h !! k.
Proof.
  induction recs as [|r recs IH]; intros h Hk; [done|].
  apply Forall_cons in Hk as [Hr Hk].
  rewrite index_records_cons, IH by done. unfold index_record.
  destruct (decode_key r) as [k'|]; [|done].
  unfold HashMap_add. simpl. rewrite lookup_insert_ne; [done | congruence].
Qed.

(** A key of the records gets an entry behind the cursor that the index had
    before the replay. *)
Lemma index_records_readded (recs : list bytes) (k : Z) :
  ∀ h,
  0 <= currByteOffset h →
  currByteOffset h + indexed_bytes recs < 2 ^ 64 →
  Exists (fun r => decode_key r = Some k) recs →
  ∃ m, entries (index_records recs h) !! k = Some m ∧
       currByteOffset h <= byteOffset m ∧ 0 < byteSize m ∧
       byteOffset m + byteSize m <= currByteOffset h + indexed_bytes recs.
Proof.
  induction recs as [|r recs IH]; intros h Hc Hlt Hex.
  - by apply Exists_nil in Hex.
  - rewrite indexed_bytes_cons in Hlt. rewrite index_records_cons.
    pose proof (indexed_bytes_bound recs) as [Hib _].
    pose proof (size_nonneg r) as Hr.
    destruct (decide (Exists (fun r => decode_key r = Some k) recs)) as [Hin|Hout].
    + unfold index_record. destruct (decode_key r) as [k'|] eqn:Hk'.
      * destruct (IH (HashMap_add k' (size r + 1) h)) as (m & Hm & Hoff & Hsz & Hend);
          try done.
        -- simpl. pose proof (u64_range (currByteOffset h + (size r + 1))). lia.
        -- simpl. rewrite u64_small; lia.
        -- exists m. split; [done|]. rewrite indexed_bytes_cons, Hk'.
           simpl in Hoff, Hend. rewrite u64_small in Hoff, Hend by lia. lia.
      * destruct (IH h) as (m & Hm & Hoff & Hsz & Hend); try done; try lia.
        exists m. split; [done|]. rewrite indexed_bytes_cons, Hk'. lia.
    + apply Exists_cons in Hex as [Hk|Hex]; [|done].
      apply not_Exists_Forall in Hout; [|intros x; apply _].
      rewrite index_records_other by done.
      rewrite (index_record_accept h r k Hk). unfold HashMap_add. simpl.
      rewrite lookup_insert_eq. eexists. split; [done|].
      rewrite Hk. simpl. lia.
Qed.

(** X15: the constructor of [Store] does not reset the index that
    [HashMap::getInstance()] shares.  When the index already counts as many
    bytes as the log holds, which is the case once a [Store] has been
    constructed on this log in the same process, the replay adds the records
    of the log a second time, behind the old cursor: for every key of the
    log, the entry starts at or beyond the end of the file, and [get] on the
    new store returns [true] and the empty string.  The cursor is bounded
    by [2^31]: every file system lets a seek reach such an offset. *)
Theorem X15_index_is_not_reset :
  ∀ (e : io) (dir : bytes) (h : HashMap) (fs : filesystem) (recs : list bytes)
    (k : Z) (out : bytes),
    fs !! dir = Some (frames recs) →
    Forall (fun r => DELIMITER ∉ r) recs →
    size (frames recs) <= currByteOffset h →
    currByteOffset h + size (frames recs) < 2 ^ 31 →
    Exists (fun r => decode_key r = Some k) recs →
    let s := (Single.Store_new e dir h fs).1 in
    let fs' := (Single.Store_new e dir h fs).2 in
    Single.cache s = index_records recs h ∧
    size (frames recs) <= byteOffset (HashMap_get k (Single.cache s)) ∧
    Single.Store_get k out s fs' = (true, []).
Proof.
  intros e dir h fs recs k out Hfile Hnf Hc Hlt Hex s fs'. subst s fs'.
  pose proof (size_nonneg (frames recs)) as Hpos.
  pose proof (indexed_bytes_bound recs) as [_ Hib].
  assert (Hnew : Single.Store_new e dir h fs =
                 (Single.mkStore (ofstream_open (open_ok e) dir ofstream_closed fs).1
                    dir (index_records recs h), fs)).
  { rewrite (Single_Store_new_state e dir h fs recs []); [done| |done| |].
    - by rewrite app_nil_r.
    - apply not_elem_of_nil.
    - rewrite app_nil_r. lia. }
  rewrite Hnew. cbn [fst snd]. split; [done|].
  destruct (index_records_readded recs k h) as (m & Hm & Hoff & Hsz & Hend);
    try done; try lia.
  set (s := Single.mkStore _ _ _).
  split.
  { unfold HashMap_get. subst s. cbn [Single.cache]. rewrite Hm. lia. }
  rewrite (Single_Store_get_hit k out (frames recs) s fs m Hm Hsz)
    by (done || lia).
  rewrite drop_ge; [done|]. unfold size in *. lia.
Qed.

(** An instance: a second store constructed on the log that [main] has
    written, with the index that the first one has left. *)
Lemma X15_index_is_not_reset_witness :
  let recs := [str "11,11"; str "12,12-1"; str "12,12-2"] in
  let dir := str "store.txt" in
  let h := Single.cache single_main.1 in
  let fs := single_main.2 in
  let s := (Single.Store_new io_good dir h fs).1 in
  let fs' := (Single.Store_new io_good dir h fs).2 in
  fs !! dir = Some (frames recs) ∧
  Forall (fun r => DELIMITER ∉ r) recs ∧
  size (frames recs) <= currByteOffset h ∧
  currByteOffset h + size (frames recs) < 2 ^ 31 ∧
  Exists (fun r => decode_key r = Some 11) recs ∧
  Single.cache s = index_records recs h ∧
  size (frames recs) <= byteOffset (HashMap_get 11 (Single.cache s)) ∧
  Single.Store_get 11 (str "old") s fs' = (true, []).
Proof.
  intros recs dir h fs s fs'.
  assert (H1 : fs !! dir = Some (frames recs)) by (by vm_compute).
  assert (H2 : Forall (fun r => DELIMITER ∉ r) recs) by by_compute.
  assert (H3 : size (frames recs) <= currByteOffset h) by (by vm_compute).
  assert (H4 : currByteOffset h + size (frames recs) < 2 ^ 31) by (by vm_compute).
  assert (H5 : Exists (fun r => decode_key r = Some 11) recs) by by_compute.
  do 5 (split; [assumption|]).
  exact (X15_index_is_not_reset io_good dir h fs recs 11 (str "old") H1 H2 H3 H4 H5).
Defined.

(** ** A restart of the engine *)

(** X16: a restarted engine reads the file of sequence number 1 only.  The
    constructor creates one store, on that file, and touches no other file:
    a key that has no record in that file is not found, whatever the files
    of the other sequence numbers hold. *)
Theorem X16_restart_reads_first_file_only :
  ∀ (e : io) (prefix : bytes) (fs : filesystem) (k : Z),
    (∀ c, fs !! Multi.store_path prefix 1 = Some c → no_record_of k c) →
    let st := Multi.StorageEngine_new e prefix fs in
    (Multi.StorageEngine_get k st.1 st.2).1 = None ∧
    Multi.currDir <$> Multi.activeStores st.1 = [Multi.store_path prefix 1] ∧
    ∀ path, path ≠ Multi.store_path prefix 1 → st.2 !! path = fs !! path.
Proof.
  intros e prefix fs k Hk st. subst st. rewrite StorageEngine_new_spec.
  cbn [fst snd Multi.activeStores]. split; [|split].
  - unfold Multi.StorageEngine_get. cbn [Multi.activeStores].
    rewrite (get_loop_nokey k _ [] _); [done|].
    apply Forall_singleton. by apply Multi_Store_new_no_key.
  - by rewrite fmap_cons, Multi_Store_new_currDir.
  - intros path Hne. by apply Multi_Store_new_other.
Qed.

(** An instance: key 13 was written to [store_2.txt] by the run before;
    the restarted engine does not find it. *)
Lemma X16_restart_reads_first_file_only_witness :
  let before := run_sets [put 13 "13"] three_puts in
  let fs := before.2 in
  let st := Multi.StorageEngine_new io_good (str "store") fs in
  (∀ c, fs !! Multi.store_path (str "store") 1 = Some c → no_record_of 13 c) ∧
  fs !! str "store_2.txt" = Some (frames [str "13,13"]) ∧
  (Multi.StorageEngine_get 13 before.1 fs).1 = Some (str "13,13") ∧
  (Multi.StorageEngine_get 13 st.1 st.2).1 = None ∧
  Multi.currDir <$> Multi.activeStores st.1 = [Multi.store_path (str "store") 1] ∧
  ∀ path, path ≠ Multi.store_path (str "store") 1 → st.2 !! path = fs !! path.
Proof.
  intros before fs st.
  assert (H : ∀ c, fs !! Multi.store_path (str "store") 1 = Some c → no_record_of 13 c).
  { intros c Hc. assert (Hf : fs !! Multi.store_path (str "store") 1
                               = Some (frames [str "11,11"; str "12,12-1"; str "12,12-2"]))
      by (by vm_compute).
    rewrite Hf in Hc. injection Hc as <-. by_compute. }
  split; [exact H|]. split; [by vm_compute|]. split; [by vm_compute|].
  exact (X16_restart_reads_first_file_only io_good (str "store") fs 13 H).
Defined.

(** ** Which key texts the replay accepts *)

Lemma leading_digits_uint_app (d : Decimal.uint) (rest : bytes) :
  leading_digits rest = [] →
  leading_digits (list_ascii_of_string (NilEmpty.string_of_uint d) ++ rest)
  = uint_digits d.
Proof. intros Hr. induction d; simpl; by rewrite ?IHd. Qed.

Lemma uint_digits_nonempty (d : Decimal.uint) : d ≠ Decimal.Nil → uint_digits d ≠ [].
Proof. by destruct d. Qed.

Lemma stoi_uint_app (d : Decimal.uint) (rest : bytes) :
  d ≠ Decimal.Nil →
  leading_digits rest = [] →
  stoi (list_ascii_of_string (NilEmpty.string_of_uint d) ++ rest) =
    if decide (INT_MIN <= Z.of_N (Pos.of_uint d) <= INT_MAX)
    then Some (Z.of_N (Pos.of_uint d)) else None.
Proof.
  intros Hd Hrest.
  destruct (string_of_uint_head d Hd) as (c & s & Hs & Hsp & Hm & Hp).
  rewrite Hs, <- app_comm_cons, stoi_head by done.
  rewrite app_comm_cons, <- Hs, leading_digits_uint_app by done.
  pose proof (uint_digits_nonempty d Hd) as Hne.
  destruct (uint_digits d) as [|x l] eqn:Hl; [done|].
  cbv iota zeta. by rewrite <- Hl, digits_value_uint.
Qed.

Lemma stoi_neg_uint_app (d : Decimal.uint) (rest : bytes) :
  d ≠ Decimal.Nil →
  leading_digits rest = [] →
  stoi ("-"%char :: list_ascii_of_string (NilEmpty.string_of_uint d) ++ rest) =
    if decide (INT_MIN <= - Z.of_N (Pos.of_uint d) <= INT_MAX)
    then Some (- Z.of_N (Pos.of_uint d)) else None.
Proof.
  intros Hd Hrest. unfold stoi. simpl skip_spaces. cbv iota beta.
  rewrite decide_True by done.
  rewrite leading_digits_uint_app by done.
  pose proof (uint_digits_nonempty d Hd) as Hne.
  destruct (uint_digits d) as [|x l] eqn:Hl; [done|].
  cbv iota zeta. by rewrite <- Hl, digits_value_uint.
Qed.

(** [std::stoi] on a decimal numeral followed by characters that do not
    start with a digit: the numeral is read, and rejected when it does not
    fit an [int]. *)
Lemma stoi_to_string_app (z : Z) (rest : bytes) :
  leading_digits rest = [] →
  stoi (to_string z ++ rest) =
    if decide (INT_MIN <= z <= INT_MAX) then Some z else None.
Proof.
  intros Hrest. unfold to_string. destruct z as [|p|p]; simpl.
  - unfold stoi. simpl. by rewrite Hrest.
  - pose proof (DecimalPos.Unsigned.to_uint_nonnil p) as Hn.
    pose proof (DecimalPos.Unsigned.of_to p) as Hof.
    assert (Hs : NilZero.string_of_uint (Pos.to_uint p)
                 = NilEmpty.string_of_uint (Pos.to_uint p))
      by (by destruct (Pos.to_uint p)).
    by rewrite Hs, stoi_uint_app, Hof.
  - pose proof (DecimalPos.Unsigned.to_uint_nonnil p) as Hn.
    pose proof (DecimalPos.Unsigned.of_to p) as Hof.
    assert (Hs : NilZero.string_of_uint (Pos.to_uint p)
                 = NilEmpty.string_of_uint (Pos.to_uint p))
      by (by destruct (Pos.to_uint p)).
    by rewrite Hs, stoi_neg_uint_app, Hof.
Qed.

Lemma find_comma_first (a b : bytes) :
  ","%char ∉ a → find_comma (a ++ ","%char :: b) = Some (length a).
Proof.
  induction a as [|c a IH]; intros Ha; simpl.
  - done.
  - apply not_elem_of_cons in Ha as [Hc Ha].
    rewrite decide_False by done. by rewrite IH.
Qed.

Lemma string_of_uint_comma (d : Decimal.uint) :
  ","%char ∉ list_ascii_of_string (NilEmpty.string_of_uint d).
Proof.
  induction d; simpl; rewrite ?not_elem_of_cons;
    first [apply not_elem_of_nil | split; [discriminate | done]].
Qed.

Lemma to_string_no_comma (z : Z) : ","%char ∉ to_string z.
Proof.
  unfold to_string.
  assert (Hu : ∀ d, ","%char ∉ list_ascii_of_string (NilZero.string_of_uint d)).
  { intros d. pose proof (string_of_uint_comma d) as H.
    destruct d; try exact H. simpl.
    rewrite not_elem_of_cons. split; [discriminate | apply not_elem_of_nil]. }
  destruct (Z.to_int z) as [d|d]; simpl; [apply Hu|].
  rewrite not_elem_of_cons. split; [discriminate | apply Hu].
Qed.

(** X17: which key texts [Store::init] accepts.  [std::stoi] ignores what
    follows the digits, so a record whose key is followed by characters
    other than digits, up to the first comma, is indexed under that key; a
    record whose key does not fit an [int] makes [std::stoi] throw and is
    skipped, as is a record that starts with the comma. *)
Theorem X17_key_texts_accepted :
  (∀ (key : Z) (c : ascii) (junk value : bytes),
     INT_MIN <= key <= INT_MAX →
     Ascii.is_nat c = None →
     ","%char ∉ c :: junk →
     decode_key (to_string key ++ c :: junk ++ ","%char :: value) = Some key) ∧
  (∀ (z : Z) (value : bytes),
     ¬ (INT_MIN <= z <= INT_MAX) → decode_key (frame z value) = None) ∧
  (∀ value : bytes, decode_key (","%char :: value) = None).
Proof.
  split; [|split].
  - intros key c junk value Hk Hc Hj. unfold decode_key.
    replace (to_string key ++ c :: junk ++ ","%char :: value)
      with ((to_string key ++ c :: junk) ++ ","%char :: value)
      by (by rewrite <- app_assoc).
    rewrite find_comma_first.
    + rewrite take_app_length, stoi_to_string_app.
      * by rewrite decide_True.
      * simpl. by rewrite Hc.
    + apply not_elem_of_app. split; [apply to_string_no_comma | done].
  - intros z value Hz. unfold decode_key, frame, str. simpl.
    rewrite find_comma_to_string, take_app_length.
    rewrite <- (app_nil_r (to_string z)), stoi_to_string_app by done.
    by rewrite decide_False.
  - intros value. unfold decode_key. by simpl.
Qed.

(** An instance: the records [12abc,x] and [4294967296,x]. *)
Lemma X17_key_texts_accepted_witness :
  (INT_MIN <= 12 <= INT_MAX ∧
   Ascii.is_nat "a"%char = None ∧
   (","%char ∉ "a"%char :: str "bc") ∧
   decode_key (to_string 12 ++ "a"%char :: str "bc" ++ ","%char :: str "x") = Some 12) ∧
  (¬ (INT_MIN <= 4294967296 <= INT_MAX) ∧
   decode_key (frame 4294967296 (str "x")) = None).
Proof.
  assert (H1 : INT_MIN <= 12 <= INT_MAX) by (by vm_compute).
  assert (H2 : Ascii.is_nat "a"%char = None) by reflexivity.
  assert (H3 : ","%char ∉ "a"%char :: str "bc") by by_compute.
  assert (H4 : ¬ (INT_MIN <= 4294967296 <= INT_MAX)) by (unfold INT_MAX; lia).
  split.
  - do 3 (split; [assumption|]).
    exact (proj1 X17_key_texts_accepted 12 "a"%char (str "bc") (str "x") H1 H2 H3).
  - split; [assumption|].
    exact (proj1 (proj2 X17_key_texts_accepted) 4294967296 (str "x") H4).
Defined.
